(** * LZO1Z codec: a shallow embedding of [Compress] and [Decompress]

    The Go sources (compress.go for the encoder and its emitters, the
    decoder with its seven-state loop) are transcribed as executable Rocq
    functions.  Conventions of the embedding:

    - a Go [int] is a [Z]; every quantity the codec computes is bounded by
      a small multiple of a slice length, far below 2^63, so no wrap-around
      of [int] is modelled; the one place where the source relies on
      wrap-around, the 32-bit multiplicative hash, is written out with
      [wrap32];
    - a Go [byte] is a [Byte.byte]; [u8] is the conversion [int(b)] and
      [to_byte] is the truncating conversion [byte(x)];
    - a Go slice is a [list byte]; an index expression outside the slice
      makes the Go runtime panic, which is the outcome [Panic] of the
      [exec] monad; a sub-slice [s[lo:hi]] is [slice s lo hi];
    - a loop is a [Fixpoint] over fuel; running out of fuel is the outcome
      [OutOfFuel], and the theorems show it never happens with the fuel
      the top-level functions pass. *)

From Stdlib Require Import ZArith Zdiv Lia Bool List.
From Stdlib Require Import Strings.Byte.
From stdpp Require Import base tactics option list relations.

Local Open Scope Z_scope.

(** ** Execution monad *)

Inductive exec (A : Type) : Type :=
  | Val (a : A)
  | Panic
  | OutOfFuel.
Arguments Val {A} a.
Arguments Panic {A}.
Arguments OutOfFuel {A}.

#[global] Instance exec_ret : MRet exec := @Val.
#[global] Instance exec_bind : MBind exec := λ A B f m,
  match m with
  | Val a => f a
  | Panic => Panic
  | OutOfFuel => OutOfFuel
  end.

(** ** Bytes and slices *)

Definition u8 (b : byte) : Z := Z.of_N (Byte.to_N b).

Definition to_byte (z : Z) : byte :=
  match Byte.of_N (Z.to_N (z mod 256)) with
  | Some b => b
  | None => x00
  end.

Definition len {A} (l : list A) : Z := Z.of_nat (length l).

(** [l[i]] as an r-value. *)
Definition load {A} (l : list A) (i : Z) : exec A :=
  if i <? 0 then Panic
  else match l !! Z.to_nat i with
       | Some a => Val a
       | None => Panic
       end.

(** [l[i] = a]. *)
Definition store {A} (l : list A) (i : Z) (a : A) : exec (list A) :=
  if (0 <=? i) && (i <? len l) then Val (<[Z.to_nat i := a]> l) else Panic.

(** [l[lo:hi]]. *)
Definition slice {A} (l : list A) (lo hi : Z) : exec (list A) :=
  if (0 <=? lo) && (lo <=? hi) && (hi <=? len l)
  then Val (take (Z.to_nat (hi - lo)) (drop (Z.to_nat lo) l))
  else Panic.

(** ** Errors and constants *)

Inductive error :=
  | ErrInputOverrun
  | ErrOutputOverrun
  | ErrLookbehindOverrun
  | ErrCorrupted.

Definition m2MaxOffset : Z := 0x0700.
Definition m4MaxOffset : Z := 0x4000.

(** ** Decoder *)

Inductive dstate :=
  | stateStart
  | stateLiteralRun
  | stateFirstLiteralRun
  | stateMatch
  | stateMatchDone
  | stateMatchNext
  | stateEOF.

#[global] Instance dstate_eq_dec : EqDecision dstate.
Proof. solve_decision. Defined.

(** The local variables of [Decompress] that live across loop iterations,
    together with the contents of the caller's [dst]. *)
Record dec := Dec {
  d_ip : Z;
  d_op : Z;
  d_lastMOff : Z;
  d_state : dstate;
  d_dst : list byte
}.

(** One pass through the [switch]: either the loop goes on, or the function
    returns [(n, err)] leaving [out] in the caller's buffer. *)
Inductive flow :=
  | Next (d : dec)
  | Ret (n : Z) (err : option error) (out : list byte).

Definition fail (d : dec) (e : error) : exec flow :=
  Val (Ret (d_op d) (Some e) (d_dst d)).

(** [for i := 0; i < n; i++ { dst[op] = src[ip]; op++; ip++ }] *)
Fixpoint copy_literals (n : nat) (src : list byte) (ip op : Z) (dst : list byte)
  : exec (Z * Z * list byte) :=
  match n with
  | O => Val (ip, op, dst)
  | S n' =>
      b ← load src ip;
      dst' ← store dst op b;
      copy_literals n' src (ip + 1) (op + 1) dst'
  end.

(** [for i := 0; i < n; i++ { dst[op] = dst[mPos]; op++; mPos++ }] *)
Fixpoint copy_match (n : nat) (op mPos : Z) (dst : list byte)
  : exec (Z * list byte) :=
  match n with
  | O => Val (op, dst)
  | S n' =>
      b ← load dst mPos;
      dst' ← store dst op b;
      copy_match n' (op + 1) (mPos + 1) dst'
  end.

(** [for ip < inLen && src[ip] == 0 { t += 255; ip++ }] *)
Fixpoint skip_zeros (fuel : nat) (src : list byte) (ip t : Z) : exec (Z * Z) :=
  if ip <? len src then
    b ← load src ip;
    if u8 b =? 0 then
      match fuel with
      | O => OutOfFuel
      | S fuel' => skip_zeros fuel' src (ip + 1) (t + 255)
      end
    else Val (ip, t)
  else Val (ip, t).

(** The extended-length protocol shared by literal runs, M3 and M4: the
    zero-byte loop, the overrun check and the final byte added to [base]. *)
Definition extended (src : list byte) (d : dec) (ip t base : Z)
  (k : Z → Z → exec flow) : exec flow :=
  '(ip, t) ← skip_zeros (length src) src ip t;
  if len src <=? ip then fail d ErrInputOverrun
  else
    b ← load src ip;
    k (ip + 1) (t + (base + u8 b)).

(** The tail every match shares: the lookbehind and output checks and the
    byte-by-byte forward copy.  The two M1 sites unroll the copy in the
    source (three, respectively two, assignments in increasing order). *)
Definition lookbehind (d : dec) (ip mOff mLen : Z) : exec flow :=
  let op := d_op d in
  if op <? mOff then fail d ErrLookbehindOverrun
  else if len (d_dst d) <? op + mLen then fail d ErrOutputOverrun
  else
    '(op', dst') ← copy_match (Z.to_nat mLen) op (op - mOff) (d_dst d);
    Val (Next (Dec ip op' mOff stateMatchDone dst')).

(** The literal copy with its two checks (output first, then input). *)
Definition literals (src : list byte) (d : dec) (ip t : Z) (next : dstate)
  : exec flow :=
  let op := d_op d in
  if len (d_dst d) <? op + t then fail d ErrOutputOverrun
  else if len src <? ip + t then fail d ErrInputOverrun
  else
    '(ip', op', dst') ← copy_literals (Z.to_nat t) src ip op (d_dst d);
    Val (Next (Dec ip' op' (d_lastMOff d) next dst')).

Definition goto (d : dec) (ip : Z) (s : dstate) : exec flow :=
  Val (Next (Dec ip (d_op d) (d_lastMOff d) s (d_dst d))).

Definition step_start (src : list byte) (d : dec) : exec flow :=
  let ip := d_ip d in
  if len src <=? ip then fail d ErrInputOverrun
  else
    b ← load src ip;
    let t := u8 b in
    if 17 <? t then
      let ip := ip + 1 in
      let t := t - 17 in
      if t <? 4 then literals src d ip t stateMatchNext
      else literals src d ip t stateFirstLiteralRun
    else goto d ip stateLiteralRun.

Definition step_literal_run (src : list byte) (d : dec) : exec flow :=
  let ip := d_ip d in
  if len src <=? ip then fail d ErrInputOverrun
  else
    b ← load src ip;
    let t := u8 b in
    let ip := ip + 1 in
    if 16 <=? t then goto d (ip - 1) stateMatch
    else if t =? 0 then
      extended src d ip t 15
        (λ ip t, literals src d ip (t + 3) stateFirstLiteralRun)
    else literals src d ip (t + 3) stateFirstLiteralRun.

Definition step_first_literal_run (src : list byte) (d : dec) : exec flow :=
  let ip := d_ip d in
  if len src <=? ip then fail d ErrInputOverrun
  else
    b ← load src ip;
    let t := u8 b in
    let ip := ip + 1 in
    if 16 <=? t then goto d (ip - 1) stateMatch
    else if len src <=? ip then fail d ErrInputOverrun
    else
      b ← load src ip;
      let mOff := (1 + m2MaxOffset) + Z.shiftl t 6 + Z.shiftr (u8 b) 2 in
      lookbehind d (ip + 1) mOff 3.

Definition match_m2 (src : list byte) (d : dec) (ip t : Z) : exec flow :=
  let off := Z.land t 0x1f in
  let mLen := (Z.shiftr t 5 - 1) + 2 in
  if 0x1c <=? off then
    if d_lastMOff d =? 0 then fail d ErrLookbehindOverrun
    else lookbehind d ip (d_lastMOff d) mLen
  else if len src <=? ip then fail d ErrInputOverrun
  else
    b ← load src ip;
    let mOff := 1 + Z.shiftl off 6 + Z.shiftr (u8 b) 2 in
    lookbehind d (ip + 1) mOff mLen.

Definition match_m3_tail (src : list byte) (d : dec) (ip mLen : Z) : exec flow :=
  if len src <? ip + 2 then fail d ErrInputOverrun
  else
    b0 ← load src ip;
    b1 ← load src (ip + 1);
    let mOff := 1 + Z.shiftl (u8 b0) 6 + Z.shiftr (u8 b1) 2 in
    lookbehind d (ip + 2) mOff (mLen + 2).

Definition match_m3 (src : list byte) (d : dec) (ip t : Z) : exec flow :=
  let mLen := Z.land t 31 in
  if mLen =? 0 then extended src d ip mLen 31 (match_m3_tail src d)
  else match_m3_tail src d ip mLen.

Definition match_m4_tail (src : list byte) (d : dec) (mOff ip mLen : Z)
  : exec flow :=
  if len src <? ip + 2 then fail d ErrInputOverrun
  else
    b0 ← load src ip;
    b1 ← load src (ip + 1);
    let mOff := mOff + (Z.shiftl (u8 b0) 6 + Z.shiftr (u8 b1) 2) in
    let ip := ip + 2 in
    if mOff =? 0 then goto d ip stateEOF
    else lookbehind d ip (mOff + m4MaxOffset) (mLen + 2).

Definition match_m4 (src : list byte) (d : dec) (ip t : Z) : exec flow :=
  let mOff := Z.shiftl (Z.land t 8) 11 in
  let mLen := Z.land t 7 in
  if mLen =? 0 then extended src d ip mLen 7 (match_m4_tail src d mOff)
  else match_m4_tail src d mOff ip mLen.

Definition match_m1 (src : list byte) (d : dec) (ip t : Z) : exec flow :=
  if len src <=? ip then fail d ErrInputOverrun
  else
    b ← load src ip;
    let mOff := 1 + Z.shiftl t 6 + Z.shiftr (u8 b) 2 in
    lookbehind d (ip + 1) mOff 2.

Definition step_match (src : list byte) (d : dec) : exec flow :=
  let ip := d_ip d in
  if len src <=? ip then fail d ErrInputOverrun
  else
    b ← load src ip;
    let t := u8 b in
    let ip := ip + 1 in
    if 64 <=? t then match_m2 src d ip t
    else if 32 <=? t then match_m3 src d ip t
    else if 16 <=? t then match_m4 src d ip t
    else match_m1 src d ip t.

Definition step_match_done (src : list byte) (d : dec) : exec flow :=
  let ip := d_ip d in
  if (ip =? 0) || (len src <? ip) then goto d ip stateLiteralRun
  else
    b ← load src (ip - 1);
    let t := Z.land (u8 b) 3 in
    if t =? 0 then goto d ip stateLiteralRun
    else literals src d ip t stateMatchNext.

(** The body of the [switch]. *)
Definition step (src : list byte) (d : dec) : exec flow :=
  match d_state d with
  | stateStart => step_start src d
  | stateLiteralRun => step_literal_run src d
  | stateFirstLiteralRun => step_first_literal_run src d
  | stateMatch => step_match src d
  | stateMatchDone => step_match_done src d
  | stateMatchNext => goto d (d_ip d) stateMatch
  | stateEOF => Val (Next d)
  end.

(** [for state != stateEOF { ... }; return op, nil] *)
Fixpoint run (fuel : nat) (src : list byte) (d : dec)
  : exec (Z * option error * list byte) :=
  if decide (d_state d = stateEOF) then Val (d_op d, None, d_dst d)
  else
    match fuel with
    | O => OutOfFuel
    | S fuel' =>
        f ← step src d;
        match f with
        | Next d' => run fuel' src d'
        | Ret n err out => Val (n, err, out)
        end
    end.

(** Every pass either consumes input or moves towards [stateMatch], which
    always consumes: three passes per input byte and three more suffice. *)
Definition decompress_fuel (src : list byte) : nat := 3 * length src + 3.

Definition Decompress (src dst : list byte)
  : exec (Z * option error * list byte) :=
  if len src =? 0 then Val (0, None, dst)
  else run (decompress_fuel src) src (Dec 0 0 0 stateStart dst).

(** [DecompressSafe] is [Decompress] under another name. *)
Definition DecompressSafe (src dst : list byte)
  : exec (Z * option error * list byte) :=
  Decompress src dst.

Definition bytes (l : list Z) : list byte := map to_byte l.

Example decompress_eof :
  Decompress (bytes [0x11; 0; 0]) [] = Val (0, None, []).
Proof. reflexivity. Qed.

Example decompress_AB :
  Decompress (bytes [0x13; 0x41; 0x42; 0x11; 0; 0]) (bytes [0; 0; 0])
  = Val (2, None, bytes [0x41; 0x42; 0]).
Proof. reflexivity. Qed.

(** ** Encoder *)

Definition hashBits : Z := 14.
Definition hashSize : Z := Z.shiftl 1 hashBits.
Definition hashMask : Z := hashSize - 1.
Definition maxOffset : Z := 0xbfff.
Definition minMatch : Z := 3.

(** What a call returns: [(n, err)] and the contents of the caller's [dst]. *)
Definition result : Type := Z * option error * list byte.

Definition overrun (n : Z) (dst : list byte) : exec result :=
  Val (n, Some ErrOutputOverrun, dst).

(** Ghost record of the emitter calls [Compress] makes, in order.  The code
    never reads it; it names the literal runs and matches of a stream. *)
Inductive event :=
  | EvLiterals (lit : list byte) (isFirst : bool)
  | EvMatch (offset length : Z).

Definition wrap32 (z : Z) : Z := z mod 2 ^ 32.

(** The closure [hash] of [Compress]. *)
Definition hash (src : list byte) (p : Z) : exec Z :=
  if len src <? p + 4 then Val 0
  else
    b0 ← load src p;
    b1 ← load src (p + 1);
    b2 ← load src (p + 2);
    b3 ← load src (p + 3);
    let v := Z.lor (Z.lor (Z.lor (u8 b0) (Z.shiftl (u8 b1) 8))
                          (Z.shiftl (u8 b2) 16))
                   (Z.shiftl (u8 b3) 24) in
    Val (Z.land (Z.shiftr (wrap32 (v * 0x1e35a7bd)) (32 - hashBits)) hashMask).

(** [copy(dst[op:], lit)]: the builtin copies as many bytes as fit. *)
Definition copy_at (dst : list byte) (op : Z) (lit : list byte)
  : exec (list byte) :=
  if (0 <=? op) && (op <=? len dst) then
    let n := Z.to_nat op in
    let m := Nat.min (length dst - n) (length lit) in
    Val (take n dst ++ take m lit ++ drop (n + m) dst)
  else Panic.

(** The successor bytes of an extended literal length, each write guarded:
    [for remaining > 255 { if op >= outLen { return }; dst[op] = 0; op++;
    remaining -= 255 }; if op >= outLen { return }; dst[op] =
    byte(remaining); op++]. *)
Fixpoint emit_ext_checked (fuel : nat) (dst : list byte) (op remaining : Z)
  (k : Z → list byte → exec result) : exec result :=
  if 255 <? remaining then
    if len dst <=? op then overrun op dst
    else
      dst ← store dst op x00;
      match fuel with
      | O => OutOfFuel
      | S fuel' => emit_ext_checked fuel' dst (op + 1) (remaining - 255) k
      end
  else if len dst <=? op then overrun op dst
  else
    dst ← store dst op (to_byte remaining);
    k (op + 1) dst.

(** The successor bytes of an extended match length, as [emitMatch] writes
    them: [for remaining > 255 { dst[op] = 0; op++; remaining -= 255 };
    dst[op] = byte(remaining); op++]. *)
Fixpoint emit_ext (fuel : nat) (dst : list byte) (op remaining : Z)
  : exec (Z * list byte) :=
  if 255 <? remaining then
    dst ← store dst op x00;
    match fuel with
    | O => OutOfFuel
    | S fuel' => emit_ext fuel' dst (op + 1) (remaining - 255)
    end
  else
    dst ← store dst op (to_byte remaining);
    Val (op + 1, dst).

(** The end of [emitLiterals]: the payload copy. *)
Definition emit_payload (lit : list byte) (op : Z) (dst : list byte)
  : exec result :=
  if len dst <? op + len lit then overrun op dst
  else
    dst ← copy_at dst op lit;
    Val (op + len lit, None, dst).

Definition emitLiterals (lit dst : list byte) (isFirst : bool) : exec result :=
  if len lit =? 0 then Val (0, None, dst)
  else
    let op := 0 in
    let litLen := len lit in
    let outLen := len dst in
    if isFirst && (litLen <=? 238) then
      if litLen <=? 3 then
        if outLen <? op + 1 + litLen then overrun op dst
        else
          dst ← store dst op (to_byte (litLen + 17));
          emit_payload lit (op + 1) dst
      else if litLen <=? 18 then
        if outLen <? op + 1 + litLen then overrun op dst
        else
          dst ← store dst op (to_byte (litLen - 3));
          emit_payload lit (op + 1) dst
      else if outLen <? op + 2 + litLen then overrun op dst
      else
        let remaining := litLen - 18 in
        if remaining <=? 255 then
          dst ← store dst op x00;
          dst ← store dst (op + 1) (to_byte remaining);
          emit_payload lit (op + 2) dst
        else
          dst ← store dst op x00;
          emit_ext_checked (Z.to_nat remaining) dst (op + 1) remaining
            (emit_payload lit)
    else if litLen <=? 18 then
      if outLen <? op + 1 + litLen then overrun op dst
      else
        dst ← store dst op (to_byte (litLen - 3));
        emit_payload lit (op + 1) dst
    else
      let remaining := litLen - 18 in
      dst ← store dst op x00;
      emit_ext_checked (Z.to_nat remaining) dst (op + 1) remaining
        (emit_payload lit).

(** The two offset bytes that end an M3 or M4 opcode. *)
Definition emit_offset (dst : list byte) (op offByte0 offByte1 : Z)
  : exec result :=
  dst ← store dst op (to_byte offByte0);
  dst ← store dst (op + 1) (to_byte offByte1);
  Val (op + 2, None, dst).

Definition emitMatch (dst : list byte) (offset length : Z) : exec result :=
  if len dst <? 4 then overrun 0 dst
  else
    let op := 0 in
    if (3 <=? length) && (length <=? 4) && (1 <=? offset) && (offset <=? 0x700)
    then
      let off := offset - 1 in
      let offHigh := Z.land (Z.shiftr off 6) 0x1f in
      let offLow := Z.shiftl (Z.land off 0x3f) 2 in
      let lenCode := Z.shiftl (length - 1) 5 in
      dst ← store dst op (to_byte (Z.lor lenCode offHigh));
      dst ← store dst (op + 1) (to_byte offLow);
      Val (op + 2, None, dst)
    else if (3 <=? length) && (1 <=? offset) && (offset <=? 0x4000) then
      let off := offset - 1 in
      let offByte0 := Z.land (Z.shiftr off 6) 0xff in
      let offByte1 := Z.shiftl (Z.land off 0x3f) 2 in
      if length <=? 33 then
        let lenCode := length - 2 in
        dst ← store dst op (to_byte (Z.lor 0x20 lenCode));
        emit_offset dst (op + 1) offByte0 offByte1
      else
        dst ← store dst op (to_byte 0x20);
        let remaining := length - 2 - 31 in
        '(op, dst) ← emit_ext (Z.to_nat remaining) dst (op + 1) remaining;
        emit_offset dst op offByte0 offByte1
    else if (0x4000 <? offset) && (offset <=? 0xbfff) then
      let off := offset - 0x4000 in
      let offHigh := Z.land (Z.shiftr off 11) 0x08 in
      let offByte0 := Z.land (Z.shiftr off 6) 0xff in
      let offByte1 := Z.shiftl (Z.land off 0x3f) 2 in
      if length <=? 9 then
        let lenCode := length - 2 in
        dst ← store dst op (to_byte (Z.lor (Z.lor 0x10 offHigh) lenCode));
        emit_offset dst (op + 1) offByte0 offByte1
      else
        dst ← store dst op (to_byte (Z.lor 0x10 offHigh));
        let remaining := length - 2 - 7 in
        '(op, dst) ← emit_ext (Z.to_nat remaining) dst (op + 1) remaining;
        emit_offset dst op offByte0 offByte1
    else overrun 0 dst.

(** Go's integer division truncates towards zero: [Z.quot]. *)
Definition MaxCompressedSize (n : Z) : Z :=
  if n =? 0 then 3 else n + Z.quot n 16 + 64 + 3.

(** An emitter called on the sub-slice [dst[op:]]: its writes land in the
    caller's buffer from [op] on. *)
Definition on_tail (dst : list byte) (op : Z)
  (emit : list byte → exec result) : exec result :=
  tail ← slice dst op (len dst);
  '(n, err, tail') ← emit tail;
  Val (n, err, take (Z.to_nat op) dst ++ tail').

(** The three-byte EOF marker and the final return. *)
Definition emit_eof (dst : list byte) (op : Z) : exec result :=
  if len dst <? op + 3 then overrun op dst
  else
    dst ← store dst op (to_byte 0x11);
    dst ← store dst (op + 1) (to_byte 0x00);
    dst ← store dst (op + 2) (to_byte 0x00);
    Val (op + 3, None, dst).

Definition compressLiteralsOnly (src dst : list byte) : exec result :=
  let op := 0 in
  '(n, err, dst) ← emitLiterals src dst true;
  match err with
  | Some e => Val (0, Some e, dst)
  | None => emit_eof dst (op + n)
  end.

(** The local variables of [Compress] that live across loop iterations, the
    contents of [dst], and the ghost log. *)
Record enc := Enc {
  e_ip : Z;
  e_op : Z;
  e_litStart : Z;
  e_isFirstOutput : bool;
  e_hashTable : list Z;
  e_dst : list byte;
  e_log : list event
}.

Inductive cflow :=
  | Continue (e : enc)
  | Return (r : result) (log : list event).

Definition same_at (src : list byte) (i j : Z) : exec bool :=
  a ← load src i;
  b ← load src j;
  Val (Byte.eqb a b).

(** [src[ref] == src[ip] && src[ref+1] == src[ip+1] && src[ref+2] ==
    src[ip+2]], evaluated left to right with short circuit. *)
Definition three_equal (src : list byte) (ref ip : Z) : exec bool :=
  c ← same_at src ref ip;
  if (c : bool) then
    c ← same_at src (ref + 1) (ip + 1);
    if (c : bool) then same_at src (ref + 2) (ip + 2) else Val false
  else Val false.

(** [for matchLen < maxLen && src[ref+matchLen] == src[ip+matchLen]
    { matchLen++ }] *)
Fixpoint extend_match (fuel : nat) (src : list byte) (ref ip matchLen maxLen : Z)
  : exec Z :=
  if matchLen <? maxLen then
    c ← same_at src (ref + matchLen) (ip + matchLen);
    if (c : bool) then
      match fuel with
      | O => OutOfFuel
      | S fuel' => extend_match fuel' src ref ip (matchLen + 1) maxLen
      end
    else Val matchLen
  else Val matchLen.

(** The head of the loop body: the table probe and update, the candidate
    test and the length of the match found. *)
Definition find_match (src : list byte) (hashTable : list Z) (ip : Z)
  : exec (list Z * option (Z * Z)) :=
  let inLen := len src in
  h ← hash src ip;
  ref ← load hashTable h;
  hashTable ← store hashTable h ip;
  let offset := ip - ref in
  if (0 <? offset) && (offset <=? maxOffset) && (0 <=? ref) && (ip + 4 <=? inLen)
  then
    c ← three_equal src ref ip;
    if (c : bool) then
      let matchLen := 3 in
      let maxLen := inLen - ip in
      let maxLen := if 264 <? maxLen then 264 else maxLen in
      matchLen ← extend_match (Z.to_nat maxLen) src ref ip matchLen maxLen;
      Val (hashTable, Some (offset, matchLen))
    else Val (hashTable, None)
  else Val (hashTable, None).

(** The two tests that make the encoder skip a match it has found. *)
Definition pending_unencodable (e : enc) : bool :=
  let litLen := e_ip e - e_litStart e in
  negb (e_isFirstOutput e) && (0 <? litLen) && (litLen <? 4).

Definition short_tail (src : list byte) (e : enc) (matchLen : Z) : bool :=
  let remainingAfterMatch := len src - (e_ip e + matchLen) in
  (0 <? remainingAfterMatch) && (remainingAfterMatch <? 4).

(** [for i := ip - matchLen + 1; i < ip && i < inLen-4; i++
    { hashTable[hash(i)] = i }] *)
Fixpoint refresh (fuel : nat) (src : list byte) (hashTable : list Z) (i ip : Z)
  : exec (list Z) :=
  if (i <? ip) && (i <? len src - 4) then
    h ← hash src i;
    hashTable ← store hashTable h i;
    match fuel with
    | O => OutOfFuel
    | S fuel' => refresh fuel' src hashTable (i + 1) ip
    end
  else Val hashTable.

(** [skip e hashTable]: [ip++; continue]. *)
Definition skip (e : enc) (hashTable : list Z) : enc :=
  Enc (e_ip e + 1) (e_op e) (e_litStart e) (e_isFirstOutput e) hashTable
      (e_dst e) (e_log e).

(** [if litLen > 0 { n, err := emitLiterals(src[litStart:hi], dst[op:],
    isFirstOutput); ... }]: the pending literals, emitted if there are any.
    The call is entered in the log; without a call the result is that of an
    emitter that wrote nothing. *)
Definition emit_pending_literals (src : list byte) (e : enc) (hi : Z)
  : exec (result * list event) :=
  let litLen := hi - e_litStart e in
  if 0 <? litLen then
    lit ← slice src (e_litStart e) hi;
    r ← on_tail (e_dst e) (e_op e)
          (λ d, emitLiterals lit d (e_isFirstOutput e));
    Val (r, e_log e ++ [EvLiterals lit (e_isFirstOutput e)])
  else Val ((0, None, e_dst e), e_log e).

(** The accepted match: pending literals, the match, the cursor updates and
    the refresh of the table. *)
Definition accept (src : list byte) (e : enc) (hashTable : list Z)
  (offset matchLen : Z) : exec cflow :=
  let ip := e_ip e in
  let op := e_op e in
  '(n, err, dst, log1) ← emit_pending_literals src e ip;
  match err with
  | Some err => Val (Return (op, Some err, dst) log1)
  | None =>
      let op := op + n in
      let log2 := log1 ++ [EvMatch offset matchLen] in
      '(n, err, dst) ← on_tail dst op (λ d, emitMatch d offset matchLen);
      match err with
      | Some err => Val (Return (op, Some err, dst) log2)
      | None =>
          let op := op + n in
          let ip := ip + matchLen in
          hashTable ← refresh (Z.to_nat matchLen) src hashTable
                        (ip - matchLen + 1) ip;
          Val (Continue (Enc ip op ip false hashTable dst log2))
      end
  end.

(** The body of the main loop. *)
Definition iter (src : list byte) (e : enc) : exec cflow :=
  '(hashTable, found) ← find_match src (e_hashTable e) (e_ip e);
  match found with
  | Some (offset, matchLen) =>
      if pending_unencodable e then Val (Continue (skip e hashTable))
      else if short_tail src e matchLen then Val (Continue (skip e hashTable))
      else accept src e hashTable offset matchLen
  | None => Val (Continue (skip e hashTable))
  end.

(** [for ip < inLen-minMatch { ... }] *)
Fixpoint main_loop (fuel : nat) (src : list byte) (e : enc) : exec cflow :=
  if e_ip e <? len src - minMatch then
    match fuel with
    | O => OutOfFuel
    | S fuel' =>
        f ← iter src e;
        match f with
        | Continue e' => main_loop fuel' src e'
        | Return r log => Val (Return r log)
        end
    end
  else Val (Continue e).

(** After the loop: the remaining literals and the EOF marker. *)
Definition finish (src : list byte) (e : enc) : exec (result * list event) :=
  let op := e_op e in
  '(n, err, dst, log) ← emit_pending_literals src e (len src);
  match err with
  | Some err => Val ((op, Some err, dst), log)
  | None => r ← emit_eof dst (op + n); Val (r, log)
  end.

Definition initial_table : list Z := replicate (Z.to_nat hashSize) (- maxOffset).

(** [Compress] together with its ghost log. *)
Definition compress_logged (src dst : list byte) : exec (result * list event) :=
  if len src =? 0 then Val ((0, None, dst), [])
  else if len src <=? 3 then
    r ← compressLiteralsOnly src dst;
    Val (r, [EvLiterals src true])
  else
    f ← main_loop (length src) src (Enc 0 0 0 true initial_table dst []);
    match f with
    | Continue e => finish src e
    | Return r log => Val (r, log)
    end.

Definition Compress (src dst : list byte) : exec result :=
  '(r, _) ← compress_logged src dst;
  Val r.

(** The bytes a successful call leaves in [dst[:n]]. *)
Definition output (r : result) : list byte :=
  let '(n, _, dst) := r in take (Z.to_nat n) dst.

Definition zeros (n : nat) : list byte := replicate n x00.

Example compress_empty : Compress [] [] = Val (0, None, []).
Proof. reflexivity. Qed.

Example compress_AB :
  Compress (bytes [0x41; 0x42]) (zeros 6)
  = Val (6, None, bytes [0x13; 0x41; 0x42; 0x11; 0; 0]).
Proof. vm_compute. reflexivity. Qed.

(** * Basic facts about bytes, loads and stores *)

Lemma u8_range b : 0 <= u8 b < 256.
Proof.
  unfold u8. pose proof (Byte.to_N_bounded b) as H.
  split; [apply N2Z.is_nonneg|]. lia.
Qed.

Lemma u8_to_byte z : u8 (to_byte z) = z mod 256.
Proof.
  unfold u8, to_byte.
  pose proof (Z.mod_pos_bound z 256 ltac:(lia)) as Hm.
  destruct (Byte.of_N (Z.to_N (z mod 256))) as [b|] eqn:E.
  - apply Byte.to_of_N in E. rewrite E. lia.
  - apply Byte.of_N_None_iff in E. lia.
Qed.

Lemma u8_inj a b : u8 a = u8 b → a = b.
Proof.
  unfold u8. intros H. apply N2Z.inj in H.
  pose proof (Byte.of_to_N a) as Ha. pose proof (Byte.of_to_N b) as Hb.
  congruence.
Qed.

Lemma to_byte_u8 b : to_byte (u8 b) = b.
Proof.
  apply u8_inj. rewrite u8_to_byte. pose proof (u8_range b).
  apply Z.mod_small. lia.
Qed.

Lemma u8_to_byte_small z : 0 <= z < 256 → u8 (to_byte z) = z.
Proof. intros. rewrite u8_to_byte. apply Z.mod_small. lia. Qed.

Lemma byte_eqb_eq a b : Byte.eqb a b = true ↔ a = b.
Proof. split; [apply Byte.byte_dec_bl | apply Byte.byte_dec_lb]. Qed.

Lemma len_nonneg {A} (l : list A) : 0 <= len l.
Proof. unfold len. lia. Qed.

Lemma load_Val {A} (l : list A) i a :
  load l i = Val a ↔ 0 <= i ∧ l !! Z.to_nat i = Some a.
Proof.
  unfold load. destruct (Z.ltb_spec i 0).
  - split; [discriminate | lia].
  - destruct (l !! Z.to_nat i) eqn:E; split; intros; destruct_and?; simplify_eq;
      auto; discriminate.
Qed.

Lemma load_in {A} (l : list A) i :
  0 <= i < len l → ∃ a, load l i = Val a ∧ l !! Z.to_nat i = Some a.
Proof.
  intros H. destruct (lookup_lt_is_Some_2 l (Z.to_nat i)) as [a Ha].
  { unfold len in H. lia. }
  exists a. split; [|done]. apply load_Val. split; [lia | done].
Qed.

Lemma store_in {A} (l : list A) i a :
  0 <= i < len l → store l i a = Val (<[Z.to_nat i := a]> l).
Proof.
  intros H. unfold store.
  destruct (Z.leb_spec 0 i), (Z.ltb_spec i (len l)); simpl; auto; lia.
Qed.

Lemma len_insert {A} (l : list A) i a : len (<[i := a]> l) = len l.
Proof. unfold len. by rewrite length_insert. Qed.

Lemma len_app {A} (l k : list A) : len (l ++ k) = len l + len k.
Proof. unfold len. rewrite length_app. lia. Qed.

(** Turn the boolean tests of the source into linear facts. *)
Ltac cmp :=
  repeat match goal with
  | H : (_ && _) = true |- _ => apply andb_true_iff in H; destruct H
  | H : (_ || _) = false |- _ => apply orb_false_iff in H; destruct H
  | H : negb _ = true |- _ => apply negb_true_iff in H
  | H : negb _ = false |- _ => apply negb_false_iff in H
  | H : (_ <? _) = true |- _ => apply Z.ltb_lt in H
  | H : (_ <? _) = false |- _ => apply Z.ltb_ge in H
  | H : (_ <=? _) = true |- _ => apply Z.leb_le in H
  | H : (_ <=? _) = false |- _ => apply Z.leb_gt in H
  | H : (_ =? _) = true |- _ => apply Z.eqb_eq in H
  | H : (_ =? _) = false |- _ => apply Z.eqb_neq in H
  end.

(** Reduce the binds of the execution monad once their argument is known. *)
Ltac sbind := cbn [mbind exec_bind mret exec_ret].
Tactic Notation "sbind" "in" hyp(H) :=
  cbn [mbind exec_bind mret exec_ret] in H.

Lemma bind_eq {A B} (m : exec A) (a : A) (k : A → exec B) (r : exec B) :
  m = Val a → k a = r → (m ≫= k) = r.
Proof. by intros -> <-. Qed.

(** Resolve an in-range [load] or [store] at the head of the goal. *)
Ltac do_load l i b Hb :=
  destruct (load_in l i) as (b & -> & Hb); [try lia | sbind].
Ltac do_store := rewrite store_in by (rewrite ?len_insert; lia); sbind.

(** Split on the test of the outermost conditional of the goal. *)
Ltac branch :=
  match goal with
  | |- context [if ?c then _ else _] =>
      lazymatch c with
      | context [if _ then _ else _] => fail
      | _ => let E := fresh "E" in destruct c eqn:E; cmp
      end
  end.

(** * The decoder's inner loops in closed form *)

(** The bytes an LZ77 copy of [n] bytes at distance [off] appends to [out],
    one at a time so that a copy may read what it has just written. *)
Fixpoint lz_copy (n : nat) (out : list byte) (off : nat) : list byte :=
  match n with
  | O => out
  | S n' =>
      match out !! (length out - off)%nat with
      | Some b => lz_copy n' (out ++ [b]) off
      | None => out
      end
  end.

Lemma lz_copy_length n out off :
  (0 < off <= length out)%nat → length (lz_copy n out off) = (length out + n)%nat.
Proof.
  revert out. induction n as [|n IH]; intros out H; simpl; [lia|].
  destruct (lookup_lt_is_Some_2 out (length out - off)) as [b Hb]; [lia|].
  rewrite Hb, IH; rewrite length_app; simpl; lia.
Qed.

Lemma take_succ_insert {A} (l : list A) (i : nat) a :
  (i < length l)%nat → take (S i) (<[i := a]> l) = take i l ++ [a].
Proof.
  intros H. rewrite (take_S_r _ _ a).
  - by rewrite take_insert_ge by lia.
  - by rewrite list_lookup_insert_eq.
Qed.

Lemma copy_literals_spec n src ip op dst :
  0 <= ip → ip + Z.of_nat n <= len src →
  0 <= op → op + Z.of_nat n <= len dst →
  copy_literals n src ip op dst
  = Val (ip + Z.of_nat n, op + Z.of_nat n,
         take (Z.to_nat op) dst ++ take n (drop (Z.to_nat ip) src)
           ++ drop (Z.to_nat op + n) dst).
Proof.
  revert ip op dst. induction n as [|n IH]; intros ip op dst Hi Hil Ho Hol.
  - simpl. rewrite !Z.add_0_r, Nat.add_0_r, take_drop. done.
  - cbn [copy_literals].
    do_load src ip b Hb. do_store.
    rewrite IH by (rewrite ?len_insert; lia).
    replace (ip + 1 + Z.of_nat n) with (ip + Z.of_nat (S n)) by lia.
    replace (op + 1 + Z.of_nat n) with (op + Z.of_nat (S n)) by lia.
    do 2 f_equal.
    replace (Z.to_nat (op + 1)) with (S (Z.to_nat op)) by lia.
    replace (Z.to_nat (ip + 1)) with (S (Z.to_nat ip)) by lia.
    rewrite take_succ_insert by (unfold len in *; lia).
    rewrite drop_insert_lt by lia.
    rewrite (drop_S src b (Z.to_nat ip)) by done.
    rewrite <- app_assoc. simpl.
    do 4 f_equal. lia.
Qed.

Lemma copy_match_spec n op mPos dst :
  0 <= mPos < op → op + Z.of_nat n <= len dst →
  copy_match n op mPos dst
  = Val (op + Z.of_nat n,
         lz_copy n (take (Z.to_nat op) dst) (Z.to_nat (op - mPos))
           ++ drop (Z.to_nat op + n) dst).
Proof.
  revert op mPos dst. induction n as [|n IH]; intros op mPos dst Hm Hol.
  - simpl. rewrite Z.add_0_r, Nat.add_0_r, take_drop. done.
  - cbn [copy_match lz_copy].
    do_load dst mPos b Hb. do_store.
    rewrite IH by (rewrite ?len_insert; lia).
    assert (Hlen : length (take (Z.to_nat op) dst) = Z.to_nat op).
    { rewrite length_take. unfold len in *. lia. }
    rewrite Hlen.
    replace (Z.to_nat op - Z.to_nat (op - mPos))%nat with (Z.to_nat mPos) by lia.
    rewrite lookup_take_lt by lia. rewrite Hb.
    replace (op + 1 + Z.of_nat n) with (op + Z.of_nat (S n)) by lia.
    do 2 f_equal.
    replace (Z.to_nat (op + 1)) with (S (Z.to_nat op)) by lia.
    rewrite take_succ_insert by (unfold len in *; lia).
    rewrite drop_insert_lt by lia.
    do 2 f_equal; [f_equal; lia | lia].
Qed.

Lemma skip_zeros_spec fuel src ip t :
  0 <= ip <= len src → len src - ip <= Z.of_nat fuel →
  ∃ ip', skip_zeros fuel src ip t = Val (ip', t + 255 * (ip' - ip))
    ∧ ip <= ip' <= len src
    ∧ (∀ i, ip <= i < ip' → src !! Z.to_nat i = Some x00)
    ∧ (ip' < len src → ∃ b, src !! Z.to_nat ip' = Some b ∧ u8 b ≠ 0).
Proof.
  revert ip t. induction fuel as [|fuel IH]; intros ip t Hip Hf.
  - exists ip. cbn [skip_zeros]. branch; [lia|].
    rewrite Z.sub_diag, Z.mul_0_r, Z.add_0_r. repeat split; try lia.
  - cbn [skip_zeros]. branch.
    + do_load src ip b Hb. branch.
      * destruct (IH (ip + 1) (t + 255)) as (ip' & -> & Hr & Hz & Hn); [lia..|].
        exists ip'. split; [do 2 f_equal; lia|]. split; [lia|]. split; [|done].
        intros i Hi. destruct (decide (i = ip)) as [->|]; [|apply Hz; lia].
        rewrite Hb. f_equal. apply u8_inj. rewrite E0. done.
      * exists ip. rewrite Z.sub_diag, Z.mul_0_r, Z.add_0_r.
        repeat split; try lia. intros _. eauto.
    + exists ip. rewrite Z.sub_diag, Z.mul_0_r, Z.add_0_r. repeat split; lia.
Qed.

(** * Bit operations as arithmetic *)

Lemma shiftl_mul a n : 0 <= n → Z.shiftl a n = a * 2 ^ n.
Proof. intros. by apply Z.shiftl_mul_pow2. Qed.

Lemma shiftr_div a n : 0 <= n → Z.shiftr a n = a / 2 ^ n.
Proof. intros. by apply Z.shiftr_div_pow2. Qed.

Lemma land_low a k : 0 <= k → Z.land a (2 ^ k - 1) = a mod 2 ^ k.
Proof.
  intros. rewrite <- Z.land_ones by done. f_equal.
  rewrite Z.ones_equiv. lia.
Qed.

Lemma land_3 a : Z.land a 3 = a mod 4.
Proof. apply (land_low a 2). lia. Qed.
Lemma land_7 a : Z.land a 7 = a mod 8.
Proof. apply (land_low a 3). lia. Qed.
Lemma land_31 a : Z.land a 31 = a mod 32.
Proof. apply (land_low a 5). lia. Qed.
Lemma land_63 a : Z.land a 63 = a mod 64.
Proof. apply (land_low a 6). lia. Qed.
Lemma land_255 a : Z.land a 255 = a mod 256.
Proof. apply (land_low a 8). lia. Qed.

(** [a & 2^k] isolates bit [k]. *)
Lemma land_bit a k : 0 <= k → Z.land a (2 ^ k) = (a / 2 ^ k) mod 2 * 2 ^ k.
Proof.
  intros Hk. rewrite <- Z.testbit_spec' by done.
  apply Z.bits_inj'. intros n Hn.
  rewrite Z.land_spec, Z.pow2_bits_eqb by done.
  destruct (Z.testbit a k) eqn:Ea; simpl Z.b2z.
  - rewrite Z.mul_1_l, Z.pow2_bits_eqb by done.
    destruct (Z.eqb_spec k n) as [->|Hne].
    + by rewrite Ea.
    + by rewrite andb_false_r.
  - rewrite Z.mul_0_l, Z.bits_0.
    destruct (Z.eqb_spec k n) as [->|Hne].
    + by rewrite Ea.
    + by rewrite andb_false_r.
Qed.

Ltac bits :=
  repeat first
    [ rewrite land_3 | rewrite land_7 | rewrite land_31 | rewrite land_63
    | rewrite land_255
    | rewrite shiftl_mul by lia | rewrite shiftr_div by lia ].

Ltac dlia := Z.div_mod_to_equations; lia.


(** An or of bit fields that do not overlap is their sum. *)
Lemma lor_add_low a b n :
  0 <= n → 0 <= b < 2 ^ n → Z.lor (a * 2 ^ n) b = a * 2 ^ n + b.
Proof.
  intros Hn Hb.
  assert (Hland : Z.land (a * 2 ^ n) b = 0).
  { apply Z.bits_inj'. intros i Hi. rewrite Z.land_spec, Z.bits_0.
    destruct (Z.ltb_spec i n).
    - by rewrite Z.mul_pow2_bits_low by lia.
    - rewrite <- (Z.mod_small b (2 ^ n)) by done.
      rewrite Z.mod_pow2_bits_high by lia. apply andb_false_r. }
  rewrite <- Z.lxor_lor by done. symmetry. by apply Z.add_nocarry_lxor.
Qed.
(** * Decoder safety: no panic, no divergence, a known result kind *)

(** How many passes a state may still take before input is consumed. *)
Definition rank (s : dstate) : Z :=
  match s with
  | stateStart | stateMatchDone => 2
  | stateLiteralRun | stateFirstLiteralRun | stateMatchNext => 1
  | stateMatch | stateEOF => 0
  end.

Lemma rank_range s : 0 <= rank s <= 2.
Proof. destruct s; simpl; lia. Qed.

Section decoder_safety.
Context (src dst0 : list byte).

(** What holds of the decoder's variables at every pass of the loop. *)
Definition dinv (d : dec) : Prop :=
  0 <= d_ip d <= len src ∧ 0 <= d_op d <= len (d_dst d)
  ∧ 0 <= d_lastMOff d ∧ length (d_dst d) = length dst0.

Definition measure (d : dec) : Z :=
  3 * (len src - d_ip d) + rank (d_state d).

(** The three overrun errors, an intact buffer length and a count within
    the buffer. *)
Definition overrun_return (n : Z) (err : option error) (out : list byte)
  : Prop :=
  (err = Some ErrInputOverrun ∨ err = Some ErrOutputOverrun
   ∨ err = Some ErrLookbehindOverrun)
  ∧ length out = length dst0 ∧ 0 <= n <= len out.

(** A continuation keeps the invariant, has consumed the input up to [lo]
    at least and is in a state of rank [r] at most. *)
Definition dgood (lo r : Z) (f : flow) : Prop :=
  match f with
  | Next d' => dinv d' ∧ lo <= d_ip d' ∧ rank (d_state d') <= r
  | Ret n err out => overrun_return n err out
  end.

Definition dsafe (lo r : Z) (m : exec flow) : Prop :=
  ∃ f, m = Val f ∧ dgood lo r f.

Lemma dsafe_weaken lo r lo' r' m :
  lo' <= lo → r <= r' → dsafe lo r m → dsafe lo' r' m.
Proof.
  intros Hlo Hr (f & -> & Hf). exists f. split; [done|].
  destruct f; simpl in *; [|done]. destruct Hf as (? & ? & ?).
  split; [done | lia].
Qed.

Lemma fail_safe d e lo r :
  dinv d → e ≠ ErrCorrupted → dsafe lo r (fail d e).
Proof.
  intros (Hi & Ho & Hl & Hd) He. eexists. split; [done|]. simpl.
  split; [destruct e; auto; done|]. split; [done | lia].
Qed.

Lemma goto_safe d ip s :
  dinv d → 0 <= ip <= len src → dsafe ip (rank s) (goto d ip s).
Proof.
  intros (Hi & Ho & Hl & Hd) Hip. eexists. split; [done|]. simpl.
  unfold dinv. simpl. lia.
Qed.

Lemma literals_safe d ip t next :
  dinv d → 0 <= ip → 0 <= t →
  dsafe (ip + t) (rank next) (literals src d ip t next).
Proof.
  intros Hd Hip Ht. pose proof Hd as (Hi & Ho & Hl & Hlen).
  unfold literals. repeat branch; try by apply fail_safe.
  rewrite copy_literals_spec by lia. sbind.
  eexists. split; [done|]. simpl. unfold dinv; simpl.
  rewrite Z2Nat.id by done.
  assert (Hout : length (take (Z.to_nat (d_op d)) (d_dst d)
            ++ take (Z.to_nat t) (drop (Z.to_nat ip) src)
            ++ drop (Z.to_nat (d_op d) + Z.to_nat t) (d_dst d))
          = length (d_dst d)).
  { rewrite !length_app, !length_take, !length_drop. unfold len in *. lia. }
  unfold len at 2. rewrite Hout. unfold len in *. lia.
Qed.

Lemma lookbehind_safe d ip mOff mLen :
  dinv d → 0 <= ip <= len src → 0 < mOff → 0 <= mLen →
  dsafe ip 2 (lookbehind d ip mOff mLen).
Proof.
  intros Hd Hip Hoff Hlen. pose proof Hd as (Hi & Ho & Hl & Hdl).
  unfold lookbehind. repeat branch; try by apply fail_safe.
  rewrite copy_match_spec by lia. sbind.
  eexists. split; [done|]. simpl. unfold dinv; simpl.
  rewrite Z2Nat.id by done.
  assert (Hout : length (lz_copy (Z.to_nat mLen)
                   (take (Z.to_nat (d_op d)) (d_dst d))
                   (Z.to_nat (d_op d - (d_op d - mOff)))
            ++ drop (Z.to_nat (d_op d) + Z.to_nat mLen) (d_dst d))
          = length (d_dst d)).
  { rewrite length_app, lz_copy_length, length_take, length_drop;
      rewrite ?length_take; unfold len in *; lia. }
  unfold len at 2. rewrite Hout. unfold len in *. lia.
Qed.

Lemma extended_safe d ip t base k r :
  dinv d → 0 <= ip <= len src → 0 <= base →
  (∀ ip' t', ip < ip' <= len src → t <= t' → dsafe ip' r (k ip' t')) →
  dsafe ip r (extended src d ip t base k).
Proof.
  intros Hd Hip Hbase Hk. unfold extended.
  destruct (skip_zeros_spec (length src) src ip t) as (ip' & -> & Hr & _);
    [done | unfold len; lia |]. sbind.
  branch; [by apply fail_safe|].
  do_load src ip' b Hb.
  pose proof (u8_range b).
  eapply dsafe_weaken; [| |apply Hk]; lia.
Qed.

(** A pass that keeps the invariant and decreases the measure, or an
    error return. *)
Definition dstep_ok (d : dec) (m : exec flow) : Prop :=
  ∃ f, m = Val f ∧
    match f with
    | Next d' => dinv d' ∧ measure d' < measure d
    | Ret n err out => overrun_return n err out
    end.

Lemma dsafe_step d lo r m :
  dinv d → 3 * (len src - lo) + r < measure d → dsafe lo r m → dstep_ok d m.
Proof.
  intros Hd Hm (f & -> & Hf). exists f. split; [done|].
  destruct f as [d'|]; simpl in *; [|done].
  destruct Hf as (Hd' & Hlo & Hr). split; [done|]. unfold measure in *. lia.
Qed.

Lemma step_start_ok d :
  dinv d → d_state d = stateStart → dstep_ok d (step_start src d).
Proof.
  intros Hd Hs. pose proof Hd as (Hi & Ho & Hl & Hdl).
  assert (Hm : measure d = 3 * (len src - d_ip d) + 2)
    by (unfold measure; by rewrite Hs).
  unfold step_start. branch.
  { eapply dsafe_step, (fail_safe _ _ (len src + 1) 0); try done. lia. }
  do_load src (d_ip d) b Hb. pose proof (u8_range b).
  repeat branch.
  - eapply dsafe_step, literals_safe; try done; simpl; lia.
  - eapply dsafe_step, literals_safe; try done; simpl; lia.
  - eapply dsafe_step, goto_safe; try done; simpl; lia.
Qed.

Lemma step_literal_run_ok d :
  dinv d → d_state d = stateLiteralRun → dstep_ok d (step_literal_run src d).
Proof.
  intros Hd Hs. pose proof Hd as (Hi & Ho & Hl & Hdl).
  assert (Hm : measure d = 3 * (len src - d_ip d) + 1)
    by (unfold measure; by rewrite Hs).
  unfold step_literal_run. branch.
  { eapply dsafe_step, (fail_safe _ _ (len src + 1) 0); try done. lia. }
  do_load src (d_ip d) b Hb. pose proof (u8_range b).
  repeat branch.
  - eapply dsafe_step, goto_safe; try done; simpl; lia.
  - eapply dsafe_step, (extended_safe _ _ _ _ _ 1); try done; try lia.
    intros ip' t' Hip' Ht'.
    eapply dsafe_weaken, literals_safe; try done; simpl; lia.
  - eapply dsafe_step, literals_safe; try done; simpl; lia.
Qed.

Lemma step_first_literal_run_ok d :
  dinv d → d_state d = stateFirstLiteralRun →
  dstep_ok d (step_first_literal_run src d).
Proof.
  intros Hd Hs. pose proof Hd as (Hi & Ho & Hl & Hdl).
  assert (Hm : measure d = 3 * (len src - d_ip d) + 1)
    by (unfold measure; by rewrite Hs).
  unfold step_first_literal_run. branch.
  { eapply dsafe_step, (fail_safe _ _ (len src + 1) 0); try done. lia. }
  do_load src (d_ip d) b Hb. pose proof (u8_range b).
  repeat branch.
  - eapply dsafe_step, goto_safe; try done; simpl; lia.
  - eapply dsafe_step, (fail_safe _ _ (len src + 1) 0); try done. lia.
  - do_load src (d_ip d + 1) b' Hb'. pose proof (u8_range b').
    eapply dsafe_step, lookbehind_safe; try done; try lia.
    unfold m2MaxOffset. bits. dlia.
Qed.

Lemma match_m2_safe d ip t :
  dinv d → 0 < ip <= len src → 64 <= t →
  dsafe ip 2 (match_m2 src d ip t).
Proof.
  intros Hd Hip Ht. pose proof Hd as (Hi & Ho & Hl & Hdl).
  unfold match_m2. repeat branch; try by apply fail_safe.
  - apply lookbehind_safe; try done; try lia. bits. dlia.
  - do_load src ip b Hb. pose proof (u8_range b).
    eapply dsafe_weaken, lookbehind_safe; try done; try lia; bits; dlia.
Qed.

Lemma match_m3_tail_safe d ip mLen :
  dinv d → 0 < ip <= len src → 0 <= mLen →
  dsafe ip 2 (match_m3_tail src d ip mLen).
Proof.
  intros Hd Hip Ht. pose proof Hd as (Hi & Ho & Hl & Hdl).
  unfold match_m3_tail. branch; [by apply fail_safe|].
  do_load src ip b0 Hb0. do_load src (ip + 1) b1 Hb1.
  pose proof (u8_range b0). pose proof (u8_range b1).
  eapply dsafe_weaken, lookbehind_safe; try done; try lia; bits; dlia.
Qed.

Lemma match_m3_safe d ip t :
  dinv d → 0 < ip <= len src → 0 <= t →
  dsafe ip 2 (match_m3 src d ip t).
Proof.
  intros Hd Hip Ht. unfold match_m3. branch.
  - apply extended_safe; try done; try lia.
    intros ip' t' Hip' Ht'.
    apply match_m3_tail_safe; try done; lia.
  - apply match_m3_tail_safe; try done. bits. dlia.
Qed.

Lemma match_m4_tail_safe d mOff ip mLen :
  dinv d → 0 < ip <= len src → 0 <= mLen → 0 <= mOff →
  dsafe ip 2 (match_m4_tail src d mOff ip mLen).
Proof.
  intros Hd Hip Ht Hoff. pose proof Hd as (Hi & Ho & Hl & Hdl).
  unfold match_m4_tail. branch; [by apply fail_safe|].
  do_load src ip b0 Hb0. do_load src (ip + 1) b1 Hb1.
  pose proof (u8_range b0). pose proof (u8_range b1).
  branch.
  - eapply dsafe_weaken, goto_safe; try done; simpl; lia.
  - eapply dsafe_weaken, lookbehind_safe; try done; try lia.
    unfold m4MaxOffset. bits. dlia.
Qed.

Lemma match_m4_safe d ip t :
  dinv d → 0 < ip <= len src → 0 <= t →
  dsafe ip 2 (match_m4 src d ip t).
Proof.
  intros Hd Hip Ht.
  assert (0 <= Z.shiftl (Z.land t 8) 11).
  { apply Z.shiftl_nonneg, Z.land_nonneg. lia. }
  unfold match_m4. branch.
  - apply extended_safe; try done; try lia.
    intros ip' t' Hip' Ht'.
    apply match_m4_tail_safe; try done; lia.
  - apply match_m4_tail_safe; try done. bits. dlia.
Qed.

Lemma match_m1_safe d ip t :
  dinv d → 0 < ip <= len src → 0 <= t →
  dsafe ip 2 (match_m1 src d ip t).
Proof.
  intros Hd Hip Ht. pose proof Hd as (Hi & Ho & Hl & Hdl).
  unfold match_m1. branch; [by apply fail_safe|].
  do_load src ip b Hb. pose proof (u8_range b).
  eapply dsafe_weaken, lookbehind_safe; try done; try lia; bits; dlia.
Qed.

Lemma step_match_ok d :
  dinv d → d_state d = stateMatch → dstep_ok d (step_match src d).
Proof.
  intros Hd Hs. pose proof Hd as (Hi & Ho & Hl & Hdl).
  assert (Hm : measure d = 3 * (len src - d_ip d))
    by (unfold measure; rewrite Hs; simpl; lia).
  unfold step_match. branch.
  { eapply dsafe_step, (fail_safe _ _ (len src + 1) 0); try done. lia. }
  do_load src (d_ip d) b Hb. pose proof (u8_range b).
  repeat branch.
  - eapply dsafe_step, match_m2_safe; try done; lia.
  - eapply dsafe_step, match_m3_safe; try done; lia.
  - eapply dsafe_step, match_m4_safe; try done; lia.
  - eapply dsafe_step, match_m1_safe; try done; lia.
Qed.

Lemma step_match_done_ok d :
  dinv d → d_state d = stateMatchDone → dstep_ok d (step_match_done src d).
Proof.
  intros Hd Hs. pose proof Hd as (Hi & Ho & Hl & Hdl).
  assert (Hm : measure d = 3 * (len src - d_ip d) + 2)
    by (unfold measure; by rewrite Hs).
  unfold step_match_done.
  destruct ((d_ip d =? 0) || (len src <? d_ip d)) eqn:E.
  { eapply dsafe_step, goto_safe; try done; simpl; lia. }
  cmp. do_load src (d_ip d - 1) b Hb. pose proof (u8_range b).
  branch.
  - eapply dsafe_step, goto_safe; try done; simpl; lia.
  - eapply dsafe_step, literals_safe; try done; try lia.
    + simpl. revert E. bits. intros. dlia.
    + bits. dlia.
Qed.

Lemma step_ok d :
  dinv d → d_state d ≠ stateEOF → dstep_ok d (step src d).
Proof.
  intros Hd Hs. unfold step. destruct (d_state d) eqn:E; try done.
  - by apply step_start_ok.
  - by apply step_literal_run_ok.
  - by apply step_first_literal_run_ok.
  - by apply step_match_ok.
  - by apply step_match_done_ok.
  - destruct Hd as (? & ? & ? & ?).
    eapply dsafe_step, goto_safe; try done; unfold measure;
      rewrite ?E; simpl; lia.
Qed.

(** The four result kinds of [Decompress], with the buffer length kept. *)
Definition decoder_result (r : Z * option error * list byte) : Prop :=
  let '(n, err, out) := r in
  (err = None ∨ err = Some ErrInputOverrun ∨ err = Some ErrOutputOverrun
   ∨ err = Some ErrLookbehindOverrun)
  ∧ length out = length dst0 ∧ 0 <= n <= len out.

Lemma run_safe fuel d :
  dinv d → measure d < Z.of_nat fuel →
  ∃ r, run fuel src d = Val r ∧ decoder_result r.
Proof.
  revert d. induction fuel as [|fuel IH]; intros d Hd Hm.
  - pose proof (rank_range (d_state d)). destruct Hd as (? & ?).
    unfold measure in Hm. lia.
  - cbn [run]. destruct (decide (d_state d = stateEOF)) as [He|He].
    + eexists. split; [done|]. destruct Hd as (? & ? & ? & ?).
      simpl. auto.
    + destruct (step_ok d Hd He) as (f & -> & Hf). sbind.
      destruct f as [d'|n err out].
      * destruct Hf as [Hd' Hlt]. apply IH; [done | lia].
      * eexists. split; [done|]. destruct Hf as (He' & ? & ?).
        simpl. split; [tauto | done].
Qed.
End decoder_safety.

(** * The match opcodes of the decoder *)

(** The state a successful lookbehind copy leaves. *)
Definition copied (d : dec) (ip mOff mLen : Z) : dec :=
  Dec ip (d_op d + mLen) mOff stateMatchDone
    (lz_copy (Z.to_nat mLen) (take (Z.to_nat (d_op d)) (d_dst d)) (Z.to_nat mOff)
       ++ drop (Z.to_nat (d_op d + mLen)) (d_dst d)).

Lemma lookbehind_spec d ip mOff mLen :
  0 <= d_op d → 0 < mOff → 0 <= mLen →
  lookbehind d ip mOff mLen =
    if d_op d <? mOff then fail d ErrLookbehindOverrun
    else if len (d_dst d) <? d_op d + mLen then fail d ErrOutputOverrun
    else Val (Next (copied d ip mOff mLen)).
Proof.
  intros Ho Hoff Hlen. unfold lookbehind. repeat branch; try done.
  rewrite copy_match_spec by lia. sbind. unfold copied.
  rewrite Z2Nat.id by done. do 4 f_equal; [f_equal; lia|].
  f_equal. lia.
Qed.

(** The copy length an M2 tag encodes. *)
Definition m2_length (t : Z) : Z := (Z.shiftr t 5 - 1) + 2.

Lemma m2_length_range t : 64 <= t < 256 → 3 <= m2_length t <= 8.
Proof. intros. unfold m2_length. bits. dlia. Qed.

Lemma step_m2_reuse src d b :
  0 <= d_op d → 0 <= d_lastMOff d →
  d_state d = stateMatch → load src (d_ip d) = Val b →
  64 <= u8 b → 0x1c <= Z.land (u8 b) 0x1f →
  step src d =
    if d_lastMOff d =? 0 then fail d ErrLookbehindOverrun
    else if d_op d <? d_lastMOff d then fail d ErrLookbehindOverrun
    else if len (d_dst d) <? d_op d + m2_length (u8 b) then fail d ErrOutputOverrun
    else Val (Next (copied d (d_ip d + 1) (d_lastMOff d) (m2_length (u8 b)))).
Proof.
  intros Ho Hl Hs Hb Ht Hoff. pose proof (u8_range b).
  pose proof (m2_length_range (u8 b)).
  apply load_Val in Hb as Hb'. destruct Hb' as [Hip Hlk].
  apply lookup_lt_Some in Hlk.
  unfold step. rewrite Hs. unfold step_match.
  branch; [unfold len in *; lia|]. rewrite Hb. sbind.
  branch; [|lia]. unfold match_m2. fold (m2_length (u8 b)).
  branch; [|lia]. branch; [done|].
  apply lookbehind_spec; lia.
Qed.

Lemma step_m2_fresh src d b :
  0 <= d_op d →
  d_state d = stateMatch → load src (d_ip d) = Val b →
  64 <= u8 b → Z.land (u8 b) 0x1f < 0x1c →
  step src d =
    if len src <=? d_ip d + 1 then fail d ErrInputOverrun
    else
      b' ← load src (d_ip d + 1);
      let mOff := 1 + Z.shiftl (Z.land (u8 b) 0x1f) 6 + Z.shiftr (u8 b') 2 in
      if d_op d <? mOff then fail d ErrLookbehindOverrun
      else if len (d_dst d) <? d_op d + m2_length (u8 b)
      then fail d ErrOutputOverrun
      else Val (Next (copied d (d_ip d + 2) mOff (m2_length (u8 b)))).
Proof.
  intros Ho Hs Hb Ht Hoff. pose proof (u8_range b).
  pose proof (m2_length_range (u8 b)).
  apply load_Val in Hb as Hb'. destruct Hb' as [Hip Hlk].
  apply lookup_lt_Some in Hlk.
  unfold step. rewrite Hs. unfold step_match.
  branch; [unfold len in *; lia|]. rewrite Hb. sbind.
  branch; [|lia]. unfold match_m2. fold (m2_length (u8 b)).
  branch; [lia|]. branch; [done|].
  do_load src (d_ip d + 1) b' Hb'. pose proof (u8_range b').
  replace (d_ip d + 1 + 1) with (d_ip d + 2) by lia.
  apply lookbehind_spec; try lia.
  revert Hoff. bits. intros. dlia.
Qed.

(** The state a successful literal copy leaves. *)
Definition appended (src : list byte) (d : dec) (ip t : Z) (next : dstate) : dec :=
  Dec (ip + t) (d_op d + t) (d_lastMOff d) next
    (take (Z.to_nat (d_op d)) (d_dst d)
       ++ take (Z.to_nat t) (drop (Z.to_nat ip) src)
       ++ drop (Z.to_nat (d_op d + t)) (d_dst d)).

Lemma literals_spec src d ip t next :
  0 <= d_op d → 0 <= ip → 0 <= t →
  literals src d ip t next =
    if len (d_dst d) <? d_op d + t then fail d ErrOutputOverrun
    else if len src <? ip + t then fail d ErrInputOverrun
    else Val (Next (appended src d ip t next)).
Proof.
  intros Ho Hip Ht. unfold literals. repeat branch; try done.
  rewrite copy_literals_spec by lia. sbind. unfold appended.
  rewrite Z2Nat.id by done. do 6 f_equal. lia.
Qed.

Lemma step_match_done_spec src d b :
  0 <= d_op d → d_state d = stateMatchDone →
  load src (d_ip d - 1) = Val b → d_ip d <= len src →
  step src d =
    let t := Z.land (u8 b) 3 in
    if t =? 0 then goto d (d_ip d) stateLiteralRun
    else literals src d (d_ip d) t stateMatchNext.
Proof.
  intros Ho Hs Hb Hip. apply load_Val in Hb as Hb'. destruct Hb' as [Hip' _].
  unfold step. rewrite Hs. unfold step_match_done.
  destruct ((d_ip d =? 0) || (len src <? d_ip d)) eqn:E.
  { apply orb_true_iff in E. destruct E; cmp; lia. }
  rewrite Hb. sbind. done.
Qed.

(** * Runs of the decoder *)

(** One pass of the loop from a state other than [stateEOF]. *)
Definition dstep (src : list byte) (d d' : dec) : Prop :=
  d_state d ≠ stateEOF ∧ step src d = Val (Next d').

(** The states the loop passes through. *)
Definition reach (src : list byte) : relation dec := rtc (dstep src).

Lemma run_dstep src d d' fuel :
  dstep src d d' → run (S fuel) src d = run fuel src d'.
Proof.
  intros [Hs Hstep]. cbn [run].
  destruct (decide (d_state d = stateEOF)) as [?He|?He]; [done|]. by rewrite Hstep.
Qed.

Lemma run_more src d fuel r :
  run fuel src d = Val r → run (S fuel) src d = Val r.
Proof.
  revert d. induction fuel as [|fuel IH]; intros d.
  - cbn [run]. destruct (decide (d_state d = stateEOF)) as [?He|?He]; done.
  - intros H. cbn [run] in H |- *.
    destruct (decide (d_state d = stateEOF)) as [?He|?He]; [done|].
    destruct (step src d) as [[d'|n err out]| |]; try done.
    sbind. sbind in H. by apply IH.
Qed.

Lemma run_mono src d fuel fuel' r :
  run fuel src d = Val r → (fuel <= fuel')%nat → run fuel' src d = Val r.
Proof.
  intros H Hle. induction Hle; [done|]. by apply run_more.
Qed.

Lemma run_reach src d d' fuel r :
  reach src d d' → run fuel src d' = Val r → ∃ fuel', run fuel' src d = Val r.
Proof.
  intros Hr. revert fuel. induction Hr as [d|d d1 d' Hstep _ IH]; intros fuel H.
  - eauto.
  - destruct (IH fuel H) as [fuel' Hf]. exists (S fuel').
    by rewrite (run_dstep _ _ _ _ Hstep).
Qed.

Lemma run_reach_inv src d d' fuel r :
  reach src d d' → run fuel src d = Val r → ∃ fuel', run fuel' src d' = Val r.
Proof.
  intros Hr. revert fuel. induction Hr as [d|d d1 d' Hstep _ IH]; intros fuel H.
  - eauto.
  - destruct fuel as [|fuel].
    + destruct Hstep as [Hs _]. cbn [run] in H.
      destruct (decide (d_state d = stateEOF)) as [?He|?He]; done.
    + rewrite (run_dstep _ _ _ _ Hstep) in H. eauto.
Qed.

(** A result obtained with some fuel is the result of [Decompress]. *)
Lemma Decompress_run src dst fuel r :
  src ≠ [] → run fuel src (Dec 0 0 0 stateStart dst) = Val r →
  Decompress src dst = Val r.
Proof.
  intros Hne Hrun. unfold Decompress.
  branch; [destruct src; [done | unfold len in *; simpl in *; lia]|].
  destruct (run_safe src dst (decompress_fuel src) (Dec 0 0 0 stateStart dst))
    as (r' & Hr' & _).
  - unfold dinv. simpl. pose proof (len_nonneg src).
    pose proof (len_nonneg dst). lia.
  - unfold measure, decompress_fuel, len. simpl. lia.
  - rewrite Hr'. f_equal.
    pose proof (run_mono _ _ _ (Nat.max fuel (decompress_fuel src)) _ Hrun
                  ltac:(lia)) as H1.
    pose proof (run_mono _ _ _ (Nat.max fuel (decompress_fuel src)) _ Hr'
                  ltac:(lia)) as H2.
    congruence.
Qed.

(** ** What a pass can return *)

(** [m], if it yields a flow, yields one that satisfies [P]. *)
Definition flow_sat (P : flow → Prop) (m : exec flow) : Prop :=
  ∀ f, m = Val f → P f.

Lemma fail_sat P d e :
  P (Ret (d_op d) (Some e) (d_dst d)) → flow_sat P (fail d e).
Proof. intros H f [= <-]. done. Qed.

Lemma goto_sat P d ip s :
  P (Next (Dec ip (d_op d) (d_lastMOff d) s (d_dst d))) →
  flow_sat P (goto d ip s).
Proof. intros H f [= <-]. done. Qed.

Lemma literals_sat P src d ip t next :
  (∀ e, P (Ret (d_op d) (Some e) (d_dst d))) →
  (∀ ip' op' dst', P (Next (Dec ip' op' (d_lastMOff d) next dst'))) →
  flow_sat P (literals src d ip t next).
Proof.
  intros Hf Hn. unfold literals. repeat branch; try by apply fail_sat.
  destruct (copy_literals _ _ _ _ _) as [[[ip' op'] dst']| |]; try done.
  sbind. intros f [= <-]. done.
Qed.

Lemma lookbehind_sat P d ip mOff mLen :
  (∀ e, P (Ret (d_op d) (Some e) (d_dst d))) →
  (∀ op' dst', P (Next (Dec ip op' mOff stateMatchDone dst'))) →
  flow_sat P (lookbehind d ip mOff mLen).
Proof.
  intros Hf Hn. unfold lookbehind. repeat branch; try by apply fail_sat.
  destruct (copy_match _ _ _ _) as [[op' dst']| |]; try done.
  sbind. intros f [= <-]. done.
Qed.

Lemma extended_sat P src d ip t base k :
  (∀ e, P (Ret (d_op d) (Some e) (d_dst d))) →
  (∀ ip' t', flow_sat P (k ip' t')) →
  flow_sat P (extended src d ip t base k).
Proof.
  intros Hf Hk. unfold extended.
  destruct (skip_zeros _ _ _ _) as [[ip' t']| |]; try done. sbind.
  branch; [by apply fail_sat|].
  destruct (load src ip') as [b| |]; try done. sbind. apply Hk.
Qed.

Lemma bind_load_sat P (src : list byte) i (k : byte → exec flow) :
  (∀ b, load src i = Val b → flow_sat P (k b)) →
  flow_sat P (b ← load src i; k b).
Proof.
  intros H. destruct (load src i) as [b| |] eqn:E; try done. sbind. by apply H.
Qed.

(** The EOF marker: an M4 tag whose decoded offset, high bit included, is
    zero; [d] is the state before the opcode and [d'] the state after. *)
Definition eof_opcode (src : list byte) (d d' : dec) : Prop :=
  ∃ t b0 b1,
    load src (d_ip d) = Val t ∧ 16 <= u8 t < 32
    ∧ load src (d_ip d' - 2) = Val b0 ∧ load src (d_ip d' - 1) = Val b1
    ∧ Z.shiftl (Z.land (u8 t) 8) 11
      + (Z.shiftl (u8 b0) 6 + Z.shiftr (u8 b1) 2) = 0.

(** Error returns carry an error, and only the EOF marker leads to
    [stateEOF]. *)
Definition eof_rule (src : list byte) (d : dec) (f : flow) : Prop :=
  match f with
  | Ret n err out => err ≠ None
  | Next d' =>
      d_state d' = stateEOF →
      d_state d = stateMatch ∧ eof_opcode src d d'
      ∧ d_op d' = d_op d ∧ d_dst d' = d_dst d
  end.

Lemma step_eof_rule src d :
  d_state d ≠ stateEOF → flow_sat (eof_rule src d) (step src d).
Proof.
  intros Hs.
  assert (Hfail : ∀ e, eof_rule src d (Ret (d_op d) (Some e) (d_dst d)))
    by done.
  assert (Hf : ∀ e, flow_sat (eof_rule src d) (fail d e))
    by (intros; by apply fail_sat).
  assert (Hlit : ∀ ip t next, next ≠ stateEOF →
            flow_sat (eof_rule src d) (literals src d ip t next)).
  { intros. apply literals_sat; [done|]. intros ip' op' dst' He. done. }
  assert (Hlb : ∀ ip mOff mLen,
            flow_sat (eof_rule src d) (lookbehind d ip mOff mLen)).
  { intros. apply lookbehind_sat; [done|]. intros op' dst' He. done. }
  assert (Hgo : ∀ ip s, s ≠ stateEOF →
            flow_sat (eof_rule src d) (goto d ip s)).
  { intros. apply goto_sat. intros He. done. }
  unfold step. destruct (d_state d) eqn:Est; try done.
  - unfold step_start. branch; [by apply fail_sat|].
    apply bind_load_sat. intros b Hb. repeat branch; auto.
  - unfold step_literal_run. branch; [by apply fail_sat|].
    apply bind_load_sat. intros b Hb. repeat branch; auto.
    apply extended_sat; [done|]. intros. by apply Hlit.
  - unfold step_first_literal_run. branch; [by apply fail_sat|].
    apply bind_load_sat. intros b Hb. repeat branch; auto.
    apply bind_load_sat. intros b' Hb'. auto.
  - unfold step_match. branch; [by apply fail_sat|].
    apply bind_load_sat. intros b Hb. repeat branch.
    + unfold match_m2. repeat branch; auto.
      apply bind_load_sat. intros b' Hb'. auto.
    + assert (Htail : ∀ ip mLen,
                flow_sat (eof_rule src d) (match_m3_tail src d ip mLen)).
      { intros. unfold match_m3_tail. branch; [by apply fail_sat|].
        apply bind_load_sat. intros b0 Hb0.
        apply bind_load_sat. intros b1 Hb1. auto. }
      unfold match_m3. branch; [|done]. by apply extended_sat.
    + assert (Htail : ∀ ip mLen,
                flow_sat (eof_rule src d)
                  (match_m4_tail src d (Z.shiftl (Z.land (u8 b) 8) 11) ip mLen)).
      { intros. unfold match_m4_tail. branch; [by apply fail_sat|].
        apply bind_load_sat. intros b0 Hb0.
        apply bind_load_sat. intros b1 Hb1. branch; [|done].
        apply goto_sat. intros _. simpl. split; [done|]. split; [|done].
        exists b, b0, b1. simpl.
        replace (ip + 2 - 2) with ip by lia.
        replace (ip + 2 - 1) with (ip + 1) by lia.
        repeat split; try done; lia. }
      unfold match_m4. branch; [|done]. by apply extended_sat.
    + unfold match_m1. branch; [by apply fail_sat|].
      apply bind_load_sat. intros b' Hb'. auto.
  - unfold step_match_done. repeat branch; auto.
    apply bind_load_sat. intros b Hb. repeat branch; auto.
  - auto.
Qed.

Lemma run_success_eof src fuel d n out :
  d_state d ≠ stateEOF → run fuel src d = Val (n, None, out) →
  ∃ d1 d2, reach src d d1 ∧ dstep src d1 d2
    ∧ d_state d1 = stateMatch ∧ d_state d2 = stateEOF ∧ eof_opcode src d1 d2
    ∧ n = d_op d2 ∧ out = d_dst d2.
Proof.
  revert d. induction fuel as [|fuel IH]; intros d Hs Hrun; cbn [run] in Hrun;
    destruct (decide (d_state d = stateEOF)) as [?He|?He]; try done.
  destruct (step src d) as [[d'|n' err out']| |] eqn:Hstep; try done;
    sbind in Hrun.
  - destruct (decide (d_state d' = stateEOF)) as [He'|He'].
    + pose proof (step_eof_rule src d Hs _ Hstep He') as (Hm & Heof & _).
      destruct fuel; cbn [run] in Hrun;
        (destruct (decide (d_state d' = stateEOF)) as [?He|?He]; [|done]);
        injection Hrun as <- <-;
        exists d, d'; (split; [apply rtc_refl|]); done.
    + destruct (IH d' He' Hrun) as (d1 & d2 & Hr & Hrest).
      exists d1, d2. split; [|done]. eapply rtc_l; [|done]. done.
  - injection Hrun as -> -> ->.
    by pose proof (step_eof_rule src d Hs _ Hstep).
Qed.

(** ** The end of the input *)

Lemma step_at_end src d :
  len src <= d_ip d →
  d_state d = stateStart ∨ d_state d = stateLiteralRun
  ∨ d_state d = stateFirstLiteralRun ∨ d_state d = stateMatch →
  step src d = fail d ErrInputOverrun.
Proof.
  intros Hip Hs. unfold step.
  destruct Hs as [-> | [-> | [-> | ->]]];
    [unfold step_start | unfold step_literal_run
    | unfold step_first_literal_run | unfold step_match];
    (branch; [done | lia]).
Qed.

Lemma run_at_end src d fuel n err out :
  len src <= d_ip d → d_state d ≠ stateEOF →
  run fuel src d = Val (n, err, out) →
  (err = Some ErrInputOverrun
   ∨ (err = Some ErrOutputOverrun ∧ d_state d = stateMatchDone
      ∧ ∃ b, load src (d_ip d - 1) = Val b ∧ Z.land (u8 b) 3 ≠ 0
             ∧ len (d_dst d) < d_op d + Z.land (u8 b) 3))
  ∧ n = d_op d ∧ out = d_dst d.
Proof.
  intros Hip Hs Hrun.
  assert (Himm : ∀ d fuel, len src <= d_ip d →
            d_state d = stateStart ∨ d_state d = stateLiteralRun
            ∨ d_state d = stateFirstLiteralRun ∨ d_state d = stateMatch →
            run fuel src d = Val (n, err, out) →
            err = Some ErrInputOverrun ∧ n = d_op d ∧ out = d_dst d).
  { clear. intros d fuel Hip Hs Hrun.
    assert (d_state d ≠ stateEOF) by (destruct Hs as [?|[?|[?|?]]]; congruence).
    destruct fuel; cbn [run] in Hrun;
      (destruct (decide (d_state d = stateEOF)) as [?He|?He]; [done|]); [done|].
    rewrite step_at_end in Hrun by done. by injection Hrun as <- <- <-. }
  assert (Hvia : ∀ fuel s, len src <= d_ip d →
            s = stateLiteralRun ∨ s = stateMatch →
            run fuel src (Dec (d_ip d) (d_op d) (d_lastMOff d) s (d_dst d))
            = Val (n, err, out) →
            err = Some ErrInputOverrun ∧ n = d_op d ∧ out = d_dst d).
  { intros fuel' s Hip' Hs' Hrun'.
    apply (Himm _ fuel') in Hrun'; simpl; auto. destruct Hs'; auto. }
  destruct fuel; cbn [run] in Hrun;
    (destruct (decide (d_state d = stateEOF)) as [?He|?He]; [done|]); [done|].
  destruct (d_state d) eqn:Est; try done;
    try (rewrite step_at_end in Hrun by (rewrite ?Est; auto);
         injection Hrun as <- <- <-; auto).
  - unfold step in Hrun. rewrite Est in Hrun. unfold step_match_done in Hrun.
    revert Hrun. branch.
    { unfold goto. sbind. intros Hrun. apply Hvia in Hrun; auto. tauto. }
    destruct (load src (d_ip d - 1)) as [b| |] eqn:Hb; try done. sbind.
    branch.
    { unfold goto. sbind. intros Hrun. apply Hvia in Hrun; auto. tauto. }
    unfold literals. branch.
    { intros [= <- <- <-]. split; [|done]. right. eauto 10. }
    assert (0 <= Z.land (u8 b) 3) by (apply Z.land_nonneg; lia).
    branch; [intros [= <- <- <-]; auto|]. lia.
  - unfold step in Hrun. rewrite Est in Hrun. unfold goto in Hrun.
    sbind in Hrun. apply Hvia in Hrun; auto. tauto.
Qed.

(** * The emitters in closed form *)

(** [splice dst op bs]: the buffer [dst] with [bs] written from index [op]. *)
Definition splice (dst : list byte) (op : nat) (bs : list byte) : list byte :=
  take op dst ++ bs ++ drop (op + length bs) dst.

Lemma splice_length dst op bs :
  (op + length bs <= length dst)%nat → length (splice dst op bs) = length dst.
Proof.
  intros H. unfold splice.
  rewrite !length_app, length_take, length_drop. lia.
Qed.

Lemma splice_nil dst op : splice dst op [] = dst.
Proof. unfold splice. simpl. by rewrite Nat.add_0_r, take_drop. Qed.

Lemma splice_take dst op bs :
  (op <= length dst)%nat →
  take (op + length bs) (splice dst op bs) = take op dst ++ bs.
Proof.
  intros H. unfold splice. rewrite app_assoc.
  apply take_app_length'. rewrite length_app, length_take. lia.
Qed.

Lemma splice_drop dst op bs :
  (op <= length dst)%nat →
  drop (op + length bs) (splice dst op bs) = drop (op + length bs) dst.
Proof.
  intros H. unfold splice. rewrite app_assoc.
  apply drop_app_length'. rewrite length_app, length_take. lia.
Qed.

Lemma splice_splice dst op xs ys :
  (op + length xs <= length dst)%nat →
  splice (splice dst op xs) (op + length xs) ys = splice dst op (xs ++ ys).
Proof.
  intros H. unfold splice at 1.
  rewrite splice_take by lia.
  rewrite <- Nat.add_assoc.
  replace (op + (length xs + length ys))%nat
    with ((op + length xs) + length ys)%nat by lia.
  unfold splice.
  rewrite drop_app_ge; rewrite ?length_take; [|lia].
  rewrite drop_app_ge; [|lia].
  rewrite drop_drop, length_app, <- !app_assoc.
  do 3 f_equal. f_equal. lia.
Qed.

Lemma store_splice dst op b :
  0 <= op < len dst →
  store dst op b = Val (splice dst (Z.to_nat op) [b]).
Proof.
  intros H. rewrite store_in by done. f_equal. unfold splice.
  unfold len in H.
  destruct (lookup_lt_is_Some_2 dst (Z.to_nat op)) as [x Hx]; [lia|].
  rewrite <- (take_drop_middle _ _ _ Hx) at 1.
  rewrite insert_app_r_alt; rewrite length_take; [|lia].
  replace (Z.to_nat op - Z.to_nat op `min` length dst)%nat with 0%nat by lia.
  simpl. do 3 f_equal. lia.
Qed.

Lemma copy_at_splice dst op lit :
  0 <= op → op + len lit <= len dst →
  copy_at dst op lit = Val (splice dst (Z.to_nat op) lit).
Proof.
  intros Ho H. unfold copy_at. pose proof (len_nonneg lit).
  repeat branch; try lia. f_equal. unfold splice. unfold len in *.
  replace (Nat.min (length dst - Z.to_nat op) (length lit)) with (length lit)
    by lia.
  by rewrite firstn_all.
Qed.

(** The successor bytes of an extended length [r >= 1]: a zero byte for each
    full 255 and a final non-zero byte. *)
Definition ext_bytes (r : Z) : list byte :=
  replicate (Z.to_nat ((r - 1) / 255)) x00
    ++ [to_byte (r - 255 * ((r - 1) / 255))].

Lemma ext_bytes_small r : 1 <= r <= 255 → ext_bytes r = [to_byte r].
Proof.
  intros H. unfold ext_bytes.
  replace ((r - 1) / 255) with 0 by (symmetry; apply Z.div_small; lia).
  simpl. do 2 f_equal. lia.
Qed.

Lemma ext_bytes_large r : 255 < r → ext_bytes r = x00 :: ext_bytes (r - 255).
Proof.
  intros H. unfold ext_bytes.
  replace ((r - 1) / 255) with ((r - 255 - 1) / 255 + 1)
    by (Z.div_mod_to_equations; lia).
  rewrite Z2Nat.inj_add by (try apply Z.div_pos; lia).
  rewrite Nat.add_comm. simpl. do 4 f_equal. lia.
Qed.

Lemma ext_bytes_length r :
  1 <= r → len (ext_bytes r) = (r - 1) / 255 + 1.
Proof.
  intros H. unfold ext_bytes, len.
  rewrite length_app, length_replicate. simpl.
  assert (0 <= (r - 1) / 255) by (apply Z.div_pos; lia). lia.
Qed.

Lemma emit_ext_checked_spec fuel dst op r k :
  1 <= r → 0 <= op → op + len (ext_bytes r) <= len dst →
  (r - 1) / 255 <= Z.of_nat fuel →
  emit_ext_checked fuel dst op r k
  = k (op + len (ext_bytes r)) (splice dst (Z.to_nat op) (ext_bytes r)).
Proof.
  revert dst op r. induction fuel as [|fuel IH]; intros dst op r Hr Ho Hroom Hf;
    cbn [emit_ext_checked]; pose proof (ext_bytes_length r Hr) as Hl.
  - assert (r <= 255) by (Z.div_mod_to_equations; lia).
    branch; [lia|]. rewrite ext_bytes_small in * by lia.
    change (len [to_byte r]) with 1 in *.
    branch; [lia|].
    rewrite store_splice by lia. sbind. done.
  - branch.
    + rewrite ext_bytes_large in * by done.
      assert (Hl' := ext_bytes_length (r - 255) ltac:(lia)).
      pose proof (len_nonneg (ext_bytes (r - 255))).
      change (x00 :: ext_bytes (r - 255))
        with ([x00] ++ ext_bytes (r - 255)) in *.
      rewrite len_app in *. change (len [x00]) with 1 in *.
      branch; [lia|]. rewrite store_splice by lia. sbind.
      rewrite IH; try lia.
      * f_equal; [lia|]. replace (Z.to_nat (op + 1))
          with (Z.to_nat op + length [x00])%nat by (simpl; lia).
        apply splice_splice. unfold len in *. simpl. lia.
      * unfold len. rewrite splice_length; unfold len in *; simpl; lia.
    + rewrite ext_bytes_small in * by lia.
      change (len [to_byte r]) with 1 in *.
      branch; [lia|].
      rewrite store_splice by lia. sbind. done.
Qed.

Lemma emit_ext_spec fuel dst op r :
  1 <= r → 0 <= op → op + len (ext_bytes r) <= len dst →
  (r - 1) / 255 <= Z.of_nat fuel →
  emit_ext fuel dst op r
  = Val (op + len (ext_bytes r), splice dst (Z.to_nat op) (ext_bytes r)).
Proof.
  revert dst op r. induction fuel as [|fuel IH]; intros dst op r Hr Ho Hroom Hf;
    cbn [emit_ext]; pose proof (ext_bytes_length r Hr) as Hl.
  - assert (r <= 255) by (Z.div_mod_to_equations; lia).
    branch; [lia|]. rewrite ext_bytes_small in * by lia.
    change (len [to_byte r]) with 1 in *. rewrite store_splice by lia.
    sbind. done.
  - branch.
    + rewrite ext_bytes_large in * by done.
      assert (Hl' := ext_bytes_length (r - 255) ltac:(lia)).
      pose proof (len_nonneg (ext_bytes (r - 255))).
      change (x00 :: ext_bytes (r - 255))
        with ([x00] ++ ext_bytes (r - 255)) in *.
      rewrite len_app in *. change (len [x00]) with 1 in *.
      rewrite store_splice by lia. sbind.
      rewrite IH; try lia.
      * do 2 f_equal; [lia|]. replace (Z.to_nat (op + 1))
          with (Z.to_nat op + length [x00])%nat by (simpl; lia).
        apply splice_splice. unfold len in *. simpl. lia.
      * unfold len. rewrite splice_length; unfold len in *; simpl; lia.
    + rewrite ext_bytes_small in * by lia.
      change (len [to_byte r]) with 1 in *. rewrite store_splice by lia.
      sbind. done.
Qed.

(** ** Writing a prefix of the buffer byte by byte *)

Lemma splice0_length dst bs :
  len bs <= len dst → len (splice dst 0 bs) = len dst.
Proof. intros H. unfold len in *. rewrite splice_length; simpl; lia. Qed.

Lemma store_next dst bs op b :
  op = len bs → op < len dst →
  store (splice dst 0 bs) op b = Val (splice dst 0 (bs ++ [b])).
Proof.
  intros -> H. pose proof (len_nonneg bs).
  rewrite store_splice by (rewrite splice0_length; lia).
  f_equal. unfold len. rewrite Nat2Z.id.
  apply (splice_splice dst 0 bs [b]). unfold len in *. simpl. lia.
Qed.

Lemma store_first dst b :
  0 < len dst → store dst 0 b = Val (splice dst 0 [b]).
Proof.
  intros H. rewrite <- (splice_nil dst 0) at 1.
  by rewrite (store_next dst [] 0 b).
Qed.

Lemma emit_ext_next fuel dst bs op r :
  op = len bs → 1 <= r → op + len (ext_bytes r) <= len dst →
  (r - 1) / 255 <= Z.of_nat fuel →
  emit_ext fuel (splice dst 0 bs) op r
  = Val (len (bs ++ ext_bytes r), splice dst 0 (bs ++ ext_bytes r)).
Proof.
  intros -> Hr Hroom Hf. pose proof (len_nonneg bs).
  pose proof (len_nonneg (ext_bytes r)).
  rewrite emit_ext_spec; try done; [|rewrite splice0_length; lia].
  rewrite len_app. do 2 f_equal. unfold len at 1. rewrite Nat2Z.id.
  apply (splice_splice dst 0 bs). unfold len in *. simpl. lia.
Qed.

Lemma emit_ext_checked_next fuel dst bs op r k :
  op = len bs → 1 <= r → op + len (ext_bytes r) <= len dst →
  (r - 1) / 255 <= Z.of_nat fuel →
  emit_ext_checked fuel (splice dst 0 bs) op r k
  = k (len (bs ++ ext_bytes r)) (splice dst 0 (bs ++ ext_bytes r)).
Proof.
  intros -> Hr Hroom Hf. pose proof (len_nonneg bs).
  pose proof (len_nonneg (ext_bytes r)).
  rewrite emit_ext_checked_spec; try done; [|rewrite splice0_length; lia].
  rewrite len_app. f_equal. unfold len at 1. rewrite Nat2Z.id.
  apply (splice_splice dst 0 bs). unfold len in *. simpl. lia.
Qed.

Lemma emit_payload_next dst bs op lit :
  op = len bs → op + len lit <= len dst →
  emit_payload lit op (splice dst 0 bs)
  = Val (len (bs ++ lit), None, splice dst 0 (bs ++ lit)).
Proof.
  intros -> Hroom. pose proof (len_nonneg bs). pose proof (len_nonneg lit).
  unfold emit_payload. rewrite splice0_length by lia.
  branch; [lia|].
  rewrite copy_at_splice; [|lia|rewrite splice0_length; lia]. sbind.
  rewrite len_app. do 2 f_equal. unfold len at 1. rewrite Nat2Z.id.
  apply (splice_splice dst 0 bs). unfold len in *. simpl. lia.
Qed.

Lemma emit_offset_next dst bs op b0 b1 :
  op = len bs → op + 2 <= len dst →
  emit_offset (splice dst 0 bs) op b0 b1
  = Val (len (bs ++ [to_byte b0; to_byte b1]), None,
         splice dst 0 (bs ++ [to_byte b0; to_byte b1])).
Proof.
  intros -> Hroom. unfold emit_offset.
  rewrite (store_next dst bs) by (done || lia). sbind.
  rewrite (store_next dst (bs ++ [to_byte b0]))
    by (rewrite ?len_app; change (len [to_byte b0]) with 1; lia). sbind.
  rewrite <- app_assoc. simpl. do 3 f_equal.
  rewrite !len_app. change (len [to_byte b0; to_byte b1]) with 2. lia.
Qed.

(** ** The bytes of a literal run and of a match *)

Definition lit_header (isFirst : bool) (litLen : Z) : list byte :=
  if isFirst && (litLen <=? 3) then [to_byte (litLen + 17)]
  else if litLen <=? 18 then [to_byte (litLen - 3)]
  else x00 :: ext_bytes (litLen - 18).

Definition enc_literals (lit : list byte) (isFirst : bool) : list byte :=
  lit_header isFirst (len lit) ++ lit.

Definition offset_bytes (off : Z) : list byte :=
  [to_byte (Z.land (Z.shiftr off 6) 0xff);
   to_byte (Z.shiftl (Z.land off 0x3f) 2)].

Definition enc_match (offset length : Z) : list byte :=
  if (3 <=? length) && (length <=? 4) && (1 <=? offset) && (offset <=? 0x700)
  then
    [to_byte (Z.lor (Z.shiftl (length - 1) 5)
                    (Z.land (Z.shiftr (offset - 1) 6) 0x1f));
     to_byte (Z.shiftl (Z.land (offset - 1) 0x3f) 2)]
  else if (3 <=? length) && (1 <=? offset) && (offset <=? 0x4000) then
    (if length <=? 33 then [to_byte (Z.lor 0x20 (length - 2))]
     else to_byte 0x20 :: ext_bytes (length - 2 - 31))
    ++ offset_bytes (offset - 1)
  else if (0x4000 <? offset) && (offset <=? 0xbfff) then
    let off := offset - 0x4000 in
    let offHigh := Z.land (Z.shiftr off 11) 0x08 in
    (if length <=? 9 then [to_byte (Z.lor (Z.lor 0x10 offHigh) (length - 2))]
     else to_byte (Z.lor 0x10 offHigh) :: ext_bytes (length - 2 - 7))
    ++ offset_bytes off
  else [].

Definition encode_event (ev : event) : list byte :=
  match ev with
  | EvLiterals lit isFirst => enc_literals lit isFirst
  | EvMatch offset length => enc_match offset length
  end.

(** The stream a log of emitter calls stands for. *)
Definition encode (log : list event) : list byte :=
  concat (map encode_event log).

Lemma encode_snoc log ev : encode (log ++ [ev]) = encode log ++ encode_event ev.
Proof.
  unfold encode. rewrite map_app, concat_app. simpl. by rewrite app_nil_r.
Qed.

Lemma emitLiterals_spec lit dst isFirst :
  lit ≠ [] → len (enc_literals lit isFirst) <= len dst →
  emitLiterals lit dst isFirst
  = Val (len (enc_literals lit isFirst), None,
         splice dst 0 (enc_literals lit isFirst)).
Proof.
  intros Hne Hroom. unfold emitLiterals, enc_literals, lit_header in *.
  assert (0 < len lit) by (destruct lit; [done | unfold len; simpl; lia]).
  branch; [lia|]. clear E.
  destruct (isFirst && (len lit <=? 238)) eqn:Efirst.
  - cmp. subst isFirst. simpl andb in *. branch.
    + rewrite len_app in Hroom. change (len [_]) with 1 in Hroom.
      branch; [lia|]. rewrite store_first by lia. sbind.
      by apply emit_payload_next.
    + branch.
      * rewrite len_app in Hroom. change (len [_]) with 1 in Hroom.
        branch; [lia|]. rewrite store_first by lia. sbind.
        by apply emit_payload_next.
      * rewrite ext_bytes_small in * by lia.
        rewrite len_app in Hroom. change (len [_; _]) with 2 in Hroom.
        branch; [lia|]. branch; [|lia].
        rewrite store_first by lia. sbind.
        rewrite (store_next dst [x00]) by (done || lia). sbind.
        by apply emit_payload_next.
  - assert (Hhdr : (if isFirst && (len lit <=? 3) then [to_byte (len lit + 17)]
                    else if len lit <=? 18 then [to_byte (len lit - 3)]
                    else x00 :: ext_bytes (len lit - 18))
                   = if len lit <=? 18 then [to_byte (len lit - 3)]
                     else x00 :: ext_bytes (len lit - 18)).
    { destruct isFirst; [|done]. simpl in *. cmp. branch; [lia | done]. }
    rewrite Hhdr in *. clear Hhdr. branch.
    + rewrite len_app in Hroom. change (len [_]) with 1 in Hroom.
      branch; [lia|]. rewrite store_first by lia. sbind.
      by apply emit_payload_next.
    + rewrite len_app in Hroom.
      change (x00 :: ext_bytes (len lit - 18))
        with ([x00] ++ ext_bytes (len lit - 18)) in *.
      rewrite len_app in Hroom. change (len [x00]) with 1 in Hroom.
      pose proof (len_nonneg (ext_bytes (len lit - 18))).
      rewrite store_first by lia. sbind.
      rewrite (emit_ext_checked_next _ dst [x00]); try done; try lia;
        [|dlia].
      apply emit_payload_next; [done|]. rewrite len_app.
      change (len [x00]) with 1. lia.
Qed.

Lemma emitMatch_spec dst offset length :
  3 <= length → 1 <= offset <= maxOffset →
  4 <= len dst → len (enc_match offset length) <= len dst →
  emitMatch dst offset length
  = Val (len (enc_match offset length), None,
         splice dst 0 (enc_match offset length)).
Proof.
  intros Hlen Hoff Hdst Hroom. unfold maxOffset in Hoff.
  unfold emitMatch, enc_match in *. branch; [lia|]. clear E.
  destruct ((3 <=? length) && (length <=? 4) && (1 <=? offset)
            && (offset <=? 0x700)) eqn:E2.
  { rewrite store_first by lia. sbind.
    rewrite (store_next dst [_]) by (done || lia). sbind. done. }
  destruct ((3 <=? length) && (1 <=? offset) && (offset <=? 0x4000)) eqn:E3.
  { unfold offset_bytes in *. branch.
    - rewrite store_first by lia. sbind.
      rewrite (emit_offset_next dst [_]) by (done || lia). done.
    - rewrite len_app in Hroom.
      change (to_byte 32 :: ext_bytes (length - 2 - 31))
        with ([to_byte 32] ++ ext_bytes (length - 2 - 31)) in *.
      rewrite len_app in Hroom. change (len [to_byte 32]) with 1 in Hroom.
      change (len [_; _]) with 2 in Hroom.
      pose proof (len_nonneg (ext_bytes (length - 2 - 31))).
      rewrite store_first by lia. sbind.
      rewrite (emit_ext_next _ dst [_]); try done; try lia; [|dlia]. sbind.
      rewrite emit_offset_next; [done | done |].
      rewrite len_app. change (len [to_byte 32]) with 1. lia. }
  destruct ((0x4000 <? offset) && (offset <=? 0xbfff)) eqn:E4.
  { unfold offset_bytes in *. cbv zeta in *. branch.
    - rewrite store_first by lia. sbind.
      rewrite (emit_offset_next dst [_]) by (done || lia). done.
    - rewrite len_app in Hroom.
      match type of Hroom with
      | context [?t :: ext_bytes ?r] =>
          change (t :: ext_bytes r) with ([t] ++ ext_bytes r) in *;
          rewrite len_app in Hroom; change (len [t]) with 1 in Hroom;
          pose proof (len_nonneg (ext_bytes r))
      end.
      change (len [_; _]) with 2 in Hroom.
      rewrite store_first by lia. sbind.
      rewrite (emit_ext_next _ dst [_]); try done; try lia; [|dlia]. sbind.
      rewrite emit_offset_next; [done | done |].
      rewrite len_app. change (len [_]) with 1. lia. }
  cmp. exfalso.
  apply andb_false_iff in E3, E4.
  destruct E3 as [E3|E3]; [apply andb_false_iff in E3; destruct E3|]; cmp;
    lia.
Qed.

(** The size of what the emitters write. *)
Lemma lit_header_length isFirst litLen :
  1 <= litLen →
  len (lit_header isFirst litLen)
  = if litLen <=? 18 then 1 else 2 + (litLen - 19) / 255.
Proof.
  intros H. unfold lit_header.
  destruct (isFirst && (litLen <=? 3)) eqn:E1; cmp.
  - branch; [done | lia].
  - branch; [done|].
    change (x00 :: ext_bytes (litLen - 18))
      with ([x00] ++ ext_bytes (litLen - 18)).
    rewrite len_app, ext_bytes_length by lia. change (len [x00]) with 1.
    replace (litLen - 18 - 1) with (litLen - 19) by lia. lia.
Qed.

Lemma enc_match_length offset length :
  3 <= length <= 264 → 1 <= offset <= maxOffset →
  2 <= len (enc_match offset length) <= 4
  ∧ (length <= 9 → len (enc_match offset length) <= 3).
Proof.
  intros Hlen Hoff. unfold maxOffset in Hoff. unfold enc_match.
  destruct ((3 <=? length) && (length <=? 4) && (1 <=? offset)
            && (offset <=? 0x700)) eqn:E2.
  { change (len [_; _]) with 2. lia. }
  destruct ((3 <=? length) && (1 <=? offset) && (offset <=? 0x4000)) eqn:E3.
  { rewrite len_app. unfold offset_bytes. change (len [_; _]) with 2. branch.
    - change (len [_]) with 1. lia.
    - rewrite (ext_bytes_small (length - 2 - 31)) by lia.
      change (len [_; _]) with 2. lia. }
  destruct ((0x4000 <? offset) && (offset <=? 0xbfff)) eqn:E4.
  { cbv zeta. rewrite len_app. unfold offset_bytes.
    change (len [_; _]) with 2. branch.
    - change (len [_]) with 1. lia.
    - rewrite (ext_bytes_small (length - 2 - 7)) by lia.
      change (len [_; _]) with 2. lia. }
  exfalso.
  apply andb_false_iff in E3, E4.
  destruct E3 as [E3|E3]; [apply andb_false_iff in E3; destruct E3|]; cmp;
    lia.
Qed.

(** ** The tag of an emitted M2 opcode *)

Lemma m2_tag_bits offset length :
  3 <= length <= 4 → 1 <= offset <= 0x700 →
  let tag := to_byte (Z.lor (Z.shiftl (length - 1) 5)
                            (Z.land (Z.shiftr (offset - 1) 6) 0x1f)) in
  u8 tag = (length - 1) * 32 + (offset - 1) / 64
  ∧ 64 <= u8 tag
  ∧ Z.land (u8 tag) 0x1f = Z.shiftr (offset - 1) 6
  ∧ Z.shiftr (offset - 1) 6 <= 0x1b.
Proof.
  intros Hlen Hoff tag. subst tag. bits.
  assert (Hq : 0 <= (offset - 1) / 2 ^ 6 <= 27) by dlia.
  rewrite (Z.mod_small ((offset - 1) / 2 ^ 6) 32) by lia.
  rewrite (lor_add_low (length - 1) ((offset - 1) / 2 ^ 6) 5) by lia.
  change (2 ^ 5) with 32 in *. change (2 ^ 6) with 64 in *.
  rewrite u8_to_byte_small by lia.
  repeat split; try lia. dlia.
Qed.

(** ** The writes the emitters do not guard *)

Lemma emitLiterals_unguarded lit isFirst :
  18 < len lit → (isFirst = true → 238 < len lit) →
  emitLiterals lit [] isFirst = Panic.
Proof.
  intros Hlen Hfirst. unfold emitLiterals. branch; [lia|].
  destruct (isFirst && (len lit <=? 238)) eqn:E1.
  { cmp. subst isFirst. specialize (Hfirst eq_refl). lia. }
  branch; [lia|]. done.
Qed.

Example emitMatch_unguarded : emitMatch (zeros 4) 1 600 = Panic.
Proof. vm_compute. reflexivity. Qed.

(** * The hash and the table of positions *)

(** Two four-byte words that agree on their three low bytes and on the top
    bits of their product with the (odd) multiplier are equal. *)
Lemma odd_multiple d j : -256 < d < 256 → d * 0x1e35a7bd = 256 * j → d = 0.
Proof. intros. lia. Qed.

Lemma hash_top low d d' :
  0 <= low < 2 ^ 24 → 0 <= d < 256 → 0 <= d' < 256 →
  ((low + d * 2 ^ 24) * 0x1e35a7bd) mod 2 ^ 32 / 2 ^ 18
  = ((low + d' * 2 ^ 24) * 0x1e35a7bd) mod 2 ^ 32 / 2 ^ 18 →
  d = d'.
Proof.
  intros Hl Hd Hd' H.
  set (M := 0x1e35a7bd) in *.
  set (X := ((low + d * 2 ^ 24) * M) mod 2 ^ 32) in *.
  set (X' := ((low + d' * 2 ^ 24) * M) mod 2 ^ 32) in *.
  assert (Hlow : ∀ e, ((low + e * 2 ^ 24) * M) mod 2 ^ 32 mod 2 ^ 24
                      = (low * M) mod 2 ^ 24).
  { intros e. rewrite Z.mod_mod_divide by (exists (2 ^ 8); reflexivity).
    replace ((low + e * 2 ^ 24) * M) with (low * M + (e * M) * 2 ^ 24) by ring.
    apply Z.mod_add. lia. }
  assert (Hhigh : X / 2 ^ 24 = X' / 2 ^ 24).
  { change (2 ^ 24) with (2 ^ 18 * 2 ^ 6).
    rewrite <- !Z.div_div by lia. by rewrite H. }
  assert (HX : X = X').
  { rewrite (Z.div_mod X (2 ^ 24)), (Z.div_mod X' (2 ^ 24)) by lia.
    unfold X, X'. rewrite !Hlow. fold X X'. by rewrite Hhigh. }
  unfold X, X' in HX.
  pose proof (Z.div_mod ((low + d * 2 ^ 24) * M) (2 ^ 32) ltac:(lia)) as E1.
  pose proof (Z.div_mod ((low + d' * 2 ^ 24) * M) (2 ^ 32) ltac:(lia)) as E2.
  rewrite HX in E1.
  set (j := (low + d * 2 ^ 24) * M / 2 ^ 32 - (low + d' * 2 ^ 24) * M / 2 ^ 32).
  assert ((d - d') * M = 256 * j).
  { subst j. apply (Z.mul_reg_l _ _ (2 ^ 24)); [lia|].
    change (2 ^ 32) with (2 ^ 24 * 256) in *. lia. }
  assert (d - d' = 0); [|lia].
  apply (odd_multiple _ j); [lia | done].
Qed.

(** The 32-bit little-endian word at four bytes. *)
Definition word (b0 b1 b2 b3 : byte) : Z :=
  u8 b0 + u8 b1 * 2 ^ 8 + u8 b2 * 2 ^ 16 + u8 b3 * 2 ^ 24.

Definition hash_of (w : Z) : Z := (w * 0x1e35a7bd) mod 2 ^ 32 / 2 ^ 18.

Lemma hash_of_range w : 0 <= hash_of w < hashSize.
Proof.
  unfold hash_of, hashSize, hashBits.
  pose proof (Z.mod_pos_bound (w * 0x1e35a7bd) (2 ^ 32) ltac:(lia)).
  change (Z.shiftl 1 14) with 16384. split.
  - apply Z.div_pos; lia.
  - apply Z.div_lt_upper_bound; lia.
Qed.

Lemma hash_spec src p b0 b1 b2 b3 :
  0 <= p →
  src !! Z.to_nat p = Some b0 → src !! Z.to_nat (p + 1) = Some b1 →
  src !! Z.to_nat (p + 2) = Some b2 → src !! Z.to_nat (p + 3) = Some b3 →
  hash src p = Val (hash_of (word b0 b1 b2 b3)).
Proof.
  intros Hp H0 H1 H2 H3. unfold hash.
  pose proof (lookup_lt_Some _ _ _ H3) as Hlt.
  branch; [unfold len in *; lia|].
  rewrite (proj2 (load_Val src p b0)) by done. sbind.
  rewrite (proj2 (load_Val src (p + 1) b1)) by (split; [lia | done]). sbind.
  rewrite (proj2 (load_Val src (p + 2) b2)) by (split; [lia | done]). sbind.
  rewrite (proj2 (load_Val src (p + 3) b3)) by (split; [lia | done]). sbind.
  f_equal.
  pose proof (u8_range b0). pose proof (u8_range b1).
  pose proof (u8_range b2). pose proof (u8_range b3).
  rewrite !shiftl_mul by lia.
  rewrite (Z.lor_comm (u8 b0)), lor_add_low by lia.
  rewrite (Z.lor_comm _ (u8 b2 * 2 ^ 16)), lor_add_low by lia.
  rewrite (Z.lor_comm _ (u8 b3 * 2 ^ 24)), lor_add_low by lia.
  unfold wrap32, hashMask, hashSize, hashBits.
  change (Z.shiftl 1 14 - 1) with (2 ^ 14 - 1).
  rewrite land_low, shiftr_div by lia. change (32 - 14) with 18.
  replace (u8 b3 * 2 ^ 24 + (u8 b2 * 2 ^ 16 + (u8 b1 * 2 ^ 8 + u8 b0)))
    with (word b0 b1 b2 b3) by (unfold word; lia).
  pose proof (hash_of_range (word b0 b1 b2 b3)) as Hr.
  unfold hash_of, hashSize, hashBits in *.
  change (Z.shiftl 1 14) with (2 ^ 14) in Hr.
  by apply Z.mod_small.
Qed.

Lemma hash_of_word_inj b0 b1 b2 b3 b3' :
  hash_of (word b0 b1 b2 b3) = hash_of (word b0 b1 b2 b3') → b3 = b3'.
Proof.
  intros H. apply u8_inj.
  pose proof (u8_range b0). pose proof (u8_range b1).
  pose proof (u8_range b2). pose proof (u8_range b3).
  pose proof (u8_range b3').
  apply (hash_top (u8 b0 + u8 b1 * 2 ^ 8 + u8 b2 * 2 ^ 16)); try lia.
  exact H.
Qed.

Lemma four_bytes (src : list byte) p :
  0 <= p → p + 4 <= len src →
  ∃ b0 b1 b2 b3,
    src !! Z.to_nat p = Some b0 ∧ src !! Z.to_nat (p + 1) = Some b1
    ∧ src !! Z.to_nat (p + 2) = Some b2 ∧ src !! Z.to_nat (p + 3) = Some b3.
Proof.
  intros Hp Hl. unfold len in Hl.
  destruct (lookup_lt_is_Some_2 src (Z.to_nat p)) as [b0 ?]; [lia|].
  destruct (lookup_lt_is_Some_2 src (Z.to_nat (p + 1))) as [b1 ?]; [lia|].
  destruct (lookup_lt_is_Some_2 src (Z.to_nat (p + 2))) as [b2 ?]; [lia|].
  destruct (lookup_lt_is_Some_2 src (Z.to_nat (p + 3))) as [b3 ?]; [lia|].
  eauto 10.
Qed.

Lemma hash_total src p :
  0 <= p → p + 4 <= len src →
  ∃ h, hash src p = Val h ∧ 0 <= h < hashSize.
Proof.
  intros Hp Hl.
  destruct (four_bytes src p Hp Hl) as (b0 & b1 & b2 & b3 & H0 & H1 & H2 & H3).
  eexists. split; [by eapply hash_spec|]. apply hash_of_range.
Qed.

(** Equal hashes and three equal bytes give a fourth equal byte. *)
Lemma hash_fourth src p q h :
  0 <= p → p + 4 <= len src → 0 <= q → q + 4 <= len src →
  hash src p = Val h → hash src q = Val h →
  src !! Z.to_nat p = src !! Z.to_nat q →
  src !! Z.to_nat (p + 1) = src !! Z.to_nat (q + 1) →
  src !! Z.to_nat (p + 2) = src !! Z.to_nat (q + 2) →
  src !! Z.to_nat (p + 3) = src !! Z.to_nat (q + 3).
Proof.
  intros Hp Hpl Hq Hql Hhp Hhq E0 E1 E2.
  destruct (four_bytes src p Hp Hpl) as (b0 & b1 & b2 & b3 & H0 & H1 & H2 & H3).
  destruct (four_bytes src q Hq Hql) as (c0 & c1 & c2 & c3 & G0 & G1 & G2 & G3).
  rewrite (hash_spec src p b0 b1 b2 b3) in Hhp by done.
  rewrite (hash_spec src q c0 c1 c2 c3) in Hhq by done.
  rewrite H3, G3. f_equal.
  assert (b0 = c0) by congruence. assert (b1 = c1) by congruence.
  assert (b2 = c2) by congruence. subst c0 c1 c2.
  apply (hash_of_word_inj b0 b1 b2). congruence.
Qed.

(** Every position stored in the table hashes to its slot and has four
    bytes after it; the other entries are negative. *)
Definition table_ok (src : list byte) (tbl : list Z) : Prop :=
  len tbl = hashSize
  ∧ ∀ h ref, tbl !! h = Some ref → 0 <= ref →
      ref + 4 <= len src ∧ hash src ref = Val (Z.of_nat h).

Lemma initial_table_ok src : table_ok src initial_table.
Proof.
  unfold table_ok, initial_table, len. rewrite length_replicate.
  split; [apply Z2Nat.id; by vm_compute|].
  intros h ref Hh Href. apply lookup_replicate in Hh as [-> _].
  unfold maxOffset in Href. lia.
Qed.

Lemma table_ok_store src tbl h p :
  table_ok src tbl → 0 <= p → p + 4 <= len src → hash src p = Val h →
  0 <= h < hashSize →
  store tbl h p = Val (<[Z.to_nat h := p]> tbl)
  ∧ table_ok src (<[Z.to_nat h := p]> tbl).
Proof.
  intros [Hlen Hok] Hp Hpl Hh Hr. split; [apply store_in; lia|].
  split; [by rewrite len_insert|].
  intros h' ref Hlk Href.
  destruct (decide (h' = Z.to_nat h)) as [->|Hne].
  - rewrite list_lookup_insert_eq in Hlk by (unfold len in *; lia).
    injection Hlk as <-. rewrite Z2Nat.id by lia. done.
  - rewrite list_lookup_insert_ne in Hlk by done. by apply Hok.
Qed.

(** * The search for a match *)

Lemma same_at_spec (src : list byte) i j :
  0 <= i < len src → 0 <= j < len src →
  ∃ c, same_at src i j = Val c
    ∧ (c = true ↔ src !! Z.to_nat i = src !! Z.to_nat j).
Proof.
  intros Hi Hj. unfold same_at.
  do_load src i a Ha. do_load src j b Hb.
  eexists. split; [done|]. rewrite Ha, Hb, byte_eqb_eq.
  split; [by intros -> | by intros [= ->]].
Qed.

Lemma three_equal_spec (src : list byte) ref ip :
  0 <= ref → ref + 3 <= len src → 0 <= ip → ip + 3 <= len src →
  ∃ c, three_equal src ref ip = Val c
    ∧ (c = true →
       ∀ i, 0 <= i < 3 → src !! Z.to_nat (ip + i) = src !! Z.to_nat (ref + i)).
Proof.
  intros Hr Hrl Hi Hil. unfold three_equal.
  destruct (same_at_spec src ref ip) as (c0 & -> & H0); [lia..|]. sbind.
  destruct c0; [|by eexists].
  destruct (same_at_spec src (ref + 1) (ip + 1)) as (c1 & -> & H1); [lia..|].
  sbind. destruct c1; [|by eexists].
  destruct (same_at_spec src (ref + 2) (ip + 2)) as (c2 & -> & H2); [lia..|].
  exists c2. split; [done|]. intros ->. intros i Hi3.
  assert (i = 0 ∨ i = 1 ∨ i = 2) as [-> | [-> | ->]] by lia.
  - rewrite !Z.add_0_r. symmetry. by apply H0.
  - symmetry. by apply H1.
  - symmetry. by apply H2.
Qed.

Lemma extend_match_spec fuel (src : list byte) ref ip matchLen maxLen :
  0 <= ref < ip → ip + maxLen <= len src → 0 <= matchLen <= maxLen →
  maxLen - matchLen <= Z.of_nat fuel →
  (∀ i, 0 <= i < matchLen →
        src !! Z.to_nat (ip + i) = src !! Z.to_nat (ref + i)) →
  ∃ m, extend_match fuel src ref ip matchLen maxLen = Val m
    ∧ matchLen <= m <= maxLen
    ∧ (∀ i, 0 <= i < m → src !! Z.to_nat (ip + i) = src !! Z.to_nat (ref + i))
    ∧ (matchLen < maxLen →
       src !! Z.to_nat (ip + matchLen) = src !! Z.to_nat (ref + matchLen) →
       matchLen < m).
Proof.
  revert matchLen. induction fuel as [|fuel IH];
    intros matchLen Href Hmax Hm Hfuel Heq; cbn [extend_match].
  - branch; [lia|]. exists matchLen. repeat split; try done; lia.
  - branch; [|exists matchLen; repeat split; try done; lia].
    destruct (same_at_spec src (ref + matchLen) (ip + matchLen))
      as (c & -> & Hc); [lia..|]. sbind.
    destruct c.
    + destruct (IH (matchLen + 1)) as (m & -> & Hr & Hall & _); try lia.
      { intros i Hi. destruct (decide (i = matchLen)) as [->|];
          [symmetry; by apply Hc | apply Heq; lia]. }
      exists m. repeat split; try done; lia.
    + exists matchLen. repeat split; try done; try lia.
      intros _ Hsame. symmetry in Hsame. apply Hc in Hsame. done.
Qed.

(** A match the encoder may emit at [ip]: within the offset window, at
    least four bytes long, and a true repetition of earlier input. *)
Definition good_match (src : list byte) (ip offset matchLen : Z) : Prop :=
  1 <= offset <= maxOffset ∧ offset <= ip
  ∧ 4 <= matchLen <= 264 ∧ ip + matchLen <= len src
  ∧ ∀ i, 0 <= i < matchLen →
      src !! Z.to_nat (ip + i) = src !! Z.to_nat (ip - offset + i).

Lemma find_match_spec src tbl ip :
  table_ok src tbl → 0 <= ip → ip + 4 <= len src →
  ∃ tbl' found,
    find_match src tbl ip = Val (tbl', found)
    ∧ table_ok src tbl'
    ∧ match found with
      | Some (offset, matchLen) => good_match src ip offset matchLen
      | None => True
      end.
Proof.
  intros Htbl Hip Hlen. unfold find_match.
  destruct (hash_total src ip Hip Hlen) as (h & Hh & Hhr). rewrite Hh. sbind.
  pose proof Htbl as [Htl Hok].
  do_load tbl h ref Href.
  destruct (table_ok_store src tbl h ip Htbl Hip Hlen Hh Hhr) as [-> Htbl'].
  sbind.
  destruct ((0 <? ip - ref) && (ip - ref <=? maxOffset) && (0 <=? ref)
            && (ip + 4 <=? len src)) eqn:Eg; [|by eauto].
  cmp.
  destruct (Hok _ _ Href ltac:(lia)) as [Hrl Hrh].
  rewrite Z2Nat.id in Hrh by lia.
  destruct (three_equal_spec src ref ip) as (c & -> & Hc); [lia..|]. sbind.
  destruct c; [|by eauto]. specialize (Hc eq_refl).
  set (maxLen := if 264 <? len src - ip then 264 else len src - ip).
  assert (Hmax : 4 <= maxLen <= 264 ∧ ip + maxLen <= len src)
    by (subst maxLen; branch; lia).
  destruct (extend_match_spec (Z.to_nat maxLen) src ref ip 3 maxLen)
    as (m & -> & Hm & Hall & Hgrow); try lia; [done|]. sbind.
  eexists _, _. split; [done|]. split; [done|].
  assert (3 < m).
  { apply Hgrow; [lia|].
    apply (hash_fourth src ip ref h); try done; try lia.
    - rewrite <- (Z.add_0_r ip), <- (Z.add_0_r ref). apply Hc. lia.
    - apply Hc. lia.
    - apply Hc. lia. }
  unfold good_match. repeat split; try lia.
  intros i Hi. replace (ip - (ip - ref) + i) with (ref + i) by lia.
  by apply Hall.
Qed.

Lemma refresh_spec fuel src tbl i ip :
  table_ok src tbl → 0 <= i → ip - i <= Z.of_nat fuel →
  ∃ tbl', refresh fuel src tbl i ip = Val tbl' ∧ table_ok src tbl'.
Proof.
  revert tbl i. induction fuel as [|fuel IH]; intros tbl i Htbl Hi Hfuel;
    cbn [refresh].
  - destruct ((i <? ip) && (i <? len src - 4)) eqn:E; [cmp; lia | eauto].
  - destruct ((i <? ip) && (i <? len src - 4)) eqn:E; [cmp | eauto].
    destruct (hash_total src i) as (h & Hh & Hhr); [lia..|]. rewrite Hh. sbind.
    destruct (table_ok_store src tbl h i) as [-> Htbl']; try done; try lia.
    sbind. apply IH; [done | lia | lia].
Qed.

(** * What a log of emitter calls stands for *)

(** The kind of the previous opcode of a stream. *)
Inductive prev := PStart | PLit | PMatch.

Definition after (ev : event) : prev :=
  match ev with
  | EvLiterals _ _ => PLit
  | EvMatch _ _ => PMatch
  end.

(** The output after an opcode, given the output [out] before it. *)
Definition apply_event (out : list byte) (ev : event) : list byte :=
  match ev with
  | EvLiterals lit _ => out ++ lit
  | EvMatch offset length => lz_copy (Z.to_nat length) out (Z.to_nat offset)
  end.

(** An opcode the decoder can take after [p] with [out] decoded so far: the
    first literal run is marked first, later runs follow a match and have
    four bytes at least, and a match reaches back into [out]. *)
Definition event_ok (p : prev) (out : list byte) (ev : event) : Prop :=
  match ev with
  | EvLiterals lit isFirst =>
      lit ≠ [] ∧
      match p with
      | PStart => isFirst = true
      | PMatch => isFirst = false ∧ 4 <= len lit
      | PLit => False
      end
  | EvMatch offset length =>
      p ≠ PStart ∧ 1 <= offset <= maxOffset ∧ offset <= len out
      ∧ 3 <= length <= 264
  end.

Fixpoint wf (p : prev) (out : list byte) (log : list event) : Prop :=
  match log with
  | [] => True
  | ev :: log' => event_ok p out ev ∧ wf (after ev) (apply_event out ev) log'
  end.

Fixpoint expand (out : list byte) (log : list event) : list byte :=
  match log with
  | [] => out
  | ev :: log' => expand (apply_event out ev) log'
  end.

Fixpoint last_prev (p : prev) (log : list event) : prev :=
  match log with
  | [] => p
  | ev :: log' => last_prev (after ev) log'
  end.

Lemma expand_snoc out log ev :
  expand out (log ++ [ev]) = apply_event (expand out log) ev.
Proof. revert out. induction log as [|e log IH]; intros out; simpl; auto. Qed.

Lemma last_prev_snoc p log ev : last_prev p (log ++ [ev]) = after ev.
Proof. revert p. induction log as [|e log IH]; intros p; simpl; auto. Qed.

Lemma wf_snoc p out log ev :
  wf p out (log ++ [ev])
  ↔ wf p out log ∧ event_ok (last_prev p log) (expand out log) ev.
Proof.
  revert p out. induction log as [|e log IH]; intros p out; simpl.
  - tauto.
  - rewrite IH. tauto.
Qed.

Lemma last_prev_start log : last_prev PStart log = PStart → log = [].
Proof.
  destruct log as [|e log]; [done|]. simpl.
  assert (H : ∀ p, p ≠ PStart → last_prev p log ≠ PStart).
  { induction log as [|e' log IH]; intros p Hp; simpl; [done|].
    apply IH. by destruct e'. }
  intros Heq. exfalso. apply (H (after e)); [by destruct e | done].
Qed.

(** In a well-formed log every literal run but the first has four bytes at
    least, and none is empty. *)
Lemma wf_literals p out log i lit isFirst :
  wf p out log → log !! i = Some (EvLiterals lit isFirst) →
  lit ≠ [] ∧ ((0 < i)%nat ∨ p ≠ PStart → 4 <= len lit).
Proof.
  revert p out i. induction log as [|e log IH]; intros p out i Hwf Hi; [done|].
  destruct Hwf as [Hev Hwf]. destruct i as [|i]; simpl in Hi.
  - injection Hi as ->. destruct Hev as [Hne Hp]. split; [done|].
    intros [?|Hps]; [lia|]. destruct p; try done. tauto.
  - destruct (IH _ _ _ Hwf Hi) as [Hne H4]. split; [done|].
    intros _. apply H4. right. by destruct e.
Qed.

(** A repetition of earlier input is what the copy loop reproduces. *)
Lemma lz_copy_take (src : list byte) (ip off n : nat) :
  (0 < off <= ip)%nat → (ip + n <= length src)%nat →
  (∀ i, (i < n)%nat → src !! (ip + i)%nat = src !! (ip - off + i)%nat) →
  lz_copy n (take ip src) off = take (ip + n) src.
Proof.
  revert ip. induction n as [|n IH]; intros ip Hoff Hlen Heq.
  - by rewrite Nat.add_0_r.
  - cbn [lz_copy]. rewrite length_take_le by lia.
    rewrite lookup_take_lt by lia.
    destruct (lookup_lt_is_Some_2 src ip) as [b Hb]; [lia|].
    specialize (Heq 0%nat ltac:(lia)) as H0. rewrite !Nat.add_0_r in H0.
    rewrite <- H0, Hb. rewrite <- (take_S_r _ _ _ Hb).
    rewrite IH; [f_equal; lia | lia | lia |].
    intros i Hi. specialize (Heq (S i) ltac:(lia)).
    replace (S ip + i)%nat with (ip + S i)%nat by lia.
    replace (S ip - off + i)%nat with (ip - off + S i)%nat by lia. done.
Qed.

Lemma good_match_copy src ip offset matchLen :
  0 <= ip → good_match src ip offset matchLen →
  lz_copy (Z.to_nat matchLen) (take (Z.to_nat ip) src) (Z.to_nat offset)
  = take (Z.to_nat (ip + matchLen)) src.
Proof.
  intros Hip (Hoff & Hoi & Hlen & Hend & Heq).
  rewrite lz_copy_take; [f_equal; lia | lia | unfold len in *; lia |].
  intros i Hi. specialize (Heq (Z.of_nat i) ltac:(lia)).
  replace (Z.to_nat ip + i)%nat with (Z.to_nat (ip + Z.of_nat i)) by lia.
  replace (Z.to_nat ip - Z.to_nat offset + i)%nat
    with (Z.to_nat (ip - offset + Z.of_nat i)) by lia. done.
Qed.

(** * The main loop of the encoder *)

(** What holds of the encoder's variables at the head of the loop, whatever
    the size of [dst]: the cursors are ordered, the table is sound, and the
    log is a well-formed stream for the input before [litStart], ending in
    a match unless nothing was emitted yet. *)
Definition einv (src : list byte) (e : enc) : Prop :=
  0 <= e_litStart e <= e_ip e ∧ e_ip e <= len src
  ∧ table_ok src (e_hashTable e)
  ∧ wf PStart [] (e_log e)
  ∧ expand [] (e_log e) = take (Z.to_nat (e_litStart e)) src
  ∧ last_prev PStart (e_log e)
    = (if e_isFirstOutput e then PStart else PMatch)
  ∧ (if e_isFirstOutput e then e_litStart e = 0
     else e_litStart e = len src ∨ e_litStart e + 4 <= len src).

Lemma slice_spec {A} (l : list A) lo hi :
  0 <= lo <= hi → hi <= len l →
  slice l lo hi = Val (take (Z.to_nat (hi - lo)) (drop (Z.to_nat lo) l)).
Proof.
  intros H1 H2. unfold slice.
  destruct ((0 <=? lo) && (lo <=? hi) && (hi <=? len l)) eqn:E; [done|].
  apply andb_false_iff in E as [E|E]; [apply andb_false_iff in E as [E|E]|];
    cmp; lia.
Qed.

Lemma slice_length {A} (l : list A) lo hi :
  0 <= lo <= hi → hi <= len l →
  len (take (Z.to_nat (hi - lo)) (drop (Z.to_nat lo) l)) = hi - lo.
Proof.
  intros H1 H2. unfold len in *. rewrite length_take, length_drop. lia.
Qed.

Lemma take_slice {A} (l : list A) lo hi :
  0 <= lo <= hi →
  take (Z.to_nat lo) l ++ take (Z.to_nat (hi - lo)) (drop (Z.to_nat lo) l)
  = take (Z.to_nat hi) l.
Proof. intros H. rewrite take_take_drop. f_equal. lia. Qed.

(** The log once the pending literals [src[litStart:hi]] are emitted. *)
Definition with_pending (src : list byte) (e : enc) (hi : Z) : list event :=
  if 0 <? hi - e_litStart e
  then e_log e ++ [EvLiterals (take (Z.to_nat (hi - e_litStart e))
                                 (drop (Z.to_nat (e_litStart e)) src))
                              (e_isFirstOutput e)]
  else e_log e.

Lemma with_pending_ok src e hi :
  einv src e → e_litStart e <= hi <= len src →
  (e_isFirstOutput e = false →
   hi - e_litStart e = 0 ∨ 4 <= hi - e_litStart e) →
  wf PStart [] (with_pending src e hi)
  ∧ expand [] (with_pending src e hi) = take (Z.to_nat hi) src
  ∧ last_prev PStart (with_pending src e hi)
    = (if 0 <? hi - e_litStart e then PLit
       else if e_isFirstOutput e then PStart else PMatch).
Proof.
  intros (Hpos & Hip & Htbl & Hwf & Hexp & Hlast & Hstart) Hhi Hgate.
  unfold with_pending. branch.
  - rewrite wf_snoc, expand_snoc, last_prev_snoc, Hexp, Hlast. simpl.
    rewrite take_slice by lia. repeat split; try done.
    + intros Hnil. apply (f_equal len) in Hnil.
      rewrite slice_length in Hnil by lia. unfold len in Hnil. simpl in Hnil.
      lia.
    + destruct (e_isFirstOutput e); [done|]. split; [done|].
      rewrite slice_length by lia. destruct (Hgate eq_refl); lia.
  - assert (hi = e_litStart e) as -> by lia. done.
Qed.

Lemma emit_pending_literals_log src e hi r log :
  0 <= e_litStart e → e_litStart e <= hi <= len src →
  emit_pending_literals src e hi = Val (r, log) → log = with_pending src e hi.
Proof.
  intros Hpos Hhi. unfold emit_pending_literals, with_pending. branch.
  - rewrite slice_spec by lia. sbind.
    destruct (on_tail _ _ _) as [r'| |]; try done. sbind. by intros [= _ <-].
  - by intros [= _ <-].
Qed.

Lemma accept_ctl src e tbl offset matchLen f :
  einv src e → table_ok src tbl →
  good_match src (e_ip e) offset matchLen →
  pending_unencodable e = false → short_tail src e matchLen = false →
  accept src e tbl offset matchLen = Val f →
  match f with
  | Continue e' =>
      einv src e' ∧ e_ip e' = e_ip e + matchLen
      ∧ e_log e' = with_pending src e (e_ip e) ++ [EvMatch offset matchLen]
  | Return r log => wf PStart [] log
  end.
Proof.
  intros Hinv Htbl Hgood Hgate1 Hgate2.
  pose proof Hinv as (Hpos & Hip & _ & Hwf & Hexp & Hlast & Hstart).
  pose proof Hgood as (Hoff & Hoi & Hlen & Hend & Heq).
  assert (Hg1 : e_isFirstOutput e = false →
                e_ip e - e_litStart e = 0 ∨ 4 <= e_ip e - e_litStart e).
  { intros Hf. unfold pending_unencodable in Hgate1. rewrite Hf in Hgate1.
    simpl in Hgate1. apply andb_false_iff in Hgate1 as [?|?]; cmp; lia. }
  destruct (with_pending_ok src e (e_ip e) Hinv ltac:(lia) Hg1)
    as (Hwf1 & Hexp1 & Hlast1).
  assert (Hev : event_ok (last_prev PStart (with_pending src e (e_ip e)))
                  (take (Z.to_nat (e_ip e)) src) (EvMatch offset matchLen)).
  { rewrite Hlast1. simpl. split.
    - branch; [done|]. destruct (e_isFirstOutput e); [lia | done].
    - unfold len. rewrite length_take. unfold len in *. lia. }
  assert (Hwf2 : wf PStart [] (with_pending src e (e_ip e)
                                 ++ [EvMatch offset matchLen])).
  { rewrite wf_snoc, Hexp1. done. }
  unfold accept.
  destruct (emit_pending_literals src e (e_ip e))
    as [[[[n err] dst1] log1]| |] eqn:Ep; try done.
  apply emit_pending_literals_log in Ep as ->; [|lia..].
  sbind. destruct err as [err|]; [by intros [= <-]|].
  destruct (on_tail dst1 _ _) as [[[n2 err2] dst2]| |]; try done. sbind.
  destruct err2 as [err2|]; [by intros [= <-]|].
  destruct (refresh_spec (Z.to_nat matchLen) src tbl
              (e_ip e + matchLen - matchLen + 1) (e_ip e + matchLen))
    as (tbl' & -> & Htbl'); [done | lia | lia |]. sbind.
  intros [= <-]. simpl. split; [|done].
  unfold einv. simpl. rewrite expand_snoc, last_prev_snoc, Hexp1. simpl.
  split; [lia|]. split; [lia|]. split; [done|]. split; [done|].
  split; [apply good_match_copy; [lia | done]|]. split; [done|].
  unfold short_tail in Hgate2.
  apply andb_false_iff in Hgate2 as [?|?]; cmp; lia.
Qed.

(** [skip] keeps the invariant. *)
Lemma skip_inv src e tbl :
  einv src e → table_ok src tbl → e_ip e + 1 <= len src →
  einv src (skip e tbl).
Proof.
  intros (Hpos & Hip & _ & Hwf & Hexp & Hlast & Hstart) Htbl Hlt.
  unfold einv, skip. simpl.
  split; [lia|]. split; [lia|]. done.
Qed.

Lemma iter_ctl src e f :
  einv src e → e_ip e < len src - minMatch →
  iter src e = Val f →
  match f with
  | Continue e' => einv src e' ∧ e_ip e < e_ip e'
  | Return r log => wf PStart [] log
  end.
Proof.
  intros Hinv Hguard. unfold minMatch in Hguard.
  pose proof Hinv as (Hpos & Hip & Htbl & _).
  unfold iter.
  destruct (find_match_spec src (e_hashTable e) (e_ip e))
    as (tbl' & found & -> & Htbl' & Hfound); [done | lia | lia |]. sbind.
  destruct found as [[offset matchLen]|].
  - destruct (pending_unencodable e) eqn:Eg1.
    { intros [= <-]. split; [apply skip_inv; [done..|lia] | simpl; lia]. }
    destruct (short_tail src e matchLen) eqn:Eg2.
    { intros [= <-]. split; [apply skip_inv; [done..|lia] | simpl; lia]. }
    intros Hacc.
    pose proof (accept_ctl _ _ _ _ _ _ Hinv Htbl' Hfound Eg1 Eg2 Hacc) as H.
    destruct f; [|done]. destruct H as (? & ? & _).
    destruct Hfound as (_ & _ & ? & _). split; [done | lia].
  - intros [= <-]. split; [apply skip_inv; [done..|lia] | simpl; lia].
Qed.

Lemma main_loop_ctl fuel src e f :
  einv src e → main_loop fuel src e = Val f →
  match f with
  | Continue e' => einv src e' ∧ len src - minMatch <= e_ip e'
  | Return r log => wf PStart [] log
  end.
Proof.
  revert e. induction fuel as [|fuel IH]; intros e Hinv; cbn [main_loop].
  - branch; [done|]. intros [= <-]. done.
  - branch; [|intros [= <-]; done].
    destruct (iter src e) as [f1| |] eqn:Hit; try done. sbind.
    pose proof (iter_ctl _ _ _ Hinv E Hit) as H1.
    destruct f1 as [e1|r log].
    + destruct H1 as [Hinv1 _]. by apply IH.
    + intros [= <-]. done.
Qed.

Lemma finish_ctl src e r log :
  einv src e → finish src e = Val (r, log) → wf PStart [] log.
Proof.
  intros Hinv. pose proof Hinv as (Hpos & Hip & _ & Hwf & Hexp & Hlast & Hst).
  assert (Hg : e_isFirstOutput e = false →
               len src - e_litStart e = 0 ∨ 4 <= len src - e_litStart e).
  { intros Hf. rewrite Hf in Hst. lia. }
  destruct (with_pending_ok src e (len src) Hinv ltac:(lia) Hg) as (Hwf1 & _).
  unfold finish.
  destruct (emit_pending_literals src e (len src))
    as [[[[n err] dst1] log1]| |] eqn:Ep; try done.
  apply emit_pending_literals_log in Ep as ->; [|lia..].
  sbind. destruct err as [err|]; [by intros [= <- <-]|].
  destruct (emit_eof _ _) as [r'| |]; try done. sbind. by intros [= <- <-].
Qed.

(** Every log [Compress] produces is well formed. *)
Lemma compress_logged_wf src dst r log :
  compress_logged src dst = Val (r, log) → wf PStart [] log.
Proof.
  unfold compress_logged. branch; [by intros [= <- <-]|].
  branch.
  - destruct (compressLiteralsOnly src dst) as [r'| |]; try done. sbind.
    intros [= <- <-]. simpl. split; [|done]. split; [|done].
    intros ->. unfold len in *. simpl in *. lia.
  - destruct (main_loop _ _ _) as [f| |] eqn:Hloop; try done. sbind.
    assert (Hinit : einv src (Enc 0 0 0 true initial_table dst [])).
    { unfold einv. simpl. pose proof (initial_table_ok src).
      pose proof (len_nonneg src).
      split; [lia|]. split; [lia|]. done. }
    pose proof (main_loop_ctl _ _ _ _ Hinit Hloop) as H.
    destruct f as [e|r' log'].
    + destruct H as [Hinv _]. by apply finish_ctl.
    + by intros [= <- <-].
Qed.

(** * The bytes the encoder writes *)

Definition eof_marker : list byte := [to_byte 0x11; to_byte 0x00; to_byte 0x00].

(** What holds of the output when [dst0], the buffer [Compress] was given,
    has room: the buffer holds the stream of the log followed by what
    [dst0] held, and sixteen output bytes pay for seventeen input bytes at
    least. *)
Definition binv (dst0 : list byte) (e : enc) : Prop :=
  e_dst e = splice dst0 0 (encode (e_log e))
  ∧ e_op e = len (encode (e_log e))
  ∧ 16 * e_op e <= 17 * e_litStart e.

Lemma on_tail_next dst bs op out emit :
  op = len bs → op + len out <= len dst →
  (∀ tail, len tail = len dst - op →
     emit tail = Val (len out, None, splice tail 0 out)) →
  on_tail (splice dst 0 bs) op emit
  = Val (len out, None, splice dst 0 (bs ++ out)).
Proof.
  intros -> Hroom Hemit. pose proof (len_nonneg bs). pose proof (len_nonneg out).
  assert (Hdrop : drop (Z.to_nat (len bs)) (splice dst 0 bs)
                  = drop (length bs) dst).
  { unfold len. rewrite Nat2Z.id. apply (splice_drop dst 0 bs). lia. }
  assert (Hslice : slice (splice dst 0 bs) (len bs) (len (splice dst 0 bs))
                   = Val (drop (length bs) dst)).
  { rewrite slice_spec by (rewrite ?splice0_length; lia).
    rewrite Hdrop, take_ge; [done|].
    rewrite splice0_length by lia. rewrite length_drop. unfold len. lia. }
  unfold on_tail. rewrite Hslice. sbind.
  rewrite Hemit by (unfold len in *; rewrite length_drop; lia).
  sbind. do 2 f_equal.
  unfold len. rewrite Nat2Z.id.
  pose proof (splice_take dst 0 bs ltac:(lia)) as Ht. simpl in Ht.
  rewrite Ht.
  unfold splice. simpl. rewrite drop_drop, length_app, <- app_assoc. done.
Qed.

Lemma emit_eof_next dst bs op :
  op = len bs → op + 3 <= len dst →
  emit_eof (splice dst 0 bs) op
  = Val (op + 3, None, splice dst 0 (bs ++ eof_marker)).
Proof.
  intros -> Hroom. pose proof (len_nonneg bs). unfold emit_eof.
  rewrite splice0_length by lia. branch; [lia|].
  rewrite (store_next dst bs) by (done || lia). sbind.
  rewrite (store_next dst (bs ++ [_]))
    by (rewrite ?len_app; change (len [to_byte 17]) with 1; lia). sbind.
  rewrite (store_next dst ((bs ++ [_]) ++ [_]))
    by (rewrite ?len_app; change (len [to_byte 17]) with 1;
        change (len [to_byte 0]) with 1; lia). sbind.
  rewrite <- !app_assoc. done.
Qed.

(** The bytes of the pending literals [src[litStart:hi]], none if the run is
    empty. *)
Definition pending_bytes (src : list byte) (e : enc) (hi : Z) : list byte :=
  if 0 <? hi - e_litStart e
  then enc_literals (take (Z.to_nat (hi - e_litStart e))
                       (drop (Z.to_nat (e_litStart e)) src))
                    (e_isFirstOutput e)
  else [].

Lemma encode_with_pending src e hi :
  encode (with_pending src e hi) = encode (e_log e) ++ pending_bytes src e hi.
Proof.
  unfold with_pending, pending_bytes. branch.
  - by rewrite encode_snoc.
  - by rewrite app_nil_r.
Qed.

Lemma pending_bytes_length src e hi :
  0 <= e_litStart e <= hi → hi <= len src →
  len (pending_bytes src e hi)
  = if 0 <? hi - e_litStart e then
      hi - e_litStart e
      + (if hi - e_litStart e <=? 18 then 1
         else 2 + (hi - e_litStart e - 19) / 255)
    else 0.
Proof.
  intros H1 H2. unfold pending_bytes. branch; [|done].
  unfold enc_literals. rewrite len_app, slice_length by lia.
  rewrite lit_header_length by lia. lia.
Qed.

(** Emitting the pending literals into a buffer with room. *)
Lemma emit_pending_literals_ok src dst0 e hi :
  einv src e → binv dst0 e → e_litStart e <= hi <= len src →
  e_op e + len (pending_bytes src e hi) <= len dst0 →
  emit_pending_literals src e hi
  = Val (len (pending_bytes src e hi), None,
         splice dst0 0 (encode (with_pending src e hi)),
         with_pending src e hi).
Proof.
  intros Hinv (Hdst & Hop & Hacc) Hhi Hroom.
  destruct Hinv as (Hpos & _).
  rewrite encode_with_pending.
  unfold emit_pending_literals, pending_bytes, with_pending in *. branch.
  - rewrite slice_spec by lia. sbind. rewrite Hdst.
    rewrite (on_tail_next dst0 _ _
               (enc_literals (take (Z.to_nat (hi - e_litStart e))
                                (drop (Z.to_nat (e_litStart e)) src))
                             (e_isFirstOutput e))); [done | done | lia |].
    intros tail Htail. apply emitLiterals_spec; [|lia].
    intros Hnil. apply (f_equal len) in Hnil.
    rewrite slice_length in Hnil by lia. unfold len in Hnil. simpl in Hnil.
    lia.
  - by rewrite app_nil_r, Hdst.
Qed.

Lemma MaxCompressedSize_bound n :
  0 < n → 17 * n + 1057 <= 16 * MaxCompressedSize n.
Proof.
  intros H. unfold MaxCompressedSize. branch; [lia|].
  rewrite Z.quot_div_nonneg by lia. dlia.
Qed.

Lemma accept_ok src dst0 e tbl offset matchLen :
  einv src e → binv dst0 e → MaxCompressedSize (len src) <= len dst0 →
  table_ok src tbl → good_match src (e_ip e) offset matchLen →
  ∃ e', accept src e tbl offset matchLen = Val (Continue e') ∧ binv dst0 e'.
Proof.
  intros Hinv Hb Hroom Htbl Hgood.
  pose proof Hinv as (Hpos & Hip & _ & Hwf & Hexp & Hlast & Hstart).
  pose proof Hb as (Hdst & Hop & Hacc).
  pose proof Hgood as (Hoff & Hoi & Hlen & Hend & Heq).
  pose proof (MaxCompressedSize_bound (len src) ltac:(lia)) as Hmax.
  pose proof (pending_bytes_length src e (e_ip e) Hpos Hip) as Hpl.
  destruct (enc_match_length offset matchLen ltac:(lia) Hoff) as [Hml Hml3].
  pose proof (len_nonneg (encode (e_log e))).
  assert (Hpay : 16 * (len (pending_bytes src e (e_ip e))
                       + len (enc_match offset matchLen))
                 <= 17 * (e_ip e - e_litStart e + matchLen)).
  { rewrite Hpl. repeat branch; dlia. }
  assert (Hfit : e_op e + len (pending_bytes src e (e_ip e)) + 4 <= len dst0).
  { rewrite Hpl. repeat branch; dlia. }
  destruct (refresh_spec (Z.to_nat matchLen) src tbl
              (e_ip e + matchLen - matchLen + 1) (e_ip e + matchLen))
    as (tbl' & Hrefresh & Htbl'); [done | lia | lia |].
  eexists. split.
  - unfold accept. cbv zeta.
    rewrite (emit_pending_literals_ok src dst0 e (e_ip e)) by (done || lia).
    sbind.
    rewrite (on_tail_next dst0 _ _ (enc_match offset matchLen));
      [ | rewrite ?encode_with_pending, ?len_app; lia
        | rewrite ?encode_with_pending, ?len_app; lia | ].
    2:{ intros tail Htail. apply emitMatch_spec; lia. }
    sbind. rewrite Hrefresh. sbind. done.
  - unfold binv. simpl.
    rewrite encode_snoc, encode_with_pending. simpl.
    split; [done|]. rewrite !len_app. split; lia.
Qed.

Lemma iter_ok src dst0 e :
  einv src e → binv dst0 e → MaxCompressedSize (len src) <= len dst0 →
  e_ip e < len src - minMatch →
  ∃ e', iter src e = Val (Continue e') ∧ binv dst0 e'.
Proof.
  intros Hinv Hb Hroom Hguard. unfold minMatch in Hguard.
  pose proof Hinv as (Hpos & Hip & Htbl & _).
  unfold iter.
  destruct (find_match_spec src (e_hashTable e) (e_ip e))
    as (tbl' & found & -> & Htbl' & Hfound); [done | lia | lia |]. sbind.
  destruct found as [[offset matchLen]|]; [|by eauto].
  destruct (pending_unencodable e); [by eauto|].
  destruct (short_tail src e matchLen); [by eauto|].
  by apply (accept_ok src dst0).
Qed.

Lemma main_loop_ok fuel src dst0 e :
  einv src e → binv dst0 e → MaxCompressedSize (len src) <= len dst0 →
  len src - e_ip e <= Z.of_nat fuel →
  ∃ e', main_loop fuel src e = Val (Continue e')
    ∧ einv src e' ∧ binv dst0 e' ∧ len src - minMatch <= e_ip e'.
Proof.
  revert e. induction fuel as [|fuel IH]; intros e Hinv Hb Hroom Hfuel;
    cbn [main_loop].
  - branch; [unfold minMatch in *; lia|]. eauto.
  - branch; [|by eauto].
    destruct (iter_ok src dst0 e Hinv Hb Hroom E) as (e1 & Hit & Hb1).
    rewrite Hit. sbind.
    destruct (iter_ctl _ _ _ Hinv E Hit) as [Hinv1 Hlt].
    apply IH; try done. lia.
Qed.

Lemma finish_ok src dst0 e :
  einv src e → binv dst0 e → MaxCompressedSize (len src) <= len dst0 →
  0 < len src →
  ∃ log, finish src e
         = Val ((len (encode log) + 3, None,
                 splice dst0 0 (encode log ++ eof_marker)), log)
    ∧ wf PStart [] log ∧ expand [] log = src
    ∧ len (encode log) + 3 <= MaxCompressedSize (len src).
Proof.
  intros Hinv Hb Hroom Hsrc.
  pose proof Hinv as (Hpos & Hip & _ & Hwf & Hexp & Hlast & Hst).
  pose proof Hb as (Hdst & Hop & Hacc).
  pose proof (MaxCompressedSize_bound (len src) Hsrc) as Hmax.
  pose proof (pending_bytes_length src e (len src) ltac:(lia) ltac:(lia))
    as Hpl.
  pose proof (len_nonneg (encode (e_log e))).
  assert (Hg : e_isFirstOutput e = false →
               len src - e_litStart e = 0 ∨ 4 <= len src - e_litStart e).
  { intros Hf. rewrite Hf in Hst. lia. }
  destruct (with_pending_ok src e (len src) Hinv ltac:(lia) Hg)
    as (Hwf1 & Hexp1 & _).
  assert (Hfit : 16 * (e_op e + len (pending_bytes src e (len src)) + 3)
                 <= 17 * len src + 1057).
  { rewrite Hpl. repeat branch; dlia. }
  exists (with_pending src e (len src)).
  split; [|split; [done|split; [rewrite Hexp1; apply take_ge; unfold len; lia|]]].
  - unfold finish. cbv zeta.
    rewrite (emit_pending_literals_ok src dst0 e (len src)) by (done || lia).
    sbind.
    rewrite emit_eof_next;
      [ | rewrite ?encode_with_pending, ?len_app; lia
        | rewrite ?encode_with_pending, ?len_app; lia ].
    sbind. rewrite encode_with_pending, len_app.
    do 4 f_equal; lia.
  - rewrite encode_with_pending, len_app. lia.
Qed.

(** [Compress] on a buffer of [MaxCompressedSize] bytes or more. *)
Lemma compress_logged_ok src dst :
  src ≠ [] → MaxCompressedSize (len src) <= len dst →
  ∃ log, compress_logged src dst
         = Val ((len (encode log) + 3, None,
                 splice dst 0 (encode log ++ eof_marker)), log)
    ∧ wf PStart [] log ∧ expand [] log = src
    ∧ len (encode log) + 3 <= MaxCompressedSize (len src).
Proof.
  intros Hne Hroom.
  assert (Hsrc : 0 < len src) by (destruct src; [done | unfold len; simpl; lia]).
  pose proof (MaxCompressedSize_bound (len src) Hsrc) as Hmax.
  unfold compress_logged. branch; [lia|]. branch.
  - exists [EvLiterals src true]. unfold compressLiteralsOnly.
    assert (Henc : enc_literals src true = [to_byte (len src + 17)] ++ src).
    { unfold enc_literals, lit_header. simpl. branch; [done | lia]. }
    assert (Hel : len (enc_literals src true) = 1 + len src).
    { rewrite Henc, len_app. done. }
    rewrite emitLiterals_spec by (done || lia). sbind.
    rewrite emit_eof_next by (done || lia). sbind.
    unfold encode. simpl. rewrite app_nil_r.
    split; [do 3 f_equal; lia|]. split.
    + split; [|done]. done.
    + split; [done|]. lia.
  - destruct (main_loop_ok (length src) src dst
                (Enc 0 0 0 true initial_table dst []))
      as (e & -> & Hinv & Hb & _); try done.
    + unfold einv. simpl. pose proof (initial_table_ok src).
      split; [lia|]. split; [lia|]. done.
    + simpl. unfold len. lia.
    + sbind. by apply finish_ok.
Qed.

(** * Decoding the stream of a log *)

(** The stream [cs] holds the bytes [bs] from index [ip] on. *)
Definition holds (cs : list byte) (ip : Z) (bs : list byte) : Prop :=
  0 <= ip <= len cs ∧ take (length bs) (drop (Z.to_nat ip) cs) = bs.

Lemma holds_len cs ip bs : holds cs ip bs → ip + len bs <= len cs.
Proof.
  intros [Hip Hbs]. apply (f_equal length) in Hbs.
  rewrite length_take, length_drop in Hbs. unfold len in *. lia.
Qed.

Lemma holds_app cs ip xs ys :
  holds cs ip (xs ++ ys) ↔ holds cs ip xs ∧ holds cs (ip + len xs) ys.
Proof.
  unfold holds, len. split.
  - intros [Hip H]. pose proof (holds_len cs ip (xs ++ ys) (conj Hip H)) as Hl.
    rewrite len_app in Hl. unfold len in Hl.
    rewrite length_app in H.
    rewrite <- (take_take_drop _ (length xs) (length ys)) in H.
    apply app_inj_1 in H as [H1 H2];
      [|rewrite length_take, length_drop; lia].
    split; [done|]. split; [unfold len in *; lia|].
    rewrite drop_drop in H2.
    replace (Z.to_nat (ip + Z.of_nat (length xs)))
      with (Z.to_nat ip + length xs)%nat by lia. done.
  - intros [[Hip H1] [_ H2]]. split; [done|].
    rewrite length_app, <- (take_take_drop _ (length xs) (length ys)).
    rewrite H1. f_equal. rewrite drop_drop.
    replace (Z.to_nat (ip + Z.of_nat (length xs)))
      with (Z.to_nat ip + length xs)%nat in H2 by lia. done.
Qed.

Lemma holds_cons cs ip b bs :
  holds cs ip (b :: bs) →
  load cs ip = Val b ∧ ip < len cs ∧ holds cs (ip + 1) bs.
Proof.
  intros H. change (b :: bs) with ([b] ++ bs) in H.
  apply holds_app in H as [H1 H2]. change (len [b]) with 1 in H2.
  pose proof (holds_len _ _ _ H1) as Hl. change (len [b]) with 1 in Hl.
  split; [|split; [lia | done]].
  destruct H1 as [Hip H1]. apply load_Val. split; [lia|].
  apply (f_equal (λ l, l !! 0%nat)) in H1. simpl in H1.
  rewrite lookup_take_lt, lookup_drop, Nat.add_0_r in H1 by lia. done.
Qed.

Lemma holds_take cs ip bs :
  holds cs ip bs → take (Z.to_nat (len bs)) (drop (Z.to_nat ip) cs) = bs.
Proof. intros [_ H]. unfold len. by rewrite Nat2Z.id. Qed.

Lemma holds_lookup cs ip bs i b :
  holds cs ip bs → bs !! i = Some b → cs !! (Z.to_nat ip + i)%nat = Some b.
Proof.
  intros [Hip H] Hi. rewrite <- H in Hi.
  apply lookup_take_Some in Hi as [Hi _]. by rewrite lookup_drop in Hi.
Qed.

(** The zero-byte loop over the successor bytes of an extended length. *)
Lemma skip_zeros_holds fuel cs ip t r :
  1 <= r → holds cs ip (ext_bytes r) → len cs - ip <= Z.of_nat fuel →
  skip_zeros fuel cs ip t
  = Val (ip + (r - 1) / 255, t + 255 * ((r - 1) / 255)).
Proof.
  intros Hr Hh Hfuel. pose proof (holds_len _ _ _ Hh) as Hl.
  rewrite ext_bytes_length in Hl by done.
  assert (Hq : 0 <= (r - 1) / 255) by (apply Z.div_pos; lia).
  pose proof Hh as [Hip _].
  destruct (skip_zeros_spec fuel cs ip t) as (ip' & -> & Hrange & Hz & Hnz);
    [lia | done |].
  assert (Hlast : cs !! Z.to_nat (ip + (r - 1) / 255)
                  = Some (to_byte (r - 255 * ((r - 1) / 255)))).
  { replace (Z.to_nat (ip + (r - 1) / 255))
      with (Z.to_nat ip + Z.to_nat ((r - 1) / 255))%nat by lia.
    apply (holds_lookup _ _ _ _ _ Hh). unfold ext_bytes.
    rewrite lookup_app_r; rewrite length_replicate; [|lia].
    by rewrite Nat.sub_diag. }
  assert (Hfinal : u8 (to_byte (r - 255 * ((r - 1) / 255))) ≠ 0).
  { rewrite u8_to_byte_small; dlia. }
  assert (Hzero : ∀ i, ip <= i < ip + (r - 1) / 255 →
                       cs !! Z.to_nat i = Some x00).
  { intros i Hi.
    replace (Z.to_nat i) with (Z.to_nat ip + Z.to_nat (i - ip))%nat by lia.
    apply (holds_lookup _ _ _ _ _ Hh). unfold ext_bytes.
    rewrite lookup_app_l by (rewrite length_replicate; lia).
    apply lookup_replicate. split; [done | lia]. }
  assert (ip' = ip + (r - 1) / 255) as ->; [|do 2 f_equal; lia].
  destruct (Z.lt_trichotomy ip' (ip + (r - 1) / 255)) as [Hlt|[->|Hgt]];
    [|done|].
  - destruct (Hnz ltac:(lia)) as (b & Hb & Hbnz).
    rewrite Hzero in Hb by lia. injection Hb as <-. done.
  - rewrite Hz in Hlast by lia. injection Hlast as Hc.
    rewrite <- Hc in Hfinal. done.
Qed.

Lemma extended_holds cs d ip t base r k :
  1 <= r → holds cs ip (ext_bytes r) →
  extended cs d ip t base k = k (ip + len (ext_bytes r)) (t + base + r).
Proof.
  intros Hr Hh. pose proof (holds_len _ _ _ Hh) as Hl.
  pose proof Hh as [Hip _].
  rewrite ext_bytes_length in * by done.
  assert (Hq : 0 <= (r - 1) / 255) by (apply Z.div_pos; lia).
  unfold extended.
  rewrite (skip_zeros_holds _ _ _ _ r) by (done || unfold len; lia). sbind.
  branch; [lia|].
  assert (Hlast : load cs (ip + (r - 1) / 255)
                  = Val (to_byte (r - 255 * ((r - 1) / 255)))).
  { apply load_Val. split; [lia|].
    replace (Z.to_nat (ip + (r - 1) / 255))
      with (Z.to_nat ip + Z.to_nat ((r - 1) / 255))%nat by lia.
    apply (holds_lookup _ _ _ _ _ Hh). unfold ext_bytes.
    rewrite lookup_app_r; rewrite length_replicate; [|lia].
    by rewrite Nat.sub_diag. }
  rewrite Hlast. sbind. rewrite u8_to_byte_small by dlia.
  f_equal; lia.
Qed.

(** ** The offset bytes *)

Lemma offset_bytes_u8 off :
  0 <= off →
  ∃ b0 b1, offset_bytes off = [b0; b1]
    ∧ u8 b0 = (off / 64) mod 256 ∧ u8 b1 = (off mod 64) * 4
    ∧ Z.land (u8 b1) 3 = 0.
Proof.
  intros Hoff. unfold offset_bytes. eexists _, _. split; [done|].
  bits. change (2 ^ 6) with 64. change (2 ^ 2) with 4.
  rewrite !u8_to_byte_small by dlia. repeat split. dlia.
Qed.

Lemma match_m3_tail_holds cs d ip mLen off :
  0 <= off < 0x4000 → holds cs ip (offset_bytes off) →
  match_m3_tail cs d ip mLen = lookbehind d (ip + 2) (off + 1) (mLen + 2).
Proof.
  intros Hoff Hh.
  destruct (offset_bytes_u8 off) as (b0 & b1 & Hob & H0 & H1 & _); [lia|].
  rewrite Hob in Hh. pose proof (holds_len _ _ _ Hh) as Hl.
  change (len [b0; b1]) with 2 in Hl.
  apply holds_cons in Hh as (Hl0 & _ & Hh).
  apply holds_cons in Hh as (Hl1 & _ & _).
  unfold match_m3_tail. branch; [lia|]. rewrite Hl0. sbind.
  rewrite Hl1. sbind. f_equal. rewrite H0, H1. bits. dlia.
Qed.

Lemma match_m4_tail_holds cs d ip mLen o :
  1 <= o <= 0x7fff → holds cs ip (offset_bytes o) →
  match_m4_tail cs d (o / 2 ^ 14 mod 2 * 2 ^ 14) ip mLen
  = lookbehind d (ip + 2) (o + m4MaxOffset) (mLen + 2).
Proof.
  intros Hoff Hh.
  destruct (offset_bytes_u8 o) as (b0 & b1 & Hob & H0 & H1 & _); [lia|].
  rewrite Hob in Hh. pose proof (holds_len _ _ _ Hh) as Hl.
  change (len [b0; b1]) with 2 in Hl.
  apply holds_cons in Hh as (Hl0 & _ & Hh).
  apply holds_cons in Hh as (Hl1 & _ & _).
  unfold match_m4_tail. branch; [lia|]. rewrite Hl0. sbind.
  rewrite Hl1. sbind.
  assert (Hsum : o / 2 ^ 14 mod 2 * 2 ^ 14
                 + (Z.shiftl (u8 b0) 6 + Z.shiftr (u8 b1) 2) = o).
  { rewrite H0, H1. bits. change (2 ^ 14) with 16384. dlia. }
  rewrite Hsum. branch; [lia|]. done.
Qed.

(** ** The tags of the match opcodes *)

Lemma m3_tag_u8 length :
  3 <= length <= 33 → u8 (to_byte (Z.lor 0x20 (length - 2))) = 30 + length.
Proof.
  intros H. change 0x20 with (1 * 2 ^ 5).
  rewrite lor_add_low by lia. rewrite u8_to_byte_small; lia.
Qed.

Lemma m4_high_bit o :
  0 <= o → Z.land (Z.shiftr o 11) 0x08 = o / 2 ^ 14 mod 2 * 8.
Proof.
  intros H. change 0x08 with (2 ^ 3). rewrite land_bit, shiftr_div by lia.
  rewrite Z.div_div by lia. done.
Qed.

Lemma m4_tag_u8 h l :
  0 <= h <= 1 → 0 <= l <= 7 →
  u8 (to_byte (Z.lor (Z.lor 0x10 (h * 8)) l)) = 16 + h * 8 + l.
Proof.
  intros Hh Hl. change 0x10 with (1 * 2 ^ 4).
  rewrite (lor_add_low 1 (h * 8) 4) by lia.
  replace (1 * 2 ^ 4 + h * 8) with ((2 + h) * 2 ^ 3) by lia.
  rewrite lor_add_low by lia. rewrite u8_to_byte_small; lia.
Qed.

Lemma m4_tag_decode h l :
  0 <= h <= 1 → 0 <= l <= 7 →
  Z.shiftl (Z.land (16 + h * 8 + l) 8) 11 = h * 2 ^ 14
  ∧ Z.land (16 + h * 8 + l) 7 = l.
Proof.
  intros Hh Hl. change 8 with (2 ^ 3) at 2.
  rewrite land_bit, land_7, shiftl_mul by lia.
  change (2 ^ 3) with 8. change (2 ^ 11) with 2048. change (2 ^ 14) with 16384.
  split; dlia.
Qed.

(** ** Paths of the decoder that never reuse the last offset *)

(** The decoder is about to parse an M2 opcode with offset reuse. *)
Definition at_reuse (cs : list byte) (d : dec) : Prop :=
  d_state d = stateMatch
  ∧ ∃ b, load cs (d_ip d) = Val b ∧ 64 <= u8 b ∧ 0x1c <= Z.land (u8 b) 0x1f.

Inductive path (cs : list byte) : dec → dec → Prop :=
  | path_refl d : path cs d d
  | path_step d d1 d2 :
      ¬ at_reuse cs d → dstep cs d d1 → path cs d1 d2 → path cs d d2.

Lemma path_one cs d d' : ¬ at_reuse cs d → dstep cs d d' → path cs d d'.
Proof. intros. eapply path_step; [done | done | apply path_refl]. Qed.

Lemma path_trans cs d1 d2 d3 : path cs d1 d2 → path cs d2 d3 → path cs d1 d3.
Proof.
  induction 1 as [|d d1 d2 Hn Hs _ IH]; [done|].
  intros H3. eapply path_step; [done | done | by apply IH].
Qed.

Lemma path_reach cs d d' : path cs d d' → reach cs d d'.
Proof.
  induction 1 as [|d d1 d2 Hn Hs _ IH]; [apply rtc_refl|].
  by eapply rtc_l.
Qed.

Lemma dstep_det cs d d1 d2 : dstep cs d d1 → dstep cs d d2 → d1 = d2.
Proof. intros [_ H1] [_ H2]. congruence. Qed.

(** On a path that ends in [stateEOF] every state the loop passes through
    lies on the path. *)
Lemma path_covers cs d dE d' :
  path cs d dE → d_state dE = stateEOF → reach cs d d' → ¬ at_reuse cs d'.
Proof.
  intros Hp HE. revert d'.
  induction Hp as [d|d d1 d2 Hn Hs Hp IH]; intros d' Hr.
  - apply rtc_inv in Hr as [->|(d1 & [Hne _] & _)]; [|done].
    intros [Hm _]. congruence.
  - apply rtc_inv in Hr as [->|(d1' & Hs' & Hr)]; [done|].
    rewrite (dstep_det _ _ _ _ Hs' Hs) in Hr. by apply IH.
Qed.

Definition with_state (d : dec) (s : dstate) : dec :=
  Dec (d_ip d) (d_op d) (d_lastMOff d) s (d_dst d).

(** The state of the decoder between two opcodes of a well-formed stream. *)
Definition ready (cs : list byte) (d : dec) (p : prev) : Prop :=
  match p with
  | PStart => d_state d = stateStart
  | PLit => d_state d = stateMatchNext ∨ d_state d = stateFirstLiteralRun
  | PMatch =>
      d_state d = stateMatchDone
      ∧ ∃ b, load cs (d_ip d - 1) = Val b ∧ Z.land (u8 b) 3 = 0
  end.

Lemma not_reuse_state cs d : d_state d ≠ stateMatch → ¬ at_reuse cs d.
Proof. intros H [Hm _]. done. Qed.

Lemma load_lt {A} (l : list A) i a : load l i = Val a → 0 <= i < len l.
Proof.
  intros H. apply load_Val in H as [Hi Hl]. apply lookup_lt_Some in Hl.
  unfold len. lia.
Qed.

Lemma step_to_literal_run cs d b :
  0 <= d_op d → load cs (d_ip d - 1) = Val b → Z.land (u8 b) 3 = 0 →
  d_ip d <= len cs → d_state d = stateMatchDone →
  dstep cs d (with_state d stateLiteralRun).
Proof.
  intros Ho Hb Hz Hip Hs. split; [congruence|].
  rewrite (step_match_done_spec cs d b) by done. cbv zeta. rewrite Hz. done.
Qed.

(** Before an opcode whose tag is 16 or more the decoder comes to
    [stateMatch] without consuming input. *)
Lemma to_match cs d p b :
  ready cs d p → p ≠ PStart → 0 <= d_op d →
  load cs (d_ip d) = Val b → 16 <= u8 b →
  path cs d (with_state d stateMatch).
Proof.
  intros Hr Hp Ho Hb Ht. pose proof (load_lt _ _ _ Hb) as Hlt.
  assert (Hlr : ∀ d0, d_ip d0 = d_ip d → d_state d0 = stateLiteralRun →
            dstep cs d0 (with_state d0 stateMatch)).
  { intros d0 Hip0 Hs0. split; [congruence|].
    unfold step. rewrite Hs0. unfold step_literal_run. rewrite Hip0.
    branch; [lia|]. rewrite Hb. sbind. branch; [|lia].
    unfold goto, with_state. rewrite Hip0. do 3 f_equal. lia. }
  destruct p; [done| |].
  - apply path_one; [apply not_reuse_state; destruct Hr; congruence|].
    destruct Hr as [Hs|Hs]; (split; [congruence|]); unfold step; rewrite Hs.
    + done.
    + unfold step_first_literal_run. branch; [lia|]. rewrite Hb. sbind.
      branch; [|lia]. unfold goto, with_state. do 3 f_equal. lia.
  - destruct Hr as (Hs & b' & Hb' & Hz).
    eapply path_step;
      [ apply not_reuse_state; congruence
      | by apply (step_to_literal_run cs d b'); try lia |].
    apply path_one; [by apply not_reuse_state|].
    by apply (Hlr (with_state d stateLiteralRun)).
Qed.

(** Before a literal-run header, a tag of 15 or less, the decoder comes to
    [stateLiteralRun] without consuming input. *)
Lemma to_literal_run cs d p b :
  ready cs d p → p ≠ PLit → 0 <= d_op d →
  load cs (d_ip d) = Val b → u8 b <= 15 →
  path cs d (with_state d stateLiteralRun).
Proof.
  intros Hr Hp Ho Hb Ht. pose proof (load_lt _ _ _ Hb) as Hlt.
  destruct p; [| done |].
  - simpl in Hr. apply path_one; [apply not_reuse_state; congruence|].
    split; [congruence|]. unfold step. rewrite Hr. unfold step_start.
    branch; [lia|]. rewrite Hb. sbind. branch; [lia|]. done.
  - destruct Hr as (Hs & b' & Hb' & Hz).
    apply path_one; [apply not_reuse_state; congruence|].
    apply (step_to_literal_run cs d b'); try done; lia.
Qed.

(** ** Decoding a match *)

Lemma holds_last cs ip xs b :
  holds cs ip (xs ++ [b]) → load cs (ip + len (xs ++ [b]) - 1) = Val b.
Proof.
  intros H. apply holds_app in H as [_ H]. apply holds_cons in H as [H _].
  rewrite len_app. change (len [b]) with 1.
  by replace (ip + (len xs + 1) - 1) with (ip + len xs) by lia.
Qed.

(** The last byte of a match opcode has its two low bits clear: the encoder
    never announces trailing literals. *)
Lemma enc_match_last cs ip offset length :
  3 <= length → 1 <= offset <= maxOffset →
  holds cs ip (enc_match offset length) →
  ∃ b, load cs (ip + len (enc_match offset length) - 1) = Val b
    ∧ Z.land (u8 b) 3 = 0.
Proof.
  intros Hlen Hoff. unfold maxOffset in Hoff. unfold enc_match.
  assert (Hlow : ∀ off, 0 <= off →
            Z.land (u8 (to_byte (Z.shiftl (Z.land off 0x3f) 2))) 3 = 0).
  { intros off Ho. bits. rewrite u8_to_byte_small by dlia. dlia. }
  assert (Hfront : ∀ front off,
            0 <= off → holds cs ip (front ++ offset_bytes off) →
            ∃ b, load cs (ip + len (front ++ offset_bytes off) - 1) = Val b
              ∧ Z.land (u8 b) 3 = 0).
  { intros front off Ho Hh. unfold offset_bytes in *.
    change [?a; ?b] with ([a] ++ [b]) in *. rewrite app_assoc in *.
    eexists. split; [by apply holds_last|]. by apply Hlow. }
  destruct ((3 <=? length) && (length <=? 4) && (1 <=? offset)
            && (offset <=? 0x700)) eqn:E2.
  { intros Hh. change [?a; ?b] with ([a] ++ [b]) in *.
    eexists. split; [by apply holds_last|]. apply Hlow. lia. }
  destruct ((3 <=? length) && (1 <=? offset) && (offset <=? 0x4000)) eqn:E3.
  { apply Hfront. lia. }
  destruct ((0x4000 <? offset) && (offset <=? 0xbfff)) eqn:E4.
  { cbv zeta. apply Hfront. cmp. lia. }
  exfalso.
  apply andb_false_iff in E3, E4.
  destruct E3 as [E3|E3]; [apply andb_false_iff in E3; destruct E3|]; cmp;
    lia.
Qed.

(** What [stateMatch] does on the bytes of an emitted match. *)
Lemma step_enc_match cs d offset length :
  d_state d = stateMatch →
  3 <= length → 1 <= offset <= maxOffset →
  holds cs (d_ip d) (enc_match offset length) →
  step cs d
  = lookbehind d (d_ip d + len (enc_match offset length)) offset length
  ∧ ∃ t, load cs (d_ip d) = Val t ∧ 16 <= u8 t
      ∧ ¬ (64 <= u8 t ∧ 0x1c <= Z.land (u8 t) 0x1f).
Proof.
  intros Hs Hlen Hoff. unfold maxOffset in Hoff. unfold enc_match.
  unfold step. rewrite Hs. unfold step_match.
  destruct ((3 <=? length) && (length <=? 4) && (1 <=? offset)
            && (offset <=? 0x700)) eqn:E2.
  { cmp. intros Hh.
    destruct (m2_tag_bits offset length) as (Ht & Ht64 & Htl & Hq); [lia..|].
    pose proof (holds_len _ _ _ Hh) as Hl. change (len [_; _]) with 2 in *.
    apply holds_cons in Hh as (Hl0 & Hlt & Hh).
    apply holds_cons in Hh as (Hl1 & _ & _).
    split.
    - branch; [lia|]. rewrite Hl0. sbind. branch; [|lia].
      unfold match_m2. rewrite Htl. branch; [lia|]. branch; [lia|].
      rewrite Hl1. sbind.
      replace (d_ip d + 1 + 1) with (d_ip d + 2) by lia. f_equal.
      + bits. rewrite u8_to_byte_small by dlia. dlia.
      + rewrite Ht. bits. dlia.
    - eexists. split; [done|]. split; [lia|]. rewrite Htl. lia. }
  destruct ((3 <=? length) && (1 <=? offset) && (offset <=? 0x4000)) eqn:E3.
  { cmp. intros Hh. destruct (length <=? 33) eqn:E33; cmp.
    - change ([?a] ++ ?l) with (a :: l) in Hh.
      pose proof (holds_len _ _ _ Hh) as Hl.
      apply holds_cons in Hh as (Hl0 & Hlt & Hh).
      change (len ([_] ++ offset_bytes (offset - 1))) with 3 in *.
      split.
      + branch; [lia|]. rewrite Hl0. sbind. rewrite m3_tag_u8 by lia.
        branch; [lia|]. branch; [|lia].
        unfold match_m3. rewrite land_31. branch; [dlia|].
        rewrite (match_m3_tail_holds cs d _ _ (offset - 1)) by (done || lia).
        f_equal; try lia. dlia.
      + eexists. split; [done|]. rewrite m3_tag_u8 by lia. lia.
    - change ((?a :: ?l) ++ ?m) with (a :: (l ++ m)) in Hh.
      pose proof (holds_len _ _ _ Hh) as Hl.
      apply holds_cons in Hh as (Hl0 & Hlt & Hh).
      apply holds_app in Hh as [Hext Hob].
      rewrite len_app.
      change (to_byte 32 :: ext_bytes (length - 2 - 31))
        with ([to_byte 32] ++ ext_bytes (length - 2 - 31)).
      rewrite len_app. change (len [to_byte 32]) with 1.
      change (len (offset_bytes (offset - 1))) with 2.
      split.
      + branch; [lia|]. rewrite Hl0. sbind.
        change (u8 (to_byte 32)) with 32. simpl.
        unfold match_m3. simpl.
        rewrite (extended_holds cs d _ _ _ (length - 2 - 31)) by (done || lia).
        rewrite (match_m3_tail_holds cs d _ _ (offset - 1)) by (done || lia).
        change (Z.land 32 31) with 0. f_equal; lia.
      + eexists. split; [done|]. change (u8 (to_byte 32)) with 32.
        simpl. lia. }
  destruct ((0x4000 <? offset) && (offset <=? 0xbfff)) eqn:E4.
  { cmp. cbv zeta. intros Hh.
    set (o := offset - 0x4000) in *.
    assert (Ho : 1 <= o <= 0x7fff) by (subst o; lia).
    rewrite m4_high_bit in * by lia.
    set (h := o / 2 ^ 14 mod 2) in *.
    assert (Hh01 : 0 <= h <= 1) by (subst h; dlia).
    destruct (length <=? 9) eqn:E9; cmp.
    - change ([?a] ++ ?l) with (a :: l) in Hh.
      pose proof (holds_len _ _ _ Hh) as Hl.
      apply holds_cons in Hh as (Hl0 & Hlt & Hh).
      change (len ([_] ++ offset_bytes o)) with 3 in *.
      destruct (m4_tag_decode h (length - 2)) as [Hd1 Hd2]; [lia..|].
      split.
      + branch; [lia|]. rewrite Hl0. sbind.
        rewrite m4_tag_u8 by lia.
        branch; [lia|]. branch; [lia|]. branch; [|lia].
        unfold match_m4. rewrite Hd1, Hd2. branch; [lia|].
        rewrite (match_m4_tail_holds cs d _ _ o) by (done || lia).
        unfold m4MaxOffset. f_equal; subst o; lia.
      + eexists. split; [done|]. rewrite m4_tag_u8 by lia. lia.
    - change ((?a :: ?l) ++ ?m) with (a :: (l ++ m)) in Hh.
      pose proof (holds_len _ _ _ Hh) as Hl.
      apply holds_cons in Hh as (Hl0 & Hlt & Hh).
      apply holds_app in Hh as [Hext Hob].
      rewrite len_app.
      match goal with
      | |- context [len (?t :: ext_bytes ?r)] =>
          change (t :: ext_bytes r) with ([t] ++ ext_bytes r);
          rewrite len_app; change (len [t]) with 1
      end.
      change (len (offset_bytes o)) with 2.
      pose proof (m4_tag_u8 h 0 Hh01 ltac:(lia)) as Htag.
      rewrite Z.lor_0_r, Z.add_0_r in Htag.
      destruct (m4_tag_decode h 0) as [Hd1 Hd2]; [lia..|].
      rewrite Z.add_0_r in Hd1, Hd2.
      split.
      + branch; [lia|]. rewrite Hl0. sbind. rewrite Htag.
        branch; [lia|]. branch; [lia|]. branch; [|lia].
        unfold match_m4. rewrite Hd1, Hd2. simpl Z.eqb. cbv iota.
        rewrite (extended_holds cs d _ _ _ (length - 2 - 7)) by (done || lia).
        rewrite (match_m4_tail_holds cs d _ _ o) by (done || lia).
        unfold m4MaxOffset. f_equal; subst o; lia.
      + eexists. split; [done|]. rewrite Htag. lia. }
  exfalso.
  apply andb_false_iff in E3, E4.
  destruct E3 as [E3|E3]; [apply andb_false_iff in E3; destruct E3|]; cmp;
    lia.
Qed.

(** ** Decoding a literal run *)

Lemma lit_header_tag L :
  4 <= L → ∃ t rest, lit_header false L = t :: rest ∧ u8 t <= 15.
Proof.
  intros H. unfold lit_header. simpl. branch.
  - eexists _, _. split; [done|]. rewrite u8_to_byte_small; lia.
  - eexists _, _. split; [done|]. done.
Qed.

Lemma lit_header_later L isFirst :
  4 <= L → lit_header isFirst L = lit_header false L.
Proof.
  intros H. unfold lit_header. destruct isFirst; [|done]. simpl.
  branch; [lia | done].
Qed.

Lemma appended_dst cs d ip lit next :
  holds cs ip lit → 0 <= d_op d →
  d_dst (appended cs d ip (len lit) next)
  = splice (d_dst d) (Z.to_nat (d_op d)) lit.
Proof.
  intros Hh Ho. unfold appended, splice. simpl.
  rewrite (holds_take _ _ _ Hh). do 3 f_equal. unfold len. lia.
Qed.

(** What [stateLiteralRun] does on the bytes of a run of four or more. *)
Lemma step_enc_literals cs d lit :
  d_state d = stateLiteralRun → 0 <= d_op d → 4 <= len lit →
  d_op d + len lit <= len (d_dst d) →
  holds cs (d_ip d) (lit_header false (len lit) ++ lit) →
  step cs d
  = Val (Next (appended cs d (d_ip d + len (lit_header false (len lit)))
                 (len lit) stateFirstLiteralRun)).
Proof.
  intros Hs Ho HL Hroom Hh.
  apply holds_app in Hh as [Hhdr Hlit].
  pose proof (holds_len _ _ _ Hlit) as Hll.
  pose proof Hlit as [[Hip' _] _].
  unfold step. rewrite Hs. unfold step_literal_run.
  unfold lit_header in *. simpl andb in *. cbv iota in *.
  destruct (len lit <=? 18) eqn:E18; cmp.
  - apply holds_cons in Hhdr as (Hl0 & Hlt & _).
    change (len [_]) with 1 in *.
    branch; [lia|]. rewrite Hl0. sbind.
    rewrite u8_to_byte_small by lia.
    branch; [lia|]. branch; [lia|].
    replace (len lit - 3 + 3) with (len lit) by lia.
    rewrite literals_spec by lia.
    branch; [lia|]. branch; [lia|]. done.
  - apply holds_cons in Hhdr as (Hl0 & Hlt & Hext).
    change (x00 :: ext_bytes (len lit - 18))
      with ([x00] ++ ext_bytes (len lit - 18)) in *.
    rewrite len_app in *. change (len [x00]) with 1 in *.
    branch; [lia|]. rewrite Hl0. sbind. change (u8 x00) with 0. simpl.
    rewrite (extended_holds cs d _ _ _ (len lit - 18)) by (done || lia).
    replace (0 + 15 + (len lit - 18) + 3) with (len lit) by lia.
    rewrite literals_spec by lia.
    branch; [lia|]. branch; [lia|].
    by rewrite Z.add_assoc.
Qed.

(** ** Decoding one opcode of a well-formed stream *)

(** The decoder stands between two opcodes with [out] decoded so far. *)
Definition sim (cs : list byte) (d : dec) (p : prev) (out : list byte) : Prop :=
  ready cs d p ∧ d_op d = len out ∧ take (length out) (d_dst d) = out.

Lemma sim_room cs d p out : sim cs d p out → len out <= len (d_dst d).
Proof.
  intros (_ & _ & Ht). apply (f_equal length) in Ht.
  rewrite length_take in Ht. unfold len. lia.
Qed.

Lemma splice_out (dst out bs : list byte) :
  take (length out) dst = out →
  (length out + length bs <= length dst)%nat →
  take (length (out ++ bs)) (splice dst (length out) bs) = out ++ bs.
Proof.
  intros Ht Hroom. rewrite length_app, splice_take by lia. by rewrite Ht.
Qed.

Lemma decode_literals cs d p out lit isFirst :
  sim cs d p out → event_ok p out (EvLiterals lit isFirst) →
  holds cs (d_ip d) (enc_literals lit isFirst) →
  len (out ++ lit) <= len (d_dst d) →
  ∃ d', path cs d d' ∧ sim cs d' PLit (out ++ lit)
    ∧ d_ip d' = d_ip d + len (enc_literals lit isFirst)
    ∧ length (d_dst d') = length (d_dst d).
Proof.
  intros (Hr & Hop & Hout) [Hne Hp] Hh Hroom.
  rewrite len_app in Hroom. pose proof (len_nonneg out).
  assert (HL : 0 < len lit) by (destruct lit; [done | unfold len; simpl; lia]).
  unfold enc_literals in *.
  assert (Hlong : 4 <= len lit → p ≠ PLit →
            holds cs (d_ip d) (lit_header false (len lit) ++ lit) →
            ∃ d', path cs d d' ∧ sim cs d' PLit (out ++ lit)
              ∧ d_ip d' = d_ip d + len (lit_header false (len lit) ++ lit)
              ∧ length (d_dst d') = length (d_dst d)).
  { intros H4 Hpl Hh'.
    destruct (lit_header_tag (len lit) H4) as (t & rest & Hhdr & Ht).
    pose proof Hh' as Hh''. rewrite Hhdr in Hh''.
    apply holds_cons in Hh'' as (Hl0 & _ & _).
    pose proof (to_literal_run cs d p t Hr Hpl ltac:(lia) Hl0 Ht) as Hpath.
    pose proof (step_enc_literals cs (with_state d stateLiteralRun) lit
                  eq_refl ltac:(simpl; lia) H4 ltac:(simpl; lia) Hh') as Hstep.
    eexists. split.
    { eapply path_trans; [exact Hpath|].
      apply path_one; [by apply not_reuse_state|]. split; [done | exact Hstep]. }
    apply holds_app in Hh' as [_ Hlit].
    split; [|split].
    - split; [by right|]. split; [simpl; rewrite len_app; lia|].
      rewrite (appended_dst _ _ _ _ _ Hlit) by (simpl; lia). simpl. rewrite Hop.
      unfold len at 1. rewrite Nat2Z.id.
      apply splice_out; [done | unfold len in *; lia].
    - simpl. rewrite len_app. lia.
    - rewrite (appended_dst _ _ _ _ _ Hlit) by (simpl; lia). simpl.
      apply splice_length. unfold len in *. lia. }
  destruct p; [| done |].
  - subst isFirst. destruct (Z.le_gt_cases 4 (len lit)) as [H4|H3].
    + rewrite lit_header_later in * by done. by apply Hlong.
    + unfold lit_header in *. simpl andb in *.
      destruct (len lit <=? 3) eqn:E3; cmp; [|lia].
      pose proof Hh as Hh'.
      apply holds_cons in Hh' as (Hl0 & Hlt & Hlit).
      pose proof (holds_len _ _ _ Hlit) as Hll.
      pose proof Hlit as [[Hip' _] _].
      simpl in Hr.
      assert (Hstep : step cs d
                = Val (Next (appended cs d (d_ip d + 1) (len lit)
                               stateMatchNext))).
      { unfold step. rewrite Hr. unfold step_start.
        branch; [lia|]. rewrite Hl0. sbind.
        rewrite u8_to_byte_small by lia.
        branch; [|lia]. replace (len lit + 17 - 17) with (len lit) by lia.
        branch; [|lia]. rewrite literals_spec by lia.
        branch; [lia|]. branch; [lia|]. done. }
      eexists. split.
      { apply path_one; [apply not_reuse_state; congruence|].
        split; [congruence | exact Hstep]. }
      split; [|split].
      * split; [by left|]. split; [simpl; rewrite len_app; lia|].
        rewrite (appended_dst _ _ _ _ _ Hlit) by (simpl; lia). rewrite Hop.
        unfold len at 1. rewrite Nat2Z.id.
        apply splice_out; [done | unfold len in *; lia].
      * rewrite len_app. change (len [_]) with 1. unfold appended. simpl. lia.
      * rewrite (appended_dst _ _ _ _ _ Hlit) by (simpl; lia).
        apply splice_length. unfold len in *. lia.
  - destruct Hp as [-> H4]. by apply Hlong.
Qed.

Lemma decode_match cs d p out offset mlen :
  sim cs d p out → event_ok p out (EvMatch offset mlen) →
  holds cs (d_ip d) (enc_match offset mlen) →
  len out + mlen <= len (d_dst d) →
  ∃ d', path cs d d'
    ∧ sim cs d' PMatch (lz_copy (Z.to_nat mlen) out (Z.to_nat offset))
    ∧ d_ip d' = d_ip d + len (enc_match offset mlen)
    ∧ length (d_dst d') = length (d_dst d).
Proof.
  intros (Hr & Hop & Hout) (Hp & Hoff & Hoo & Hlen) Hh Hroom.
  pose proof (len_nonneg out).
  destruct (step_enc_match cs (with_state d stateMatch) offset mlen
              eq_refl ltac:(lia) Hoff Hh) as (Hstep & t & Hl0 & Ht & Hnr).
  simpl in Hstep, Hl0.
  pose proof (to_match cs d p t Hr Hp ltac:(lia) Hl0 Ht) as Hpath.
  rewrite lookbehind_spec in Hstep by (simpl; lia). simpl in Hstep.
  revert Hstep. branch; [lia|]. branch; [lia|]. intros Hstep.
  destruct (enc_match_last cs (d_ip d) offset mlen ltac:(lia) Hoff Hh)
    as (bl & Hbl & Hbz).
  assert (Hcl : length (lz_copy (Z.to_nat mlen) out (Z.to_nat offset))
                = (length out + Z.to_nat mlen)%nat).
  { apply lz_copy_length. unfold len in *. lia. }
  eexists. split.
  { eapply path_trans; [exact Hpath|]. apply path_one.
    - intros [_ (b & Hb & Hb64 & Hb1c)]. simpl in Hb.
      rewrite Hl0 in Hb. injection Hb as <-. tauto.
    - split; [done | exact Hstep]. }
  assert (Htake : take (Z.to_nat (len out)) (d_dst d) = out).
  { unfold len. by rewrite Nat2Z.id. }
  unfold copied. simpl. rewrite Hop, !Htake.
  split; [|split].
  - split; [|split].
    + simpl. eauto.
    + simpl. unfold len. rewrite Hcl. lia.
    + simpl. apply take_app_length.
  - done.
  - rewrite length_app, Hcl, length_drop. unfold len in *. lia.
Qed.

Lemma decode_event cs d p out ev :
  sim cs d p out → event_ok p out ev →
  holds cs (d_ip d) (encode_event ev) →
  len (apply_event out ev) <= len (d_dst d) →
  ∃ d', path cs d d' ∧ sim cs d' (after ev) (apply_event out ev)
    ∧ d_ip d' = d_ip d + len (encode_event ev)
    ∧ length (d_dst d') = length (d_dst d).
Proof.
  intros Hsim Hev Hh Hroom. destruct ev as [lit isFirst|offset mlen].
  - by apply (decode_literals cs d p).
  - apply (decode_match cs d p); try done. simpl in Hroom.
    destruct Hev as (_ & Hoff & Hoo & Hlen).
    unfold len in Hroom. rewrite lz_copy_length in Hroom
      by (unfold len in *; lia).
    unfold len. lia.
Qed.

(** ** Decoding the EOF marker and a whole stream *)

Lemma decode_eof cs d p out :
  sim cs d p out → holds cs (d_ip d) eof_marker →
  ∃ d', path cs d d' ∧ d_state d' = stateEOF
    ∧ d_op d' = d_op d ∧ d_dst d' = d_dst d ∧ d_ip d' = d_ip d + 3.
Proof.
  intros (Hr & Hop & Hout) Hh. pose proof (len_nonneg out).
  pose proof (holds_len _ _ _ Hh) as Hl. change (len eof_marker) with 3 in Hl.
  unfold eof_marker in Hh.
  apply holds_cons in Hh as (Hl0 & Hlt & Hh).
  apply holds_cons in Hh as (Hl1 & _ & Hh).
  apply holds_cons in Hh as (Hl2 & _ & _).
  assert (Ht : u8 (to_byte 17) = 17) by done.
  assert (Hz : u8 (to_byte 0) = 0) by done.
  set (dm := with_state d stateMatch).
  assert (Hfinal : path cs dm (Dec (d_ip d + 3) (d_op d) (d_lastMOff d)
                                 stateEOF (d_dst d))).
  { apply path_one.
    - intros [_ (b & Hb & Hb64 & _)]. simpl in Hb. rewrite Hl0 in Hb.
      injection Hb as <-. rewrite Ht in Hb64. lia.
    - split; [done|]. unfold step. simpl. unfold step_match. simpl.
      branch; [lia|]. rewrite Hl0. sbind. rewrite Ht. simpl.
      unfold match_m4. simpl. unfold match_m4_tail.
      branch; [lia|]. rewrite Hl1. sbind.
      rewrite Hl2. sbind. rewrite Hz. simpl. unfold goto. simpl.
      do 3 f_equal. lia. }
  assert (Hpath : path cs d dm).
  { destruct p.
    - simpl in Hr.
      eapply path_step; [apply not_reuse_state; congruence | |].
      + split; [congruence|]. unfold step. rewrite Hr. unfold step_start.
        branch; [lia|]. rewrite Hl0. sbind. rewrite Ht. simpl. done.
      + apply path_one; [by apply not_reuse_state|].
        split; [done|]. unfold step. simpl. unfold step_literal_run. simpl.
        branch; [lia|]. rewrite Hl0. sbind. rewrite Ht. simpl.
        unfold goto, dm, with_state. simpl. do 3 f_equal. lia.
    - apply (to_match cs d PLit (to_byte 17)); try done; try lia;
        rewrite Ht; lia.
    - apply (to_match cs d PMatch (to_byte 17)); try done; try lia;
        rewrite Ht; lia. }
  eexists. split; [by eapply path_trans|]. done.
Qed.

Lemma expand_grows p out log : wf p out log → len out <= len (expand out log).
Proof.
  revert p out. induction log as [|ev log IH]; intros p out Hwf; simpl; [lia|].
  destruct Hwf as [Hev Hwf]. specialize (IH _ _ Hwf).
  assert (len out <= len (apply_event out ev)); [|lia].
  destruct ev as [lit isFirst|offset mlen]; simpl.
  - rewrite len_app. pose proof (len_nonneg lit). lia.
  - destruct Hev as (_ & Hoff & Hoo & Hlen). unfold len in *.
    rewrite lz_copy_length by lia. lia.
Qed.

Lemma decode_log cs d p out log :
  sim cs d p out → wf p out log →
  holds cs (d_ip d) (encode log ++ eof_marker) →
  len (expand out log) <= len (d_dst d) →
  ∃ d', path cs d d' ∧ d_state d' = stateEOF
    ∧ d_op d' = len (expand out log)
    ∧ take (length (expand out log)) (d_dst d') = expand out log
    ∧ length (d_dst d') = length (d_dst d)
    ∧ d_ip d' = d_ip d + len (encode log ++ eof_marker).
Proof.
  revert d p out. induction log as [|ev log IH]; intros d p out Hsim Hwf Hh Hroom.
  - simpl in *. destruct (decode_eof cs d p out Hsim Hh)
      as (d' & Hp & Hs & Ho & Hd & Hip).
    exists d'. destruct Hsim as (_ & Hop & Hout).
    rewrite Hd, Ho. done.
  - destruct Hwf as [Hev Hwf]. simpl in Hroom.
    unfold encode in Hh. simpl in Hh. rewrite <- app_assoc in Hh.
    apply holds_app in Hh as [Hhev Hhrest].
    pose proof (expand_grows _ _ _ Hwf) as Hgrow.
    destruct (decode_event cs d p out ev Hsim Hev Hhev ltac:(lia))
      as (d1 & Hp1 & Hsim1 & Hip1 & Hlen1).
    rewrite <- Hip1 in Hhrest.
    destruct (IH d1 _ _ Hsim1 Hwf Hhrest)
      as (d' & Hp' & Hs' & Ho' & Hd' & Hlen' & Hip').
    { unfold len in *. rewrite Hlen1. done. }
    exists d'. split; [by eapply path_trans|]. simpl.
    split; [done|]. split; [done|]. split; [done|].
    split; [congruence|].
    rewrite Hip', Hip1. unfold encode. simpl. rewrite <- app_assoc.
    rewrite (len_app (encode_event ev)). fold (encode log). lia.
Qed.

(** [Decompress] on the stream of a well-formed log returns what the log
    expands to, and never takes the offset-reuse branch on the way. *)
Lemma Decompress_encode log dst :
  wf PStart [] log → len (expand [] log) <= len dst →
  let cs := encode log ++ eof_marker in
  ∃ out,
    Decompress cs dst = Val (len (expand [] log), None, out)
    ∧ take (length (expand [] log)) out = expand [] log
    ∧ length out = length dst
    ∧ ∀ d, reach cs (Dec 0 0 0 stateStart dst) d → ¬ at_reuse cs d.
Proof.
  intros Hwf Hroom cs.
  destruct (decode_log cs (Dec 0 0 0 stateStart dst) PStart [] log)
    as (d' & Hp & Hs & Ho & Hd & Hlen & _); try done.
  { split; [pose proof (len_nonneg cs); simpl; lia|].
    simpl. by apply take_ge. }
  exists (d_dst d'). split; [|split; [done|split; [done|]]].
  - apply path_reach in Hp.
    assert (Hrun : run 0 cs d' = Val (d_op d', None, d_dst d')).
    { cbn [run]. by destruct (decide (d_state d' = stateEOF)). }
    destruct (run_reach _ _ _ _ _ Hp Hrun) as [fuel Hf].
    rewrite <- Ho. apply (Decompress_run cs dst fuel); [|exact Hf].
    subst cs. unfold eof_marker. by destruct (encode log).
  - intros d Hr.
    by apply (path_covers cs (Dec 0 0 0 stateStart dst) d').
Qed.
(** * The claims of the specification *)



(** C5.  An M2 opcode (tag [t >= 64]) whose low five bits are at least
    [0x1c] reads no offset byte: the pass consumes the tag only, its outcome
    does not depend on any other input byte, and the match is copied at
    distance [lastMOff].  When [lastMOff] is zero the pass, and with it
    [Decompress], returns [ErrLookbehindOverrun]. *)
Theorem m2_offset_reuse (src : list byte) (d : dec) (b : byte) :
  0 <= d_op d → 0 <= d_lastMOff d →
  d_state d = stateMatch → load src (d_ip d) = Val b →
  64 <= u8 b → 0x1c <= Z.land (u8 b) 0x1f →
  step src d =
    (if d_lastMOff d =? 0 then fail d ErrLookbehindOverrun
     else if d_op d <? d_lastMOff d then fail d ErrLookbehindOverrun
     else if len (d_dst d) <? d_op d + m2_length (u8 b)
     then fail d ErrOutputOverrun
     else Val (Next (copied d (d_ip d + 1) (d_lastMOff d) (m2_length (u8 b)))))
  ∧ (∀ src', load src' (d_ip d) = Val b → step src' d = step src d)
  ∧ (d_lastMOff d = 0 →
     ∀ fuel, run (S fuel) src d
             = Val (d_op d, Some ErrLookbehindOverrun, d_dst d)).
Proof.
  intros Ho Hl Hs Hb Ht Hoff.
  pose proof (step_m2_reuse src d b Ho Hl Hs Hb Ht Hoff) as Hstep.
  split; [done|]. split.
  - intros src' Hb'. rewrite Hstep. by apply step_m2_reuse.
  - intros H0 fuel. cbn [run].
    destruct (decide (d_state d = stateEOF)) as [He|_]; [congruence|].
    rewrite Hstep, H0. done.
Qed.

Lemma m2_offset_reuse_witness :
  let src := bytes [0x12; 0x41; 0x40; 0x00; 0x5c; 0x11; 0x00; 0x00] in
  let d := Dec 4 4 1 stateMatch (bytes [0x41; 0x41; 0x41; 0x41; 0; 0; 0; 0]) in
  (0 <= d_op d ∧ 0 <= d_lastMOff d ∧ d_state d = stateMatch
   ∧ load src (d_ip d) = Val (to_byte 0x5c)
   ∧ 64 <= u8 (to_byte 0x5c) ∧ 0x1c <= Z.land (u8 (to_byte 0x5c)) 0x1f)
  ∧ step src d
    = Val (Next (Dec 5 7 1 stateMatchDone
                   (bytes [0x41; 0x41; 0x41; 0x41; 0x41; 0x41; 0x41; 0]))).
Proof.
  intros src d.
  assert (H : 0 <= d_op d ∧ 0 <= d_lastMOff d ∧ d_state d = stateMatch
    ∧ load src (d_ip d) = Val (to_byte 0x5c)
    ∧ 64 <= u8 (to_byte 0x5c) ∧ 0x1c <= Z.land (u8 (to_byte 0x5c)) 0x1f).
  { repeat split; vm_compute; congruence. }
  split; [exact H|].
  destruct H as (H1 & H2 & H3 & H4 & H5 & H6).
  destruct (m2_offset_reuse src d (to_byte 0x5c) H1 H2 H3 H4 H5 H6)
    as [Hstep _].
  rewrite Hstep. vm_compute. reflexivity.
Defined.

(** C6, as the specification states it, fails: an M2 tag of 128 or more
    encodes a copy of five to eight bytes.  The tag [0x80] after one literal
    byte copies five bytes at distance one. *)
Lemma m2_tag_0x80_copies_five :
  let src := bytes [0x12; 0x41; 0x80; 0x00; 0x11; 0x00; 0x00] in
  let d := Dec 2 1 0 stateMatch (bytes [0x41; 0; 0; 0; 0; 0]) in
  let d' := Dec 4 6 1 stateMatchDone
              (bytes [0x41; 0x41; 0x41; 0x41; 0x41; 0x41]) in
  load src (d_ip d) = Val (to_byte 0x80) ∧ 64 <= u8 (to_byte 0x80)
  ∧ step src d = Val (Next d')
  ∧ d_op d' - d_op d = 5
  ∧ Decompress src (zeros 6)
    = Val (6, None, bytes [0x41; 0x41; 0x41; 0x41; 0x41; 0x41]).
Proof. cbv zeta. repeat split; vm_compute; congruence. Qed.

(** C6, amended.  For every M2 opcode (tag [t >= 64]) that the decoder
    completes, the output grows by exactly [((t >> 5) - 1) + 2] bytes, the
    bytes of the lookbehind copy at the match offset; this length lies
    between 3 and 8, and it is 3 or 4 exactly when [t < 128]. *)
Theorem m2_copy_length (src : list byte) (d d' : dec) (b : byte) :
  0 <= d_op d → 0 <= d_lastMOff d →
  d_state d = stateMatch → load src (d_ip d) = Val b → 64 <= u8 b →
  step src d = Val (Next d') →
  let mLen := (Z.shiftr (u8 b) 5 - 1) + 2 in
  d_op d' = d_op d + mLen
  ∧ d_dst d' = lz_copy (Z.to_nat mLen) (take (Z.to_nat (d_op d)) (d_dst d))
                 (Z.to_nat (d_lastMOff d'))
               ++ drop (Z.to_nat (d_op d + mLen)) (d_dst d)
  ∧ 3 <= mLen <= 8
  ∧ (mLen <= 4 ↔ u8 b < 128).
Proof.
  intros Ho Hl Hs Hb Ht Hstep mLen. pose proof (u8_range b) as Hr.
  assert (Hlen : 3 <= mLen <= 8 ∧ (mLen <= 4 ↔ u8 b < 128)).
  { subst mLen. bits. split; [dlia|]. split; intros; dlia. }
  assert (Hd' : ∃ ip mOff, d' = copied d ip mOff mLen).
  { fold (m2_length (u8 b)) in mLen.
    destruct (Z.le_gt_cases 0x1c (Z.land (u8 b) 0x1f)) as [Hoff|Hoff].
    - rewrite (step_m2_reuse src d b) in Hstep by done.
      revert Hstep. unfold fail. repeat branch; intros [= <-]. eauto.
    - rewrite (step_m2_fresh src d b) in Hstep by (done || lia).
      revert Hstep. unfold fail. branch; [done|].
      destruct (load src (d_ip d + 1)) as [b'| |]; [|done..]. sbind.
      cbv zeta. repeat branch; intros [= <-]. eauto. }
  destruct Hd' as (ip & mOff & ->). simpl. tauto.
Qed.

Lemma m2_copy_length_witness :
  let src := bytes [0x12; 0x41; 0x80; 0x00; 0x11; 0x00; 0x00] in
  let d := Dec 2 1 0 stateMatch (bytes [0x41; 0; 0; 0; 0; 0]) in
  let d' := Dec 4 6 1 stateMatchDone
              (bytes [0x41; 0x41; 0x41; 0x41; 0x41; 0x41]) in
  (0 <= d_op d ∧ 0 <= d_lastMOff d ∧ d_state d = stateMatch
   ∧ load src (d_ip d) = Val (to_byte 0x80) ∧ 64 <= u8 (to_byte 0x80)
   ∧ step src d = Val (Next d'))
  ∧ d_op d' = d_op d + 5.
Proof.
  intros src d d'.
  assert (H : 0 <= d_op d ∧ 0 <= d_lastMOff d ∧ d_state d = stateMatch
    ∧ load src (d_ip d) = Val (to_byte 0x80) ∧ 64 <= u8 (to_byte 0x80)
    ∧ step src d = Val (Next d')).
  { repeat split; vm_compute; congruence. }
  split; [exact H|].
  destruct H as (H1 & H2 & H3 & H4 & H5 & H6).
  exact (proj1 (m2_copy_length src d d' (to_byte 0x80) H1 H2 H3 H4 H5 H6)).
Defined.

(** C7, as the specification states it, fails: the trailing-literal count
    after an M2 with offset reuse is read from the tag itself.  The reuse
    tag [0x5d] has low bits [01], and the pass that follows it copies one
    literal byte. *)
Lemma m2_reuse_carries_trailing_literal :
  let src := bytes [0x12; 0x41; 0x40; 0x00; 0x5d; 0x42; 0x11; 0x00; 0x00] in
  let d := Dec 4 4 1 stateMatch (bytes [0x41; 0x41; 0x41; 0x41; 0; 0; 0; 0]) in
  let d1 := Dec 5 7 1 stateMatchDone
              (bytes [0x41; 0x41; 0x41; 0x41; 0x41; 0x41; 0x41; 0]) in
  let d2 := Dec 6 8 1 stateMatchNext
              (bytes [0x41; 0x41; 0x41; 0x41; 0x41; 0x41; 0x41; 0x42]) in
  load src (d_ip d) = Val (to_byte 0x5d)
  ∧ 64 <= u8 (to_byte 0x5d) ∧ 0x1c <= Z.land (u8 (to_byte 0x5d)) 0x1f
  ∧ step src d = Val (Next d1)
  ∧ step src d1 = Val (Next d2)
  ∧ d_op d2 - d_op d1 = 1
  ∧ Decompress src (zeros 8)
    = Val (8, None, bytes [0x41; 0x41; 0x41; 0x41; 0x41; 0x41; 0x41; 0x42]).
Proof. cbv zeta. repeat split; vm_compute; congruence. Qed.

(** C7, amended.  After an M2 opcode with offset reuse the decoder is in
    [stateMatchDone] having consumed the tag [t] only, and the pass that
    follows inspects that tag: it copies exactly [t & 3] literal bytes from
    the input (or reports the overrun that prevents it), and copies none
    exactly when the low five bits of the tag are [0x1c]. *)
Theorem m2_reuse_trailing_literals (src : list byte) (d d1 : dec) (b : byte) :
  0 <= d_op d → 0 <= d_lastMOff d →
  d_state d = stateMatch → load src (d_ip d) = Val b →
  64 <= u8 b → 0x1c <= Z.land (u8 b) 0x1f →
  step src d = Val (Next d1) →
  let t := Z.land (u8 b) 3 in
  d_state d1 = stateMatchDone ∧ d_ip d1 = d_ip d + 1
  ∧ step src d1 =
      (if t =? 0 then goto d1 (d_ip d1) stateLiteralRun
       else if len (d_dst d1) <? d_op d1 + t then fail d1 ErrOutputOverrun
       else if len src <? d_ip d1 + t then fail d1 ErrInputOverrun
       else Val (Next (appended src d1 (d_ip d1) t stateMatchNext)))
  ∧ (t = 0 ↔ Z.land (u8 b) 0x1f = 0x1c).
Proof.
  intros Ho Hl Hs Hb Ht Hoff Hstep t. pose proof (u8_range b) as Hr.
  pose proof (m2_length_range (u8 b)) as Hm.
  apply load_Val in Hb as Hb'. destruct Hb' as [Hip Hlk].
  apply lookup_lt_Some in Hlk.
  rewrite (step_m2_reuse src d b) in Hstep by done.
  assert (Hd1 : d1 = copied d (d_ip d + 1) (d_lastMOff d) (m2_length (u8 b))).
  { revert Hstep. unfold fail. repeat branch; by intros [= <-]. }
  assert (Ht3 : 0 <= t < 4) by (subst t; bits; dlia).
  subst d1. cbn [copied d_state d_ip d_op].
  split; [done|]. split; [done|]. split.
  - erewrite step_match_done_spec; cbn [copied d_state d_ip d_op];
      [ | lia | done | by rewrite Z.add_simpl_r | unfold len; lia ].
    cbv zeta. fold t. branch; [done|].
    apply literals_spec; cbn [copied d_op]; lia.
  - subst t. revert Hoff. bits. intros. dlia.
Qed.

Lemma m2_reuse_trailing_literals_witness :
  let src := bytes [0x12; 0x41; 0x40; 0x00; 0x5d; 0x42; 0x11; 0x00; 0x00] in
  let d := Dec 4 4 1 stateMatch (bytes [0x41; 0x41; 0x41; 0x41; 0; 0; 0; 0]) in
  let d1 := Dec 5 7 1 stateMatchDone
              (bytes [0x41; 0x41; 0x41; 0x41; 0x41; 0x41; 0x41; 0]) in
  (0 <= d_op d ∧ 0 <= d_lastMOff d ∧ d_state d = stateMatch
   ∧ load src (d_ip d) = Val (to_byte 0x5d)
   ∧ 64 <= u8 (to_byte 0x5d) ∧ 0x1c <= Z.land (u8 (to_byte 0x5d)) 0x1f
   ∧ step src d = Val (Next d1))
  ∧ d_state d1 = stateMatchDone ∧ d_ip d1 = d_ip d + 1.
Proof.
  intros src d d1.
  assert (H : 0 <= d_op d ∧ 0 <= d_lastMOff d ∧ d_state d = stateMatch
    ∧ load src (d_ip d) = Val (to_byte 0x5d)
    ∧ 64 <= u8 (to_byte 0x5d) ∧ 0x1c <= Z.land (u8 (to_byte 0x5d)) 0x1f
    ∧ step src d = Val (Next d1)).
  { repeat split; vm_compute; congruence. }
  split; [exact H|].
  destruct H as (H1 & H2 & H3 & H4 & H5 & H6 & H7).
  destruct (m2_reuse_trailing_literals src d d1 (to_byte 0x5d)
              H1 H2 H3 H4 H5 H6 H7) as (Hs & Hi & _).
  exact (conj Hs Hi).
Defined.

(** C10, as the specification states it, fails in one corner: at the end of
    the input in [stateMatchDone], with a trailing-literal count that does
    not fit the output buffer, the output check comes first and the error
    is [ErrOutputOverrun], not [ErrInputOverrun]. *)
Lemma end_of_input_output_overrun :
  let src := bytes [0x12; 0x41; 0x40; 0x01] in
  let d := Dec 4 4 1 stateMatchDone (bytes [0x41; 0x41; 0x41; 0x41]) in
  reach src (Dec 0 0 0 stateStart (zeros 4)) d
  ∧ d_ip d = len src
  ∧ Decompress src (zeros 4)
    = Val (4, Some ErrOutputOverrun, bytes [0x41; 0x41; 0x41; 0x41]).
Proof.
  cbv zeta. split; [|split; vm_compute; reflexivity].
  eapply rtc_l; [split; [|vm_compute; reflexivity]; vm_compute; congruence|].
  eapply rtc_l; [split; [|vm_compute; reflexivity]; vm_compute; congruence|].
  eapply rtc_l; [split; [|vm_compute; reflexivity]; vm_compute; congruence|].
  apply rtc_refl.
Qed.

(** C10, amended.  For a non-empty input, [Decompress] succeeds only by
    passing from [stateMatch] to [stateEOF] through an M4 opcode whose
    decoded offset is zero, and it then returns the output position of that
    moment.  Whenever the loop is at the end of the input in a state other
    than [stateEOF], the call fails: with [ErrInputOverrun], or, in
    [stateMatchDone] with a non-zero trailing-literal count that exceeds the
    room left in the output, with [ErrOutputOverrun]. *)
Theorem Decompress_success_only_at_eof
  (src dst out : list byte) (n : Z) (err : option error) :
  src ≠ [] → Decompress src dst = Val (n, err, out) →
  (err = None →
   ∃ d d', reach src (Dec 0 0 0 stateStart dst) d
     ∧ d_state d = stateMatch ∧ step src d = Val (Next d')
     ∧ d_state d' = stateEOF ∧ eof_opcode src d d'
     ∧ n = d_op d' ∧ out = d_dst d')
  ∧ (∀ d, reach src (Dec 0 0 0 stateStart dst) d →
       d_state d ≠ stateEOF → len src <= d_ip d →
       err = Some ErrInputOverrun
       ∨ (err = Some ErrOutputOverrun ∧ d_state d = stateMatchDone
          ∧ ∃ b, load src (d_ip d - 1) = Val b ∧ Z.land (u8 b) 3 ≠ 0
                 ∧ len (d_dst d) < d_op d + Z.land (u8 b) 3)).
Proof.
  intros Hne Hdec. unfold Decompress in Hdec. revert Hdec.
  branch; [destruct src; [done | unfold len in *; simpl in *; lia]|].
  intros Hrun. split.
  - intros ->. apply run_success_eof in Hrun; [|done].
    destruct Hrun as (d1 & d2 & Hr & [_ Hstep] & Hm & He & Hop & -> & ->).
    exists d1, d2. done.
  - intros d Hr Hs Hip.
    destruct (run_reach_inv _ _ _ _ _ Hr Hrun) as [fuel' Hrun'].
    by destruct (run_at_end _ _ _ _ _ _ Hip Hs Hrun') as [H _].
Qed.

Lemma Decompress_success_only_at_eof_witness :
  let src := bytes [0x11; 0x00; 0x00] in
  (src ≠ [] ∧ Decompress src [] = Val (0, None, []))
  ∧ ∃ d d', reach src (Dec 0 0 0 stateStart []) d
      ∧ d_state d = stateMatch ∧ step src d = Val (Next d')
      ∧ d_state d' = stateEOF ∧ eof_opcode src d d'
      ∧ 0 = d_op d' ∧ [] = d_dst d'.
Proof.
  intros src.
  assert (H : src ≠ [] ∧ Decompress src [] = Val (0, None, [])).
  { split; [done | vm_compute; reflexivity]. }
  split; [exact H|]. destruct H as [H1 H2].
  exact (proj1 (Decompress_success_only_at_eof src [] [] 0 None H1 H2)
           eq_refl).
Defined.

(** C3 does not hold of the code.  The extended-length branch of
    [emitLiterals] that serves non-first runs, and first runs longer than
    238 bytes, writes its [0x00] prefix at [dst[op]] before any bounds
    check.  On 239 pairwise distinct bytes (no match is found, so the whole
    input is one literal run) and an empty [dst] the index is out of range
    and [Compress] panics instead of returning [ErrOutputOverrun]. *)
Theorem Compress_panics_on_empty_dst :
  Compress (bytes (map Z.of_nat (seq 0 239))) [] = Panic.
Proof. vm_compute. reflexivity. Qed.

(** C1.  For every input [x] of at most 64 KiB, a destination [dst] of
    [MaxCompressedSize (len x)] bytes or more and an output buffer [dst']
    of [len x] bytes or more: [Compress] succeeds, and [Decompress] on
    the [n] bytes it wrote succeeds, returns the length of [x] and leaves
    exactly [x] in the first [len x] bytes of the output. *)
Theorem round_trip (x dst dst' : list byte) :
  len x <= 65536 → MaxCompressedSize (len x) <= len dst → len x <= len dst' →
  ∃ n packed out,
    Compress x dst = Val (n, None, packed)
    ∧ Decompress (take (Z.to_nat n) packed) dst' = Val (len x, None, out)
    ∧ take (length x) out = x.
Proof.
  intros _ Hroom Hroom'. destruct (decide (x = [])) as [->|Hne].
  { exists 0, dst, dst'. done. }
  destruct (compress_logged_ok x dst Hne Hroom)
    as (log & Hc & Hwf & Hexp & Hsize).
  pose proof (len_nonneg (encode log)).
  destruct (Decompress_encode log dst' Hwf ltac:(by rewrite Hexp))
    as (out & Hd & Hout & _).
  rewrite Hexp in Hd, Hout.
  eexists _, _, out. unfold Compress. rewrite Hc. sbind.
  split; [done|]. split; [|done].
  replace (Z.to_nat (len (encode log) + 3))
    with (0 + length (encode log ++ eof_marker))%nat
    by (rewrite length_app; unfold len, eof_marker; simpl; lia).
  rewrite splice_take by lia. done.
Qed.

Lemma round_trip_witness :
  let x := bytes [0x41; 0x42] in
  (len x <= 65536 ∧ MaxCompressedSize (len x) <= len (zeros 69)
   ∧ len x <= len (zeros 2))
  ∧ ∃ n packed out,
      Compress x (zeros 69) = Val (n, None, packed)
      ∧ Decompress (take (Z.to_nat n) packed) (zeros 2)
        = Val (len x, None, out)
      ∧ take (length x) out = x.
Proof.
  intros x.
  assert (H : len x <= 65536 ∧ MaxCompressedSize (len x) <= len (zeros 69)
              ∧ len x <= len (zeros 2)).
  { repeat split; vm_compute; congruence. }
  split; [exact H|]. destruct H as (H1 & H2 & H3).
  exact (round_trip x (zeros 69) (zeros 2) H1 H2 H3).
Defined.

(** C4.  When the loop body has found a match and either output has been
    emitted already and one to three literals are pending, or the match
    would leave one to three bytes before the end of the input, the pass
    emits nothing and only advances [ip] by one.  Consequently, whatever
    the size of [dst], no literal run [Compress] emits is empty, and every
    run after the first has four bytes at least. *)
Theorem encoder_refuses_unencodable_matches (src dst : list byte) :
  (∀ e hashTable offset matchLen,
     find_match src (e_hashTable e) (e_ip e)
     = Val (hashTable, Some (offset, matchLen)) →
     (e_isFirstOutput e = false ∧ 1 <= e_ip e - e_litStart e <= 3)
     ∨ 1 <= len src - (e_ip e + matchLen) <= 3 →
     iter src e
     = Val (Continue (Enc (e_ip e + 1) (e_op e) (e_litStart e)
                          (e_isFirstOutput e) hashTable (e_dst e) (e_log e))))
  ∧ (∀ r log, compress_logged src dst = Val (r, log) →
     ∀ i lit isFirst, log !! i = Some (EvLiterals lit isFirst) →
       lit ≠ [] ∧ ((0 < i)%nat → 4 <= len lit)).
Proof.
  split.
  - intros e tbl offset matchLen Hfind Hgate. unfold iter. rewrite Hfind.
    sbind. unfold pending_unencodable, short_tail, skip.
    destruct Hgate as [[Hf Hlit]|Htail].
    + rewrite Hf. simpl.
      destruct (0 <? e_ip e - e_litStart e) eqn:E1; cmp; [|lia].
      destruct (e_ip e - e_litStart e <? 4) eqn:E2; cmp; [|lia]. done.
    + destruct (negb (e_isFirstOutput e) && (0 <? e_ip e - e_litStart e)
                && (e_ip e - e_litStart e <? 4)); [done|].
      destruct (0 <? len src - (e_ip e + matchLen)) eqn:E1; cmp; [|lia].
      destruct (len src - (e_ip e + matchLen) <? 4) eqn:E2; cmp; [|lia]. done.
  - intros r log Hc i lit isFirst Hi.
    pose proof (compress_logged_wf _ _ _ _ Hc) as Hwf.
    destruct (wf_literals _ _ _ _ _ _ Hwf Hi) as [Hne H4].
    split; [done|]. intros Hpos. apply H4. by left.
Qed.

Lemma encoder_refuses_unencodable_matches_witness :
  let src := bytes [0x41; 0x41; 0x41; 0x41; 0x41; 0x41; 0x41; 0x42] in
  let table_of r := match r with Val (t, _) => t | _ => [] end in
  let e := Enc 1 0 0 true (table_of (find_match src initial_table 0))
               (zeros 14) [] in
  let hashTable := table_of (find_match src (e_hashTable e) (e_ip e)) in
  let src' := bytes [0x41; 0x41; 0x41; 0x41; 0x41; 0x41; 0x41; 0x41; 0x41;
                     0x41; 0x42; 0x43; 0x44; 0x45; 0x46] in
  let lit := bytes [0x42; 0x43; 0x44; 0x45; 0x46] in
  let log := [EvLiterals (bytes [0x41]) true; EvMatch 1 9;
              EvLiterals lit false] in
  let r := (14, None,
            bytes [0x12; 0x41; 0x27; 0; 0; 2; 0x42; 0x43; 0x44; 0x45; 0x46;
                   0x11; 0; 0]) in
  ((find_match src (e_hashTable e) (e_ip e) = Val (hashTable, Some (1, 6))
    ∧ 1 <= len src - (e_ip e + 6) <= 3)
   ∧ iter src e
     = Val (Continue (Enc (e_ip e + 1) (e_op e) (e_litStart e)
                          (e_isFirstOutput e) hashTable (e_dst e) (e_log e))))
  ∧ (compress_logged src' (zeros 14) = Val (r, log)
     ∧ log !! 2%nat = Some (EvLiterals lit false) ∧ (0 < 2)%nat)
  ∧ lit ≠ [] ∧ 4 <= len lit.
Proof.
  intros src table_of e hashTable src' lit log r.
  assert (Hf : find_match src (e_hashTable e) (e_ip e)
               = Val (hashTable, Some (1, 6))).
  { reflexivity. }
  assert (Hg : 1 <= len src - (e_ip e + 6) <= 3) by (vm_compute; split; congruence).
  assert (Hc : compress_logged src' (zeros 14) = Val (r, log)).
  { reflexivity. }
  assert (Hi : log !! 2%nat = Some (EvLiterals lit false)) by reflexivity.
  assert (Hp : (0 < 2)%nat) by lia.
  split; [split; [by split|]|split; [by repeat split|]].
  - exact (proj1 (encoder_refuses_unencodable_matches src (zeros 14))
             e hashTable 1 6 Hf (or_intror Hg)).
  - destruct (proj2 (encoder_refuses_unencodable_matches src' (zeros 14))
                r log Hc 2%nat lit false Hi) as [Hne H4].
    exact (conj Hne (H4 Hp)).
Defined.

(** C8.  [MaxCompressedSize n] is [3] for [n = 0] and [n + n/16 + 64 + 3]
    otherwise, and on a destination of that many bytes or more [Compress]
    succeeds, writes at most [MaxCompressedSize (len src)] bytes and leaves
    the rest of the destination as it was. *)
Theorem MaxCompressedSize_bounds_Compress (src dst : list byte) :
  (∀ n, (n = 0 → MaxCompressedSize n = 3)
        ∧ (n ≠ 0 → MaxCompressedSize n = n + Z.quot n 16 + 64 + 3))
  ∧ (MaxCompressedSize (len src) <= len dst →
     ∃ n out,
       Compress src dst = Val (n, None, out)
       ∧ 0 <= n <= MaxCompressedSize (len src)
       ∧ drop (Z.to_nat n) out = drop (Z.to_nat n) dst
       ∧ length out = length dst).
Proof.
  split.
  - intros n. unfold MaxCompressedSize. split; intros H; branch; done.
  - intros Hroom. destruct (decide (src = [])) as [->|Hne].
    { exists 0, dst. done. }
    destruct (compress_logged_ok src dst Hne Hroom)
      as (log & Hc & Hwf & Hexp & Hsize).
    pose proof (len_nonneg (encode log)).
    eexists _, _. unfold Compress. rewrite Hc. sbind.
    split; [done|]. split; [lia|].
    assert (Hn : Z.to_nat (len (encode log) + 3)
                 = (0 + length (encode log ++ eof_marker))%nat).
    { rewrite length_app. unfold len, eof_marker. simpl. lia. }
    rewrite Hn. split.
    + apply splice_drop. lia.
    + apply splice_length. unfold len in *. lia.
Qed.

Lemma MaxCompressedSize_bounds_Compress_witness :
  let src := bytes [0x41; 0x42; 0x43; 0x44; 0x41; 0x42; 0x43; 0x44;
                    0x45; 0x46; 0x47; 0x48] in
  let dst := zeros 79 in
  ((0 = 0 ∧ MaxCompressedSize 0 = 3)
   ∧ (100 ≠ 0 ∧ MaxCompressedSize 100 = 100 + Z.quot 100 16 + 64 + 3))
  ∧ MaxCompressedSize (len src) <= len dst
  ∧ ∃ n out,
      Compress src dst = Val (n, None, out)
      ∧ 0 <= n <= MaxCompressedSize (len src)
      ∧ drop (Z.to_nat n) out = drop (Z.to_nat n) dst
      ∧ length out = length dst.
Proof.
  intros src dst.
  assert (H0 : 0 = 0) by reflexivity.
  assert (H100 : 100 ≠ 0) by lia.
  assert (Hroom : MaxCompressedSize (len src) <= len dst)
    by (vm_compute; congruence).
  split; [split; split|split]; try assumption.
  - exact (proj1 (proj1 (MaxCompressedSize_bounds_Compress src dst) 0) H0).
  - exact (proj2 (proj1 (MaxCompressedSize_bounds_Compress src dst) 100) H100).
  - exact (proj2 (MaxCompressedSize_bounds_Compress src dst) Hroom).
Defined.

(** C9.  The tag of every M2 opcode [emitMatch] writes is 64 or more and
    carries [(offset - 1) >> 6] in its low five bits, a value of [0x1b] at
    most since the band ends at offset [0x700]; and while [Decompress]
    decodes what [Compress] produced it is never about to parse an M2
    opcode whose low five tag bits are [0x1c] or more: the offset-reuse
    branch is never taken. *)
Theorem encoder_never_reuses_offset (src dst dst' : list byte) :
  (∀ buf offset length,
     4 <= len buf → 3 <= length <= 4 → 1 <= offset <= 0x700 →
     ∃ tag b1 rest,
       emitMatch buf offset length = Val (2, None, tag :: b1 :: rest)
       ∧ 64 <= u8 tag
       ∧ Z.land (u8 tag) 0x1f = Z.shiftr (offset - 1) 6
       ∧ Z.shiftr (offset - 1) 6 <= 0x1b)
  ∧ (MaxCompressedSize (len src) <= len dst → len src <= len dst' →
     ∃ n packed,
       Compress src dst = Val (n, None, packed)
       ∧ ∀ d, reach (take (Z.to_nat n) packed) (Dec 0 0 0 stateStart dst') d →
              ¬ at_reuse (take (Z.to_nat n) packed) d).
Proof.
  split.
  - intros buf offset length Hbuf Hlen Hoff.
    destruct (m2_tag_bits offset length Hlen Hoff) as (_ & H64 & Hlow & Hq).
    assert (Henc : enc_match offset length
                   = [to_byte (Z.lor (Z.shiftl (length - 1) 5)
                                 (Z.land (Z.shiftr (offset - 1) 6) 0x1f));
                      to_byte (Z.shiftl (Z.land (offset - 1) 0x3f) 2)]).
    { unfold enc_match.
      destruct ((3 <=? length) && (length <=? 4) && (1 <=? offset)
                && (offset <=? 0x700)) eqn:E; [done|].
      exfalso. repeat (apply andb_false_iff in E as [E|E]); cmp; lia. }
    rewrite emitMatch_spec; rewrite ?Henc; unfold maxOffset;
      change (len [_; _]) with 2; try lia.
    eexists _, _, _. split; [done|]. done.
  - intros Hroom Hroom'. destruct (decide (src = [])) as [->|Hne].
    { exists 0, dst. split; [done|]. simpl. intros d Hr.
      apply rtc_inv in Hr as [<-|(d1 & [_ Hstep] & _)]; [|done].
      by apply not_reuse_state. }
    destruct (compress_logged_ok src dst Hne Hroom)
      as (log & Hc & Hwf & Hexp & Hsize).
    pose proof (len_nonneg (encode log)).
    destruct (Decompress_encode log dst' Hwf ltac:(by rewrite Hexp))
      as (out & _ & _ & _ & Hnr).
    eexists _, _. unfold Compress. rewrite Hc. sbind.
    split; [done|].
    replace (Z.to_nat (len (encode log) + 3))
      with (0 + length (encode log ++ eof_marker))%nat
      by (rewrite length_app; unfold len, eof_marker; simpl; lia).
    rewrite splice_take by lia. exact Hnr.
Qed.

Lemma encoder_never_reuses_offset_witness :
  let src := bytes [0x41; 0x42; 0x43; 0x44; 0x41; 0x42; 0x43; 0x44;
                    0x45; 0x46; 0x47; 0x48] in
  let dst := zeros 79 in
  let dst' := zeros 12 in
  ((4 <= len (zeros 4) ∧ 3 <= 4 <= 4 ∧ 1 <= 0x700 <= 0x700)
   ∧ ∃ tag b1 rest,
       emitMatch (zeros 4) 0x700 4 = Val (2, None, tag :: b1 :: rest)
       ∧ 64 <= u8 tag
       ∧ Z.land (u8 tag) 0x1f = Z.shiftr (0x700 - 1) 6
       ∧ Z.shiftr (0x700 - 1) 6 <= 0x1b)
  ∧ (MaxCompressedSize (len src) <= len dst ∧ len src <= len dst')
  ∧ ∃ n packed,
      Compress src dst = Val (n, None, packed)
      ∧ ∀ d, reach (take (Z.to_nat n) packed) (Dec 0 0 0 stateStart dst') d →
             ¬ at_reuse (take (Z.to_nat n) packed) d.
Proof.
  intros src dst dst'.
  assert (H1 : 4 <= len (zeros 4) ∧ 3 <= 4 <= 4 ∧ 1 <= 0x700 <= 0x700)
    by (repeat split; vm_compute; congruence).
  assert (H2 : MaxCompressedSize (len src) <= len dst ∧ len src <= len dst')
    by (repeat split; vm_compute; congruence).
  split; [split; [exact H1|]|split; [exact H2|]].
  - destruct H1 as (Hb & Hl & Ho).
    exact (proj1 (encoder_never_reuses_offset src dst dst')
             (zeros 4) 0x700 4 Hb Hl Ho).
  - destruct H2 as (Hr & Hr').
    exact (proj2 (encoder_never_reuses_offset src dst dst') Hr Hr').
Defined.

(** * Further properties of the codec *)

(** ** The emitters on a destination of any size *)

Lemma store_length {A} (l : list A) i a l' :
  store l i a = Val l' → length l' = length l.
Proof.
  unfold store. destruct ((0 <=? i) && (i <? len l)); [|done].
  intros [= <-]. apply length_insert.
Qed.

Lemma store_out {A} (l : list A) i a : len l <= i → store l i a = Panic.
Proof.
  intros H. unfold store. destruct (0 <=? i); simpl; [|done].
  destruct (i <? len l) eqn:E; cmp; [lia | done].
Qed.

Lemma len_length {A} (l k : list A) : len l = len k ↔ length l = length k.
Proof. unfold len. lia. Qed.

(** The guarded successor bytes on a buffer they do not fit in. *)
Lemma emit_ext_checked_short fuel dst op r k :
  1 <= r → 0 <= op <= len dst → len dst < op + len (ext_bytes r) →
  (r - 1) / 255 <= Z.of_nat fuel →
  ∃ n out,
    emit_ext_checked fuel dst op r k = Val (n, Some ErrOutputOverrun, out)
    ∧ op <= n <= len dst ∧ length out = length dst.
Proof.
  revert dst op r. induction fuel as [|fuel IH]; intros dst op r Hr Ho Hroom Hf;
    cbn [emit_ext_checked].
  - assert (r <= 255) by dlia.
    branch; [lia|]. rewrite ext_bytes_small in Hroom by lia.
    change (len [to_byte r]) with 1 in Hroom.
    branch; [|lia]. exists op, dst. unfold overrun. split; [done|]. lia.
  - branch.
    + rewrite ext_bytes_large in Hroom by done.
      change (x00 :: ext_bytes (r - 255))
        with ([x00] ++ ext_bytes (r - 255)) in Hroom.
      rewrite len_app in Hroom. change (len [x00]) with 1 in Hroom.
      branch.
      * exists op, dst. unfold overrun. split; [done|]. lia.
      * rewrite store_in by lia. sbind.
        destruct (IH (<[Z.to_nat op := x00]> dst) (op + 1) (r - 255))
          as (n & out & -> & Hn & Hout);
          rewrite ?len_insert; try lia; [dlia|].
        exists n, out. split; [done|].
        rewrite len_insert in Hn. rewrite length_insert in Hout.
        split; [lia | done].
    + rewrite ext_bytes_small in Hroom by lia.
      change (len [to_byte r]) with 1 in Hroom.
      branch; [|lia]. exists op, dst. unfold overrun. split; [done|]. lia.
Qed.

(** [emitLiterals] on a destination the run does not fit in: the error,
    unless the branch whose first write is not guarded meets an empty
    destination. *)
Lemma emitLiterals_short lit dst isFirst :
  lit ≠ [] → len dst < len (enc_literals lit isFirst) →
  (emitLiterals lit dst isFirst = Panic
   ∧ len dst = 0 ∧ 18 < len lit ∧ isFirst && (len lit <=? 238) = false)
  ∨ (∃ n out,
       emitLiterals lit dst isFirst = Val (n, Some ErrOutputOverrun, out)
       ∧ 0 <= n <= len dst ∧ length out = length dst
       ∧ ¬ (len dst = 0 ∧ 18 < len lit
            ∧ isFirst && (len lit <=? 238) = false)).
Proof.
  intros Hne Hroom. unfold emitLiterals, enc_literals, lit_header in *.
  assert (0 < len lit) by (destruct lit; [done | unfold len; simpl; lia]).
  pose proof (len_nonneg dst) as Hd.
  rewrite len_app in Hroom.
  branch; [lia|]. clear E.
  destruct (isFirst && (len lit <=? 238)) eqn:Efirst.
  - right. exists 0, dst. unfold overrun.
    cmp. subst isFirst. simpl andb in *. branch.
    + change (len [_]) with 1 in Hroom. branch; [|lia].
      repeat split; try done; try lia; intros (? & ? & ?); done || lia.
    + branch.
      * change (len [_]) with 1 in Hroom. branch; [|lia].
        repeat split; try done; try lia; intros (? & ? & ?); done || lia.
      * rewrite ext_bytes_small in * by lia.
        change (len [_; _]) with 2 in Hroom. branch; [|lia].
        repeat split; try done; try lia; intros (? & ? & ?); done || lia.
  - assert (Hhdr : (if isFirst && (len lit <=? 3) then [to_byte (len lit + 17)]
                    else if len lit <=? 18 then [to_byte (len lit - 3)]
                    else x00 :: ext_bytes (len lit - 18))
                   = if len lit <=? 18 then [to_byte (len lit - 3)]
                     else x00 :: ext_bytes (len lit - 18)).
    { destruct isFirst; [|done]. simpl in *. cmp. branch; [lia | done]. }
    rewrite Hhdr in *. clear Hhdr. branch.
    + right. exists 0, dst. unfold overrun.
      change (len [_]) with 1 in Hroom. branch; [|lia].
      repeat split; try done; try lia; intros (? & ? & ?); done || lia.
    + change (x00 :: ext_bytes (len lit - 18))
        with ([x00] ++ ext_bytes (len lit - 18)) in *.
      rewrite len_app in Hroom. change (len [x00]) with 1 in Hroom.
      pose proof (len_nonneg (ext_bytes (len lit - 18))).
      destruct (decide (len dst = 0)) as [Hz|Hz].
      { left. rewrite store_out by lia. done. }
      right. rewrite store_first by lia. sbind.
      destruct (decide (1 + len (ext_bytes (len lit - 18)) <= len dst))
        as [Hfit|Hfit].
      * rewrite (emit_ext_checked_next _ dst [x00]); try done; try lia;
          [|dlia].
        unfold emit_payload. rewrite splice0_length
          by (rewrite len_app; change (len [x00]) with 1; lia).
        rewrite len_app. change (len [x00]) with 1.
        branch; [|lia]. unfold overrun. eexists _, _. split; [done|].
        split; [lia|]. split; [|intros (? & _); lia].
        apply len_length, splice0_length.
        rewrite len_app. change (len [x00]) with 1. lia.
      * destruct (emit_ext_checked_short
                    (Z.to_nat (len lit - 18)) (splice dst 0 [x00]) (0 + 1)
                    (len lit - 18) (emit_payload lit))
          as (n & out & -> & Hn & Hout);
          rewrite ?splice0_length by (change (len [x00]) with 1; lia);
          try lia; [dlia|].
        rewrite splice0_length in Hn by (change (len [x00]) with 1; lia).
        exists n, out. split; [done|]. split; [lia|].
        split; [|intros (? & _); lia].
        rewrite Hout. apply len_length, splice0_length.
        change (len [x00]) with 1. lia.
Qed.

Lemma splice0_payload (dst hdr lit : list byte) :
  take (length lit) (drop (length hdr) (splice dst 0 (hdr ++ lit))) = lit.
Proof.
  unfold splice. simpl. rewrite <- app_assoc, drop_app_length.
  apply take_app_length.
Qed.

(** The size of an opcode [emitMatch] writes. *)
Definition match_size (offset length : Z) : Z :=
  if (length <=? 4) && (offset <=? 0x700) then 2
  else if offset <=? 0x4000
       then (if length <=? 33 then 3 else 4 + (length - 34) / 255)
       else (if length <=? 9 then 3 else 4 + (length - 10) / 255).

Lemma enc_match_size offset length :
  3 <= length → 1 <= offset <= maxOffset →
  len (enc_match offset length) = match_size offset length.
Proof.
  intros Hl Ho. unfold maxOffset in Ho. unfold enc_match, match_size.
  destruct ((3 <=? length) && (length <=? 4) && (1 <=? offset)
            && (offset <=? 0x700)) eqn:E2.
  { cmp. branch; [done|]. apply andb_false_iff in E as [E|E]; cmp; lia. }
  assert (E2' : (length <=? 4) && (offset <=? 0x700) = false).
  { destruct ((length <=? 4) && (offset <=? 0x700)) eqn:E; [|done]. cmp.
    exfalso. repeat (apply andb_false_iff in E2 as [E2|E2]); cmp; lia. }
  rewrite E2'.
  destruct ((3 <=? length) && (1 <=? offset) && (offset <=? 0x4000)) eqn:E3.
  { cmp. destruct (offset <=? 0x4000) eqn:E4; cmp; [|lia]. rewrite len_app.
    change (len (offset_bytes (offset - 1))) with 2.
    destruct (length <=? 33) eqn:E33; cmp; [done|].
    change (to_byte 32 :: ext_bytes (length - 2 - 31))
      with ([to_byte 32] ++ ext_bytes (length - 2 - 31)).
    rewrite len_app, ext_bytes_length by lia.
    change (len [to_byte 32]) with 1.
    replace (length - 2 - 31 - 1) with (length - 34) by lia. lia. }
  assert (0x4000 < offset).
  { repeat (apply andb_false_iff in E3 as [E3|E3]); cmp; lia. }
  destruct (offset <=? 0x4000) eqn:E4; cmp; [lia|].
  destruct ((0x4000 <? offset) && (offset <=? 0xbfff)) eqn:E5;
    [|apply andb_false_iff in E5 as [E5|E5]; cmp; lia].
  cbv zeta. rewrite len_app.
  change (len (offset_bytes (offset - 16384))) with 2.
  destruct (length <=? 9) eqn:E9; cmp; [done|].
  match goal with
  | |- context [?t :: ext_bytes ?r] =>
      change (t :: ext_bytes r) with ([t] ++ ext_bytes r)
  end.
  rewrite len_app, ext_bytes_length by lia.
  change (len [_]) with 1.
  replace (length - 2 - 7 - 1) with (length - 10) by lia. lia.
Qed.

(** The unguarded successor bytes and the two offset bytes on a buffer they
    do not fit in: one of the stores is out of range. *)
Lemma emit_ext_short fuel dst op r b0 b1 :
  1 <= r → 0 <= op → len dst < op + len (ext_bytes r) + 2 →
  (r - 1) / 255 <= Z.of_nat fuel →
  ('(op, dst) ← emit_ext fuel dst op r; emit_offset dst op b0 b1) = Panic.
Proof.
  revert dst op r. induction fuel as [|fuel IH]; intros dst op r Hr Ho Hroom Hf;
    cbn [emit_ext].
  - assert (r <= 255) by dlia.
    branch; [lia|]. rewrite ext_bytes_small in Hroom by lia.
    change (len [to_byte r]) with 1 in Hroom.
    destruct (decide (op < len dst)) as [Hin|Hout];
      [|by rewrite store_out by lia].
    rewrite store_in by lia. sbind. unfold emit_offset.
    destruct (decide (op + 1 < len dst)) as [Hin1|Hout1];
      [|by rewrite store_out by (rewrite len_insert; lia)].
    rewrite store_in by (rewrite len_insert; lia). sbind.
    by rewrite store_out by (rewrite !len_insert; lia).
  - branch.
    + rewrite ext_bytes_large in Hroom by done.
      change (x00 :: ext_bytes (r - 255))
        with ([x00] ++ ext_bytes (r - 255)) in Hroom.
      rewrite len_app in Hroom. change (len [x00]) with 1 in Hroom.
      destruct (decide (op < len dst)) as [Hin|Hout];
        [|by rewrite store_out by lia].
      rewrite store_in by lia. sbind.
      apply IH; rewrite ?len_insert; try lia. dlia.
    + rewrite ext_bytes_small in Hroom by lia.
      change (len [to_byte r]) with 1 in Hroom.
      destruct (decide (op < len dst)) as [Hin|Hout];
        [|by rewrite store_out by lia].
      rewrite store_in by lia. sbind. unfold emit_offset.
      destruct (decide (op + 1 < len dst)) as [Hin1|Hout1];
        [|by rewrite store_out by (rewrite len_insert; lia)].
      rewrite store_in by (rewrite len_insert; lia). sbind.
      by rewrite store_out by (rewrite !len_insert; lia).
Qed.

(** [emitMatch] on a destination of four bytes or more that the opcode does
    not fit in. *)
Lemma emitMatch_short dst offset length :
  3 <= length → 1 <= offset <= maxOffset →
  4 <= len dst → len dst < match_size offset length →
  emitMatch dst offset length = Panic.
Proof.
  intros Hl Ho Hd Hroom. unfold maxOffset in Ho.
  unfold emitMatch. destruct (len dst <? 4) eqn:E0; cmp; [lia|].
  unfold match_size in Hroom.
  destruct ((length <=? 4) && (offset <=? 0x700)) eqn:E; [lia|].
  destruct ((3 <=? length) && (length <=? 4) && (1 <=? offset)
            && (offset <=? 0x700)) eqn:E2.
  { cmp. exfalso. apply andb_false_iff in E as [E|E]; cmp; lia. }
  destruct ((3 <=? length) && (1 <=? offset) && (offset <=? 0x4000)) eqn:E3.
  { cmp. destruct (offset <=? 0x4000) eqn:E4; cmp; [|lia].
    destruct (length <=? 33) eqn:E33; cmp; [lia|].
    rewrite store_in by lia. sbind.
    apply emit_ext_short; rewrite ?len_insert; try lia; [|dlia].
    rewrite ext_bytes_length by lia.
    replace (length - 2 - 31 - 1) with (length - 34) by lia. lia. }
  assert (0x4000 < offset).
  { repeat (apply andb_false_iff in E3 as [E3|E3]); cmp; lia. }
  destruct (offset <=? 0x4000) eqn:E4; cmp; [lia|].
  destruct ((0x4000 <? offset) && (offset <=? 0xbfff)) eqn:E5;
    [|apply andb_false_iff in E5 as [E5|E5]; cmp; lia].
  cbv zeta. destruct (length <=? 9) eqn:E9; cmp; [lia|].
  rewrite store_in by lia. sbind.
  apply emit_ext_short; rewrite ?len_insert; try lia; [|dlia].
  rewrite ext_bytes_length by lia.
  replace (length - 2 - 7 - 1) with (length - 10) by lia. lia.
Qed.

(** X1.  What [emitLiterals] does with a non-empty run on a destination of
    any size. The run takes its length plus a header of one byte (runs of
    18 bytes at most) or of [2 + (len - 19) / 255] bytes. If that fits, the
    call succeeds, returns that count, leaves the run itself as the last
    bytes written and the rest of the destination as it was. If it does not
    fit the call returns [ErrOutputOverrun] with a count inside the
    destination; the one exception is the branch that writes its first
    header byte before any check (runs over 18 bytes that are not a first
    run of 238 bytes at most), which panics on an empty destination. *)
Theorem emitLiterals_outcome (lit dst : list byte) (isFirst : bool) :
  lit ≠ [] →
  let need :=
    len lit + (if len lit <=? 18 then 1 else 2 + (len lit - 19) / 255) in
  if need <=? len dst then
    ∃ out,
      emitLiterals lit dst isFirst = Val (need, None, out)
      ∧ length out = length dst
      ∧ take (length lit) (drop (Z.to_nat (need - len lit)) out) = lit
      ∧ drop (Z.to_nat need) out = drop (Z.to_nat need) dst
  else if (len dst =? 0) && (18 <? len lit)
          && negb (isFirst && (len lit <=? 238))
  then emitLiterals lit dst isFirst = Panic
  else
    ∃ n out,
      emitLiterals lit dst isFirst = Val (n, Some ErrOutputOverrun, out)
      ∧ 0 <= n <= len dst ∧ length out = length dst.
Proof.
  intros Hne need.
  assert (Hpos : 0 < len lit) by (destruct lit; [done | unfold len; simpl; lia]).
  assert (Hneed : len (enc_literals lit isFirst) = need).
  { unfold enc_literals. rewrite len_app, lit_header_length by lia.
    subst need. lia. }
  pose proof (len_nonneg (lit_header isFirst (len lit))) as Hh.
  destruct (need <=? len dst) eqn:E; cmp.
  - rewrite emitLiterals_spec by (done || lia). rewrite Hneed.
    eexists. split; [done|]. split; [|split].
    + apply splice_length. unfold len in *. simpl. lia.
    + unfold enc_literals in *. rewrite len_app in Hneed.
      replace (Z.to_nat (need - len lit))
        with (length (lit_header isFirst (len lit))) by (unfold len in *; lia).
      apply splice0_payload.
    + replace (Z.to_nat need)
        with (0 + length (enc_literals lit isFirst))%nat
        by (unfold len in *; lia).
      apply splice_drop. lia.
  - destruct (emitLiterals_short lit dst isFirst Hne ltac:(lia))
      as [(Hp & Hz & H18 & Hf)|(n & out & Hr & Hn & Hout & Hnot)].
    + rewrite Hz, Hf. simpl.
      destruct (18 <? len lit) eqn:E18; cmp; [done | lia].
    + destruct ((len dst =? 0) && (18 <? len lit)
                && negb (isFirst && (len lit <=? 238))) eqn:Ec.
      * exfalso. apply Hnot. cmp. repeat split; assumption.
      * eauto.
Qed.

Lemma emitLiterals_outcome_witness :
  let lit := bytes [0x41; 0x42; 0x43; 0x44; 0x45] in
  let dst := zeros 8 in
  lit ≠ []
  ∧ ∃ out,
      emitLiterals lit dst false = Val (6, None, out)
      ∧ length out = length dst
      ∧ take (length lit) (drop (Z.to_nat (6 - len lit)) out) = lit
      ∧ drop (Z.to_nat 6) out = drop (Z.to_nat 6) dst.
Proof.
  intros lit dst.
  assert (H : lit ≠ []) by done.
  split; [exact H|]. exact (emitLiterals_outcome lit dst false H).
Defined.

Lemma emitMatch_refuses dst offset length :
  len dst < 4 ∨ offset < 1 ∨ 0xbfff < offset
  ∨ (length < 3 ∧ offset <= 0x4000) →
  emitMatch dst offset length = Val (0, Some ErrOutputOverrun, dst).
Proof.
  intros H. unfold emitMatch, overrun.
  destruct (len dst <? 4) eqn:E0; cmp; [done|].
  destruct ((3 <=? length) && (length <=? 4) && (1 <=? offset)
            && (offset <=? 0x700)) eqn:E2; [cmp; lia|].
  destruct ((3 <=? length) && (1 <=? offset) && (offset <=? 0x4000)) eqn:E3;
    [cmp; lia|].
  destruct ((0x4000 <? offset) && (offset <=? 0xbfff)) eqn:E4; [cmp; lia|].
  done.
Qed.

(** X2.  What [emitMatch] does on a destination of any size. It returns
    [ErrOutputOverrun], a count of zero and the destination untouched when
    the destination has fewer than four bytes, when the offset is outside
    [1, 0xbfff], and when the length is below three at an offset of
    [0x4000] at most. Otherwise, for a length of three or more, the opcode
    takes 2 bytes (M2: length 3 or 4, offset [0x700] at most), 3 bytes (M3
    up to length 33, M4 up to length 9) or [4 + (length - 34) / 255],
    respectively [4 + (length - 10) / 255], bytes. If that fits, the call
    succeeds, returns that count and leaves the rest of the destination as
    it was. If it does not, no check stops the writes and the call panics:
    once the destination has four bytes, an opcode that does not fit never
    yields [ErrOutputOverrun]. *)
Theorem emitMatch_outcome (dst : list byte) (offset length : Z) :
  (len dst < 4 ∨ offset < 1 ∨ 0xbfff < offset
   ∨ (length < 3 ∧ offset <= 0x4000) →
   emitMatch dst offset length = Val (0, Some ErrOutputOverrun, dst))
  ∧ (4 <= len dst → 3 <= length → 1 <= offset <= 0xbfff →
     let need :=
       if (length <=? 4) && (offset <=? 0x700) then 2
       else if offset <=? 0x4000
            then (if length <=? 33 then 3 else 4 + (length - 34) / 255)
            else (if length <=? 9 then 3 else 4 + (length - 10) / 255) in
     if need <=? len dst then
       ∃ out,
         emitMatch dst offset length = Val (need, None, out)
         ∧ len out = len dst
         ∧ drop (Z.to_nat need) out = drop (Z.to_nat need) dst
     else emitMatch dst offset length = Panic).
Proof.
  split; [apply emitMatch_refuses|].
  intros Hd Hl Ho need.
  pose proof (enc_match_size offset length Hl Ho) as Hsz.
  change (match_size offset length) with need in Hsz.
  pose proof (len_nonneg (enc_match offset length)).
  destruct (need <=? len dst) eqn:E; cmp.
  - rewrite emitMatch_spec by (done || lia). rewrite Hsz.
    eexists. split; [done|]. split.
    + apply splice0_length. lia.
    + rewrite <- Hsz. unfold len. rewrite Nat2Z.id.
      apply (splice_drop dst 0 (enc_match offset length)). lia.
  - by apply emitMatch_short.
Qed.

Lemma emitMatch_outcome_witness :
  ((len (zeros 9) < 4 ∨ 0xc000 < 1 ∨ 0xbfff < 0xc000
    ∨ (5 < 3 ∧ 0xc000 <= 0x4000))
   ∧ emitMatch (zeros 9) 0xc000 5 = Val (0, Some ErrOutputOverrun, zeros 9))
  ∧ (4 <= len (zeros 4) ∧ 3 <= 600 ∧ 1 <= 1 <= 0xbfff)
  ∧ emitMatch (zeros 4) 1 600 = Panic.
Proof.
  assert (H : len (zeros 9) < 4 ∨ 0xc000 < 1 ∨ 0xbfff < 0xc000
              ∨ (5 < 3 ∧ 0xc000 <= 0x4000)) by (right; right; left; lia).
  assert (H' : 4 <= len (zeros 4) ∧ 3 <= 600 ∧ 1 <= 1 <= 0xbfff)
    by (repeat split; vm_compute; congruence).
  split; [split; [exact H|]|split; [exact H'|]].
  - exact (proj1 (emitMatch_outcome (zeros 9) 0xc000 5) H).
  - destruct H' as (H1 & H2 & H3).
    exact (proj2 (emitMatch_outcome (zeros 4) 1 600) H1 H2 H3).
Defined.



(** ** [Compress] on inputs of three bytes at most *)

Lemma compressLiteralsOnly_short src dst :
  1 <= len src <= 3 →
  compressLiteralsOnly src dst =
    if len dst <? len src + 1 then Val (0, Some ErrOutputOverrun, dst)
    else if len dst <? len src + 4
    then Val (len src + 1, Some ErrOutputOverrun,
              splice dst 0 (enc_literals src true))
    else Val (len src + 4, None,
              splice dst 0 (enc_literals src true ++ eof_marker)).
Proof.
  intros Hlen. unfold compressLiteralsOnly.
  assert (Hne : src ≠ []) by (intros ->; unfold len in Hlen; simpl in Hlen; lia).
  assert (Henc : enc_literals src true = to_byte (len src + 17) :: src).
  { unfold enc_literals, lit_header. simpl.
    destruct (len src <=? 3) eqn:E; cmp; [done | lia]. }
  assert (Hl : len (enc_literals src true) = len src + 1).
  { rewrite Henc. unfold len. simpl. lia. }
  destruct (len dst <? len src + 1) eqn:E1; cmp.
  - unfold emitLiterals.
    destruct (len src =? 0) eqn:E0'; cmp; [lia|]. simpl.
    destruct (len src <=? 238) eqn:E238; cmp; [|lia].
    destruct (len src <=? 3) eqn:E3'; cmp; [|lia].
    destruct (len dst <? 0 + 1 + len src) eqn:Ec; cmp; [|lia]. done.
  - rewrite emitLiterals_spec by (done || lia).
    rewrite Hl. sbind.
    destruct (len dst <? len src + 4) eqn:E4; cmp.
    + unfold emit_eof. rewrite splice0_length by lia.
      destruct (len dst <? 0 + (len src + 1) + 3) eqn:Ec; cmp; [|lia].
      unfold overrun. done.
    + rewrite emit_eof_next by lia.
      replace (0 + (len src + 1) + 3) with (len src + 4) by lia. done.
Qed.

(** X4.  An input of one to three bytes is stored: the tag [len + 17], the
    bytes themselves and the EOF marker, [len + 4] bytes in all. A
    destination with no room for the tag and the bytes is left untouched
    and the count returned is zero; one with room for them but not for the
    marker receives them, and the count returned is [len + 1]; both with
    [ErrOutputOverrun]. *)
Theorem Compress_short_input (src dst : list byte) :
  1 <= len src <= 3 →
  Compress src dst =
    if len dst <? len src + 1 then Val (0, Some ErrOutputOverrun, dst)
    else
      let stored := to_byte (len src + 17) :: src in
      if len dst <? len src + 4
      then Val (len src + 1, Some ErrOutputOverrun,
                stored ++ drop (length stored) dst)
      else Val (len src + 4, None,
                stored ++ bytes [0x11; 0; 0] ++ drop (length stored + 3) dst).
Proof.
  intros Hlen. unfold Compress, compress_logged.
  destruct (len src =? 0) eqn:E0; cmp; [lia|].
  destruct (len src <=? 3) eqn:E3; cmp; [|lia].
  rewrite compressLiteralsOnly_short by done.
  assert (Henc : enc_literals src true = to_byte (len src + 17) :: src).
  { unfold enc_literals, lit_header. simpl.
    destruct (len src <=? 3) eqn:E; cmp; [done | lia]. }
  rewrite Henc.
  destruct (len dst <? len src + 1); [done|].
  destruct (len dst <? len src + 4); sbind; cbv zeta; do 2 f_equal;
    unfold splice; simpl; rewrite <- ?app_assoc, ?length_app; done.
Qed.

Lemma Compress_short_input_witness :
  let src := bytes [0x41; 0x42; 0x43] in
  1 <= len src <= 3
  ∧ Compress src (zeros 5)
    = Val (4, Some ErrOutputOverrun, bytes [0x14; 0x41; 0x42; 0x43; 0]).
Proof.
  intros src.
  assert (H : 1 <= len src <= 3) by (vm_compute; split; congruence).
  split; [exact H|]. exact (Compress_short_input src (zeros 5) H).
Defined.

(** ** [Compress] on a destination of any size *)

(** The matches [Compress] asks [emitMatch] for. *)
Definition long_matches (log : list event) : Prop :=
  Forall (λ ev, match ev with
                | EvMatch offset length =>
                    1 <= offset <= maxOffset ∧ 4 <= length <= 264
                | EvLiterals _ _ => True
                end) log.

(** What holds of the output whatever the size of [dst0]: the part written
    is the stream of the log, it lies within the buffer, and the accounting
    of [binv] goes on. *)
Definition cinv (dst0 : list byte) (e : enc) : Prop :=
  binv dst0 e ∧ e_op e <= len dst0 ∧ long_matches (e_log e).

(** A return with [ErrOutputOverrun]. *)
Definition refused (dst0 : list byte) (r : result) : Prop :=
  let '(n, err, out) := r in
  err = Some ErrOutputOverrun ∧ 0 <= n <= len dst0 ∧ len out = len dst0.

Lemma long_matches_pending src e hi :
  long_matches (e_log e) → long_matches (with_pending src e hi).
Proof.
  intros H. unfold with_pending. destruct (0 <? hi - e_litStart e); [|done].
  apply Forall_app. split; [done|]. by apply Forall_singleton.
Qed.

Lemma long_matches_snoc log offset matchLen src ip :
  long_matches log → good_match src ip offset matchLen →
  long_matches (log ++ [EvMatch offset matchLen]).
Proof.
  intros H (Hoff & _ & Hlen & _). apply Forall_app. split; [done|].
  by apply Forall_singleton.
Qed.

Lemma on_tail_unfold dst bs op emit :
  op = len bs → op <= len dst →
  on_tail (splice dst 0 bs) op emit
  = '(n, err, tail') ← emit (drop (length bs) dst); Val (n, err, bs ++ tail').
Proof.
  intros -> Hroom. pose proof (len_nonneg bs).
  assert (Hdrop : drop (Z.to_nat (len bs)) (splice dst 0 bs)
                  = drop (length bs) dst).
  { unfold len. rewrite Nat2Z.id. apply (splice_drop dst 0 bs). lia. }
  assert (Hslice : slice (splice dst 0 bs) (len bs) (len (splice dst 0 bs))
                   = Val (drop (length bs) dst)).
  { rewrite slice_spec by (rewrite ?splice0_length; lia).
    rewrite Hdrop, take_ge; [done|].
    rewrite splice0_length by lia. rewrite length_drop. unfold len. lia. }
  unfold on_tail. rewrite Hslice. sbind.
  replace (take (Z.to_nat (len bs)) (splice dst 0 bs)) with bs; [done|].
  unfold len. rewrite Nat2Z.id.
  pose proof (splice_take dst 0 bs ltac:(lia)) as Ht. simpl in Ht. done.
Qed.

Lemma len_drop {A} (l : list A) n :
  len (drop n l) = Z.max 0 (len l - Z.of_nat n).
Proof. unfold len. rewrite length_drop. lia. Qed.

Lemma emit_pending_literals_short src dst0 e hi :
  einv src e → binv dst0 e → e_op e <= len dst0 →
  e_litStart e <= hi <= len src →
  len dst0 < e_op e + len (pending_bytes src e hi) →
  emit_pending_literals src e hi = Panic
  ∨ ∃ n out,
      emit_pending_literals src e hi
      = Val ((n, Some ErrOutputOverrun, out), with_pending src e hi)
      ∧ len out = len dst0.
Proof.
  intros Hinv (Hdst & Hop & Hacc) Hfit Hhi Hroom.
  destruct Hinv as (Hpos & _).
  pose proof (len_nonneg (encode (e_log e))) as Hnn.
  unfold emit_pending_literals, pending_bytes, with_pending in *.
  destruct (0 <? hi - e_litStart e) eqn:E; cmp;
    [|change (len (@nil byte)) with 0 in Hroom; lia].
  rewrite slice_spec by lia. sbind. rewrite Hdst.
  rewrite on_tail_unfold by (done || lia).
  set (lit := take (Z.to_nat (hi - e_litStart e))
                (drop (Z.to_nat (e_litStart e)) src)) in *.
  assert (Hne : lit ≠ []).
  { intros Hnil. apply (f_equal len) in Hnil. subst lit.
    rewrite slice_length in Hnil by lia. unfold len in Hnil. simpl in Hnil.
    lia. }
  destruct (emitLiterals_short lit (drop (length (encode (e_log e))) dst0)
              (e_isFirstOutput e) Hne)
    as [(Hp & _)|(n & out & Hr & Hn & Hout & _)].
  - rewrite len_drop. unfold len in *. lia.
  - left. by rewrite Hp.
  - right. rewrite Hr. sbind. eexists _, _. split; [done|].
    rewrite len_app. apply len_length in Hout. rewrite Hout, len_drop.
    unfold len in *. lia.
Qed.

Lemma accept_any src dst0 e tbl offset matchLen :
  einv src e → cinv dst0 e → table_ok src tbl →
  good_match src (e_ip e) offset matchLen →
  let short :=
    len dst0 < e_op e + len (pending_bytes src e (e_ip e)) + 4 in
  (accept src e tbl offset matchLen = Panic ∧ short)
  ∨ (∃ r log, accept src e tbl offset matchLen = Val (Return r log)
       ∧ refused dst0 r ∧ long_matches log ∧ short)
  ∨ (∃ e', accept src e tbl offset matchLen = Val (Continue e')
       ∧ cinv dst0 e'
       ∧ e_op e' = e_op e + len (pending_bytes src e (e_ip e))
                   + len (enc_match offset matchLen)).
Proof.
  intros Hinv (Hb & Hfit & Hlong) Htbl Hgood short. subst short.
  pose proof Hinv as (Hpos & Hip & _ & Hwf & Hexp & Hlast & Hstart).
  pose proof Hb as (Hdst & Hop & Hacc).
  pose proof Hgood as (Hoff & Hoi & Hlen & Hend & Heq).
  pose proof (pending_bytes_length src e (e_ip e) Hpos Hip) as Hpl.
  destruct (enc_match_length offset matchLen ltac:(lia) Hoff) as [Hml Hml3].
  pose proof (len_nonneg (encode (e_log e))).
  pose proof (len_nonneg (pending_bytes src e (e_ip e))) as Hpn.
  pose proof (long_matches_pending src e (e_ip e) Hlong) as Hlong1.
  pose proof (long_matches_snoc _ _ _ _ _ Hlong1 Hgood) as Hlong2.
  destruct (decide (e_op e + len (pending_bytes src e (e_ip e)) <= len dst0))
    as [Hroom|Hroom].
  2:{ destruct (emit_pending_literals_short src dst0 e (e_ip e))
        as [Hp|(n & out & Hr & Hout)]; try done; try lia.
      - left. unfold accept. cbv zeta. rewrite Hp. split; [done | lia].
      - right. left. unfold accept. cbv zeta. rewrite Hr. sbind.
        eexists _, _. split; [done|]. split; [|split; [done | lia]].
        unfold refused. split; [done|]. split; [lia | done]. }
  assert (Hlen1 : len (encode (with_pending src e (e_ip e)))
                  = e_op e + len (pending_bytes src e (e_ip e))).
  { rewrite encode_with_pending, len_app. lia. }
  destruct (decide (e_op e + len (pending_bytes src e (e_ip e)) + 4
                    <= len dst0)) as [Hroom4|Hroom4].
  - assert (Hpay : 16 * (len (pending_bytes src e (e_ip e))
                         + len (enc_match offset matchLen))
                   <= 17 * (e_ip e - e_litStart e + matchLen)).
    { rewrite Hpl. repeat branch; dlia. }
    destruct (refresh_spec (Z.to_nat matchLen) src tbl
                (e_ip e + matchLen - matchLen + 1) (e_ip e + matchLen))
      as (tbl' & Hrefresh & Htbl'); [done | lia | lia |].
    right. right. eexists. split.
    + unfold accept. cbv zeta.
      rewrite (emit_pending_literals_ok src dst0 e (e_ip e)) by (done || lia).
      sbind.
      rewrite (on_tail_next dst0 _ _ (enc_match offset matchLen));
        [ | lia | lia | ].
      2:{ intros tail Htail. apply emitMatch_spec; lia. }
      sbind. rewrite Hrefresh. sbind. done.
    + unfold cinv, binv. simpl.
      rewrite encode_snoc, encode_with_pending. simpl.
      rewrite !len_app. repeat split; try done; lia.
  - right. left. unfold accept. cbv zeta.
    rewrite (emit_pending_literals_ok src dst0 e (e_ip e)) by (done || lia).
    sbind. rewrite on_tail_unfold by lia.
    rewrite emitMatch_refuses by (left; rewrite len_drop; unfold len in *; lia).
    sbind. eexists _, _. split; [done|]. split; [|split; [done | lia]].
    unfold refused. split; [done|]. split; [lia|].
    rewrite len_app, len_drop. unfold len in *. lia.
Qed.

Lemma iter_any src dst0 e :
  einv src e → cinv dst0 e → e_ip e < len src - minMatch →
  iter src e = Panic
  ∨ (∃ r log, iter src e = Val (Return r log)
       ∧ refused dst0 r ∧ long_matches log)
  ∨ (∃ e', iter src e = Val (Continue e') ∧ cinv dst0 e').
Proof.
  intros Hinv Hc Hguard. unfold minMatch in Hguard.
  pose proof Hinv as (Hpos & Hip & Htbl & _).
  unfold iter.
  destruct (find_match_spec src (e_hashTable e) (e_ip e))
    as (tbl' & found & -> & Htbl' & Hfound); [done | lia | lia |]. sbind.
  destruct found as [[offset matchLen]|]; [|by right; right; eauto].
  destruct (pending_unencodable e); [by right; right; eauto|].
  destruct (short_tail src e matchLen); [by right; right; eauto|].
  destruct (accept_any src dst0 e tbl' offset matchLen)
    as [[Hp _]|[(r & log & Hr & Href & Hl & _)|(e' & Hr & Hc' & _)]];
    try done; eauto 10.
Qed.

Lemma main_loop_any fuel src dst0 e :
  einv src e → cinv dst0 e → len src - e_ip e <= Z.of_nat fuel →
  main_loop fuel src e = Panic
  ∨ (∃ r log, main_loop fuel src e = Val (Return r log)
       ∧ refused dst0 r ∧ long_matches log)
  ∨ (∃ e', main_loop fuel src e = Val (Continue e')
       ∧ einv src e' ∧ cinv dst0 e' ∧ len src - minMatch <= e_ip e').
Proof.
  revert e. induction fuel as [|fuel IH]; intros e Hinv Hc Hfuel;
    cbn [main_loop].
  - branch; [unfold minMatch in *; lia|]. right. right. eauto.
  - branch; [|by right; right; eauto].
    destruct (iter_any src dst0 e Hinv Hc E)
      as [Hp|[(r & log & Hr & Hres)|(e1 & Hit & Hc1)]].
    + left. by rewrite Hp.
    + right. left. rewrite Hr. sbind. eauto.
    + rewrite Hit. sbind.
      destruct (iter_ctl _ _ _ Hinv E Hit) as [Hinv1 Hlt].
      apply IH; try done. lia.
Qed.

Lemma finish_any src dst0 e :
  einv src e → cinv dst0 e → 0 < len src →
  finish src e = Panic
  ∨ (∃ r log, finish src e = Val (r, log)
       ∧ refused dst0 r ∧ long_matches log)
  ∨ (∃ log, finish src e
            = Val ((len (encode log) + 3, None,
                    splice dst0 0 (encode log ++ eof_marker)), log)
       ∧ wf PStart [] log ∧ expand [] log = src
       ∧ len (encode log) + 3 <= MaxCompressedSize (len src)
       ∧ len (encode log) + 3 <= len dst0 ∧ long_matches log).
Proof.
  intros Hinv (Hb & Hfit0 & Hlong) Hsrc.
  pose proof Hinv as (Hpos & Hip & _ & Hwf & Hexp & Hlast & Hst).
  pose proof Hb as (Hdst & Hop & Hacc).
  pose proof (MaxCompressedSize_bound (len src) Hsrc) as Hmax.
  pose proof (pending_bytes_length src e (len src) ltac:(lia) ltac:(lia))
    as Hpl.
  pose proof (len_nonneg (encode (e_log e))).
  pose proof (len_nonneg (pending_bytes src e (len src))) as Hpn.
  pose proof (long_matches_pending src e (len src) Hlong) as Hlong1.
  assert (Hg : e_isFirstOutput e = false →
               len src - e_litStart e = 0 ∨ 4 <= len src - e_litStart e).
  { intros Hf. rewrite Hf in Hst. lia. }
  destruct (with_pending_ok src e (len src) Hinv ltac:(lia) Hg)
    as (Hwf1 & Hexp1 & _).
  assert (Hfit : 16 * (e_op e + len (pending_bytes src e (len src)) + 3)
                 <= 17 * len src + 1057).
  { rewrite Hpl. repeat branch; dlia. }
  assert (Hlen1 : len (encode (with_pending src e (len src)))
                  = e_op e + len (pending_bytes src e (len src))).
  { rewrite encode_with_pending, len_app. lia. }
  destruct (decide (e_op e + len (pending_bytes src e (len src)) <= len dst0))
    as [Hroom|Hroom].
  2:{ destruct (emit_pending_literals_short src dst0 e (len src))
        as [Hp|(n & out & Hr & Hout)]; try done; try lia.
      - left. unfold finish. cbv zeta. by rewrite Hp.
      - right. left. unfold finish. cbv zeta. rewrite Hr. sbind.
        eexists _, _. split; [done|]. split; [|done].
        unfold refused. split; [done|]. split; [lia | done]. }
  destruct (decide (e_op e + len (pending_bytes src e (len src)) + 3
                    <= len dst0)) as [Hroom3|Hroom3].
  - right. right. exists (with_pending src e (len src)).
    split; [|split; [done|split;
      [rewrite Hexp1; apply take_ge; unfold len; lia|]]].
    + unfold finish. cbv zeta.
      rewrite (emit_pending_literals_ok src dst0 e (len src)) by (done || lia).
      sbind. rewrite emit_eof_next; [ | lia | lia ].
      sbind. rewrite Hlen1. do 4 f_equal; lia.
    + rewrite Hlen1. split; [lia|]. split; [lia | done].
  - right. left. unfold finish. cbv zeta.
    rewrite (emit_pending_literals_ok src dst0 e (len src)) by (done || lia).
    sbind. unfold emit_eof. rewrite splice0_length by lia.
    destruct (len dst0 <? e_op e + len (pending_bytes src e (len src)) + 3)
      eqn:Ec; cmp; [|lia].
    unfold overrun. sbind. eexists _, _. split; [done|]. split; [|done].
    unfold refused. split; [done|]. split; [lia|].
    apply splice0_length. lia.
Qed.

(** [Compress] on a destination of any size: a panic, a refusal, or the
    stream of a well-formed log that expands to the input. *)
Lemma compress_logged_any src dst :
  src ≠ [] →
  compress_logged src dst = Panic
  ∨ (∃ r log, compress_logged src dst = Val (r, log)
       ∧ refused dst r ∧ long_matches log)
  ∨ (∃ log, compress_logged src dst
            = Val ((len (encode log) + 3, None,
                    splice dst 0 (encode log ++ eof_marker)), log)
       ∧ wf PStart [] log ∧ expand [] log = src
       ∧ len (encode log) + 3 <= MaxCompressedSize (len src)
       ∧ len (encode log) + 3 <= len dst ∧ long_matches log).
Proof.
  intros Hne.
  assert (Hsrc : 0 < len src) by (destruct src; [done | unfold len; simpl; lia]).
  pose proof (len_nonneg dst) as Hd.
  unfold compress_logged.
  destruct (len src =? 0) eqn:E0; cmp; [lia|].
  destruct (len src <=? 3) eqn:E3; cmp.
  - rewrite compressLiteralsOnly_short by lia.
    assert (Hl : len (enc_literals src true) = len src + 1).
    { unfold enc_literals, lit_header. simpl.
      destruct (len src <=? 3) eqn:E; cmp; [|lia].
      rewrite len_app. change (len [_]) with 1. lia. }
    assert (Hlong : long_matches [EvLiterals src true])
      by by apply Forall_singleton.
    destruct (len dst <? len src + 1) eqn:E1; cmp; sbind.
    { right. left. eexists _, _. split; [done|]. split; [|done].
      unfold refused. split; [done|]. split; [lia | done]. }
    destruct (len dst <? len src + 4) eqn:E4; cmp; sbind.
    { right. left. eexists _, _. split; [done|]. split; [|done].
      unfold refused. split; [done|]. split; [lia|].
      apply splice0_length. lia. }
    right. right. exists [EvLiterals src true].
    pose proof (MaxCompressedSize_bound (len src) Hsrc) as Hmax.
    unfold encode. simpl. rewrite app_nil_r, Hl.
    replace (len src + 1 + 3) with (len src + 4) by lia.
    split; [done|]. split; [split; [|done]; done|].
    split; [done|]. split; [lia|]. split; [lia | done].
  - destruct (main_loop_any (length src) src dst
                (Enc 0 0 0 true initial_table dst []))
      as [Hp|[(r & log & Hr & Hres)|(e & Hr & Hinv & Hc & _)]].
    + unfold einv. simpl. pose proof (initial_table_ok src).
      split; [lia|]. split; [lia|]. done.
    + unfold cinv, binv. simpl. repeat split; try done; try lia.
      apply Forall_nil_2.
    + simpl. unfold len. lia.
    + left. by rewrite Hp.
    + right. left. rewrite Hr. sbind. eauto.
    + rewrite Hr. sbind. by apply finish_any.
Qed.

(** X5.  Whatever the input and the size of the destination, [Compress]
    terminates, and unless it panics it returns a count within the
    destination, the destination with its length kept, and either no error
    or [ErrOutputOverrun]: no other error is ever returned. Without error
    the count is [MaxCompressedSize (len src)] at most and the destination
    beyond the count is as the caller passed it. *)
Theorem Compress_outcome (src dst : list byte) :
  Compress src dst = Panic
  ∨ ∃ n err out,
      Compress src dst = Val (n, err, out)
      ∧ 0 <= n <= len dst ∧ len out = len dst
      ∧ match err with
        | None =>
            n <= MaxCompressedSize (len src)
            ∧ drop (Z.to_nat n) out = drop (Z.to_nat n) dst
        | Some e => e = ErrOutputOverrun
        end.
Proof.
  pose proof (len_nonneg dst) as Hd.
  destruct (decide (src = [])) as [->|Hne].
  { right. exists 0, None, dst. split; [done|]. split; [lia|].
    split; [done|]. split; [vm_compute; congruence | done]. }
  unfold Compress.
  destruct (compress_logged_any src dst Hne)
    as [Hp|[([[n err] out] & log & Hr & (He & Hn & Hout) & _)
           |(log & Hr & _ & _ & Hmax & Hfit & _)]].
  - left. by rewrite Hp.
  - right. rewrite Hr. sbind. exists n, err, out. subst err. done.
  - right. rewrite Hr. sbind. eexists _, _, _. split; [done|].
    pose proof (len_nonneg (encode log)).
    assert (Hl : len (encode log ++ eof_marker) = len (encode log) + 3).
    { rewrite len_app. done. }
    split; [lia|]. split; [apply splice0_length; lia|]. split; [done|].
    rewrite <- Hl. unfold len. rewrite Nat2Z.id.
    apply (splice_drop dst 0 (encode log ++ eof_marker)). lia.
Qed.

(** X6.  Whenever [Compress] returns without error, on a destination of any
    size, the [n] bytes it wrote decode to the input: [Decompress] on them
    succeeds in any buffer that can hold the input, returns the length of
    the input and leaves the input in the first bytes of the buffer. *)
Theorem Compress_success_decodes (src dst dst' : list byte) (n : Z)
  (out : list byte) :
  Compress src dst = Val (n, None, out) → len src <= len dst' →
  ∃ res,
    Decompress (take (Z.to_nat n) out) dst' = Val (len src, None, res)
    ∧ take (length src) res = src.
Proof.
  intros Hc Hroom. destruct (decide (src = [])) as [->|Hne].
  { injection Hc as <- <-. exists dst'. done. }
  unfold Compress in Hc.
  destruct (compress_logged_any src dst Hne)
    as [Hp|[([[n' err] out'] & log & Hr & (He & _) & _)
           |(log & Hr & Hwf & Hexp & _ & Hfit & _)]].
  - by rewrite Hp in Hc.
  - rewrite Hr in Hc. sbind in Hc. injection Hc as _ -> _. done.
  - rewrite Hr in Hc. sbind in Hc. injection Hc as <- <-.
    pose proof (len_nonneg (encode log)).
    destruct (Decompress_encode log dst' Hwf ltac:(by rewrite Hexp))
      as (res & Hd & Hres & _).
    rewrite Hexp in Hd, Hres. exists res.
    replace (Z.to_nat (len (encode log) + 3))
      with (0 + length (encode log ++ eof_marker))%nat
      by (rewrite length_app; unfold len, eof_marker; simpl; lia).
    rewrite splice_take by lia. done.
Qed.

Lemma Compress_success_decodes_witness :
  let src := bytes [0x41; 0x41; 0x41; 0x41; 0x41; 0x41; 0x41; 0x41; 0x41;
                    0x41; 0x42; 0x43; 0x44; 0x45; 0x46] in
  let out := bytes [0x12; 0x41; 0x27; 0; 0; 2; 0x42; 0x43; 0x44; 0x45; 0x46;
                    0x11; 0; 0] in
  (Compress src (zeros 14) = Val (14, None, out) ∧ len src <= len (zeros 15))
  ∧ ∃ res,
      Decompress (take (Z.to_nat 14) out) (zeros 15) = Val (len src, None, res)
      ∧ take (length src) res = src.
Proof.
  intros src out.
  assert (H1 : Compress src (zeros 14) = Val (14, None, out)) by reflexivity.
  assert (H2 : len src <= len (zeros 15)) by (vm_compute; congruence).
  split; [by split|].
  exact (Compress_success_decodes src (zeros 14) (zeros 15) 14 out H1 H2).
Defined.

(** X7.  Whenever [Compress] returns without error on a non-empty input, it
    wrote five bytes at least and the last three are the EOF marker [0x11
    0x00 0x00]. *)
Theorem Compress_ends_with_eof (src dst : list byte) (n : Z)
  (out : list byte) :
  src ≠ [] → Compress src dst = Val (n, None, out) →
  5 <= n ∧ take 3 (drop (Z.to_nat (n - 3)) out) = bytes [0x11; 0; 0].
Proof.
  intros Hne Hc. unfold Compress in Hc.
  destruct (compress_logged_any src dst Hne)
    as [Hp|[([[n' err] out'] & log & Hr & (He & _) & _)
           |(log & Hr & Hwf & Hexp & _ & Hfit & _)]].
  - by rewrite Hp in Hc.
  - rewrite Hr in Hc. sbind in Hc. injection Hc as _ -> _. done.
  - rewrite Hr in Hc. sbind in Hc. injection Hc as <- <-.
    split.
    + destruct log as [|ev log]; [simpl in Hexp; congruence|].
      destruct Hwf as [Hev _]. unfold encode. simpl. rewrite len_app.
      pose proof (len_nonneg (concat (map encode_event log))).
      destruct ev as [lit isFirst|offset mlen]; simpl in *.
      * destruct Hev as [Hlit _]. unfold enc_literals.
        assert (0 < len lit)
          by (destruct lit; [done | unfold len; simpl; lia]).
        rewrite len_app, lit_header_length by lia.
        destruct (len lit <=? 18); dlia.
      * by destruct Hev as [Hp _].
    + replace (Z.to_nat (len (encode log) + 3 - 3))
        with (length (encode log)) by (unfold len; lia).
      apply (splice0_payload dst (encode log) eof_marker).
Qed.

Lemma Compress_ends_with_eof_witness :
  let src := bytes [0x41; 0x42] in
  let out := bytes [0x13; 0x41; 0x42; 0x11; 0; 0] in
  (src ≠ [] ∧ Compress src (zeros 6) = Val (6, None, out))
  ∧ 5 <= 6 ∧ take 3 (drop (Z.to_nat (6 - 3)) out) = bytes [0x11; 0; 0].
Proof.
  intros src out.
  assert (H1 : src ≠ []) by done.
  assert (H2 : Compress src (zeros 6) = Val (6, None, out)) by reflexivity.
  split; [by split|].
  exact (Compress_ends_with_eof src (zeros 6) 6 out H1 H2).
Defined.

(** X8.  Every match [Compress] hands to [emitMatch], whether the call goes
    on to succeed or not, has an offset within [1, 0xbfff] and a length
    within [4, 264]: the candidate's three bytes are compared, and the
    fourth is equal because the table slot is that of the hash of four
    bytes. So no three-byte match is ever emitted, and the branch of
    [emitMatch] that rejects a match is never reached. *)
Theorem Compress_matches (src dst : list byte) (r : result)
  (log : list event) (i : nat) (offset length : Z) :
  compress_logged src dst = Val (r, log) →
  log !! i = Some (EvMatch offset length) →
  1 <= offset <= 0xbfff ∧ 4 <= length <= 264.
Proof.
  intros Hc Hi.
  assert (Hlong : long_matches log).
  { destruct (decide (src = [])) as [->|Hne].
    { injection Hc as _ <-. apply Forall_nil_2. }
    destruct (compress_logged_any src dst Hne)
      as [Hp|[(r' & log' & Hr & _ & Hl)|(log' & Hr & _ & _ & _ & _ & Hl)]];
      rewrite Hc in *; [done|..]; by injection Hr as _ <-. }
  unfold long_matches in Hlong. rewrite Forall_lookup in Hlong.
  exact (Hlong i _ Hi).
Qed.

Lemma Compress_matches_witness :
  let src := bytes [0x41; 0x41; 0x41; 0x41; 0x41; 0x41; 0x41; 0x41; 0x41;
                    0x41; 0x42; 0x43; 0x44; 0x45; 0x46] in
  let lit := bytes [0x42; 0x43; 0x44; 0x45; 0x46] in
  let log := [EvLiterals (bytes [0x41]) true; EvMatch 1 9;
              EvLiterals lit false] in
  let r := (14, None,
            bytes [0x12; 0x41; 0x27; 0; 0; 2; 0x42; 0x43; 0x44; 0x45; 0x46;
                   0x11; 0; 0]) in
  (compress_logged src (zeros 14) = Val (r, log)
   ∧ log !! 1%nat = Some (EvMatch 1 9))
  ∧ 1 <= 1 <= 0xbfff ∧ 4 <= 9 <= 264.
Proof.
  intros src lit log r.
  assert (H1 : compress_logged src (zeros 14) = Val (r, log)) by reflexivity.
  assert (H2 : log !! 1%nat = Some (EvMatch 1 9)) by reflexivity.
  split; [by split|].
  exact (Compress_matches src (zeros 14) r log 1 1 9 H1 H2).
Defined.

(** ** What the decoder leaves untouched *)

(** A rule that holds of error returns, of state changes, of literal copies
    and of match copies holds of every pass. *)
Lemma step_sat P src d :
  (∀ e, P (Ret (d_op d) (Some e) (d_dst d))) →
  (∀ ip s, P (Next (Dec ip (d_op d) (d_lastMOff d) s (d_dst d)))) →
  (∀ ip t next, flow_sat P (literals src d ip t next)) →
  (∀ ip mOff mLen, flow_sat P (lookbehind d ip mOff mLen)) →
  flow_sat P (step src d).
Proof.
  intros Hfail Hgoto Hlit Hlb.
  assert (Hf : ∀ e, flow_sat P (fail d e)) by (intros; by apply fail_sat).
  assert (Hgo : ∀ ip s, flow_sat P (goto d ip s))
    by (intros; by apply goto_sat).
  unfold step. destruct (d_state d) eqn:Est.
  - unfold step_start. branch; [done|].
    apply bind_load_sat. intros b Hb. repeat branch; auto.
  - unfold step_literal_run. branch; [done|].
    apply bind_load_sat. intros b Hb. repeat branch; auto.
    apply extended_sat; [done|]. intros. apply Hlit.
  - unfold step_first_literal_run. branch; [done|].
    apply bind_load_sat. intros b Hb. repeat branch; auto.
    apply bind_load_sat. intros b' Hb'. auto.
  - unfold step_match. branch; [done|].
    apply bind_load_sat. intros b Hb. repeat branch.
    + unfold match_m2. repeat branch; auto.
      apply bind_load_sat. intros b' Hb'. auto.
    + assert (Htail : ∀ ip mLen, flow_sat P (match_m3_tail src d ip mLen)).
      { intros. unfold match_m3_tail. branch; [done|].
        apply bind_load_sat. intros b0 Hb0.
        apply bind_load_sat. intros b1 Hb1. auto. }
      unfold match_m3. branch; [|done]. by apply extended_sat.
    + assert (Htail : ∀ mOff ip mLen,
                flow_sat P (match_m4_tail src d mOff ip mLen)).
      { intros. unfold match_m4_tail. branch; [done|].
        apply bind_load_sat. intros b0 Hb0.
        apply bind_load_sat. intros b1 Hb1. branch; auto. }
      unfold match_m4. branch; [|done]. by apply extended_sat.
    + unfold match_m1. branch; [done|].
      apply bind_load_sat. intros b' Hb'. auto.
  - unfold step_match_done. repeat branch; auto.
    apply bind_load_sat. intros b Hb. repeat branch; auto.
  - auto.
  - intros f [= <-]. destruct d as [ip op lastMOff s dst]. simpl in *.
    subst s. apply (Hgoto ip stateEOF).
Qed.

(** The buffer [dst'] with cursor [op'] comes from [dst] with cursor [op]
    by writes between the two cursors. *)
Definition window (op : Z) (dst : list byte) (op' : Z) (dst' : list byte)
  : Prop :=
  op <= op' ∧ length dst' = length dst
  ∧ take (Z.to_nat op) dst' = take (Z.to_nat op) dst
  ∧ drop (Z.to_nat op') dst' = drop (Z.to_nat op') dst.

Lemma window_refl op dst : window op dst op dst.
Proof. unfold window. split; [lia | done]. Qed.

Lemma window_trans op dst op1 dst1 op2 dst2 :
  0 <= op →
  window op dst op1 dst1 → window op1 dst1 op2 dst2 → window op dst op2 dst2.
Proof.
  intros Hop (H1 & Hl1 & Ht1 & Hd1) (H2 & Hl2 & Ht2 & Hd2).
  split; [lia|]. split; [congruence|]. split.
  - replace (Z.to_nat op) with (Z.to_nat op `min` Z.to_nat op1)%nat by lia.
    rewrite <- !take_take, Ht2, !take_take.
    replace (Z.to_nat op `min` Z.to_nat op1)%nat with (Z.to_nat op) by lia.
    done.
  - rewrite Hd2.
    replace (Z.to_nat op2)
      with (Z.to_nat op1 + (Z.to_nat op2 - Z.to_nat op1))%nat by lia.
    rewrite <- !drop_drop. by rewrite Hd1.
Qed.

Lemma window_store op dst b dst1 :
  0 <= op → store dst op b = Val dst1 → window op dst (op + 1) dst1.
Proof.
  intros Hop. unfold store.
  destruct ((0 <=? op) && (op <? len dst)) eqn:E; [|done]. cmp.
  intros [= <-]. split; [lia|]. split; [apply length_insert|]. split.
  - apply take_insert_ge. lia.
  - apply drop_insert_lt. lia.
Qed.

Lemma copy_literals_window n src ip op dst ip' op' dst' :
  0 <= op → copy_literals n src ip op dst = Val (ip', op', dst') →
  window op dst op' dst'.
Proof.
  revert ip op dst. induction n as [|n IH]; intros ip op dst Hop;
    cbn [copy_literals].
  - intros [= _ <- <-]. apply window_refl.
  - destruct (load src ip) as [b| |]; try done. sbind.
    destruct (store dst op b) as [dst1| |] eqn:Hst; try done. sbind.
    intros Hc. eapply window_trans; [done | by eapply window_store |].
    eapply IH; [|exact Hc]. lia.
Qed.

Lemma copy_match_window n op mPos dst op' dst' :
  0 <= op → copy_match n op mPos dst = Val (op', dst') →
  window op dst op' dst'.
Proof.
  revert op mPos dst. induction n as [|n IH]; intros op mPos dst Hop;
    cbn [copy_match].
  - intros [= <- <-]. apply window_refl.
  - destruct (load dst mPos) as [b| |]; try done. sbind.
    destruct (store dst op b) as [dst1| |] eqn:Hst; try done. sbind.
    intros Hc. eapply window_trans; [done | by eapply window_store |].
    eapply IH; [|exact Hc]. lia.
Qed.

(** A pass writes at the cursor only, and an error return hands back the
    cursor and the buffer as they were. *)
Definition window_rule (d : dec) (f : flow) : Prop :=
  match f with
  | Next d' => window (d_op d) (d_dst d) (d_op d') (d_dst d')
  | Ret n err out => n = d_op d ∧ out = d_dst d
  end.

Lemma step_window src d :
  0 <= d_op d → flow_sat (window_rule d) (step src d).
Proof.
  intros Hop. apply step_sat.
  - done.
  - intros. apply window_refl.
  - intros ip t next. unfold literals. repeat branch; try by apply fail_sat.
    destruct (copy_literals _ _ _ _ _) as [[[ip' op'] dst']| |] eqn:Hc;
      try done.
    sbind. intros f [= <-]. simpl. by eapply copy_literals_window.
  - intros ip mOff mLen. unfold lookbehind.
    repeat branch; try by apply fail_sat.
    destruct (copy_match _ _ _ _) as [[op' dst']| |] eqn:Hc; try done.
    sbind. intros f [= <-]. simpl. by eapply copy_match_window.
Qed.

Lemma run_window fuel src d n err out :
  0 <= d_op d → run fuel src d = Val (n, err, out) →
  window (d_op d) (d_dst d) n out.
Proof.
  revert d. induction fuel as [|fuel IH]; intros d Hop; cbn [run];
    destruct (decide (d_state d = stateEOF)) as [He|He];
    try (intros [= <- _ <-]; apply window_refl); try done.
  destruct (step src d) as [[d'|n' err' out']| |] eqn:Hstep; try done; sbind.
  - pose proof (step_window src d Hop _ Hstep) as Hw. simpl in Hw.
    intros Hrun. eapply window_trans; [done | exact Hw |].
    apply IH; [|done]. destruct Hw as [? _]. lia.
  - intros [= <- <- <-].
    destruct (step_window src d Hop _ Hstep) as [-> ->]. apply window_refl.
Qed.

(** X9.  Whatever [Decompress] returns, success or error, the destination
    beyond the count returned is as the caller passed it: the decoder
    writes to [dst[:n]] only. *)
Theorem Decompress_untouched_tail (src dst : list byte) (n : Z)
  (err : option error) (out : list byte) :
  Decompress src dst = Val (n, err, out) →
  drop (Z.to_nat n) out = drop (Z.to_nat n) dst.
Proof.
  unfold Decompress. destruct (len src =? 0); [by intros [= <- _ <-]|].
  intros Hrun. apply run_window in Hrun; [|simpl; lia].
  by destruct Hrun as (_ & _ & _ & Hd).
Qed.

Lemma Decompress_untouched_tail_witness :
  let src := bytes [0x13; 0x41; 0x42; 0x11; 0; 0] in
  let dst := bytes [1; 2; 3; 4; 5] in
  let out := bytes [0x41; 0x42; 3; 4; 5] in
  Decompress src dst = Val (2, None, out)
  ∧ drop (Z.to_nat 2) out = drop (Z.to_nat 2) dst.
Proof.
  intros src dst out.
  assert (H : Decompress src dst = Val (2, None, out)) by reflexivity.
  split; [exact H|].
  exact (Decompress_untouched_tail src dst 2 None out H).
Defined.

(** ** Bytes after the end of the stream *)

Lemma load_app {A} (l k : list A) i a :
  load l i = Val a → load (l ++ k) i = Val a.
Proof.
  rewrite !load_Val. intros [? H]. split; [done|].
  by apply lookup_app_l_Some.
Qed.

(** Every outcome of a pass but the return of [ErrInputOverrun]. *)
Definition input_sufficed (f : flow) : Prop :=
  match f with
  | Ret _ (Some ErrInputOverrun) _ => False
  | _ => True
  end.

Lemma copy_literals_app n src x ip op dst r :
  copy_literals n src ip op dst = Val r →
  copy_literals n (src ++ x) ip op dst = Val r.
Proof.
  revert ip op dst. induction n as [|n IH]; intros ip op dst;
    cbn [copy_literals]; [done|].
  destruct (load src ip) as [b| |] eqn:Hb; try done.
  rewrite (load_app _ x _ _ Hb). sbind.
  destruct (store dst op b) as [dst1| |]; try done. sbind. apply IH.
Qed.

Lemma skip_zeros_stop fuel src x ip t b :
  ip < len src → load src ip = Val b → u8 b ≠ 0 →
  skip_zeros fuel (src ++ x) ip t = Val (ip, t).
Proof.
  intros Hlt Hb Hnz. pose proof (len_nonneg x) as Hx.
  destruct fuel; cbn [skip_zeros]; rewrite len_app;
    (destruct (ip <? len src + len x) eqn:E'; cmp; [|lia]);
    rewrite (load_app _ x _ _ Hb); sbind;
    (destruct (u8 b =? 0) eqn:Eb; cmp; [lia | done]).
Qed.

Lemma skip_zeros_app fuel fuel' src x ip t ip1 t1 :
  skip_zeros fuel src ip t = Val (ip1, t1) → ip1 < len src →
  len src - ip <= Z.of_nat fuel' →
  skip_zeros fuel' (src ++ x) ip t = Val (ip1, t1).
Proof.
  pose proof (len_nonneg x) as Hx.
  revert fuel' ip t. induction fuel as [|fuel IH]; intros fuel' ip t;
    cbn [skip_zeros].
  - destruct (ip <? len src) eqn:E; cmp; [|intros [= <- <-]; lia].
    destruct (load src ip) as [b| |] eqn:Hb; try done. sbind.
    destruct (u8 b =? 0) eqn:Eb; [done|]. cmp.
    intros [= <- <-] _ _. by eapply skip_zeros_stop.
  - destruct (ip <? len src) eqn:E; cmp; [|intros [= <- <-]; lia].
    destruct (load src ip) as [b| |] eqn:Hb; try done. sbind.
    destruct (u8 b =? 0) eqn:Eb.
    + intros Hs Hlt Hf. destruct fuel' as [|fuel']; [lia|].
      cbn [skip_zeros]. rewrite len_app.
      destruct (ip <? len src + len x) eqn:E'; cmp; [|lia].
      rewrite (load_app _ x _ _ Hb). sbind.
      destruct (u8 b =? 0) eqn:Eb'; cmp; [|lia].
      apply IH; [done | done | lia].
    + cmp. intros [= <- <-] _ _. by eapply skip_zeros_stop.
Qed.

Section trailing_input.
Context (src x : list byte) (d : dec) (f : flow).
Hypothesis Hsuff : input_sufficed f.

Lemma literals_app ip t next :
  literals src d ip t next = Val f → literals (src ++ x) d ip t next = Val f.
Proof using Hsuff.
  pose proof (len_nonneg x) as Hx. unfold literals. rewrite len_app.
  destruct (len (d_dst d) <? d_op d + t); [done|].
  destruct (len src <? ip + t) eqn:E; cmp.
  { intros [= <-]. done. }
  destruct (len src + len x <? ip + t) eqn:E'; cmp; [lia|].
  destruct (copy_literals _ src _ _ _) as [r| |] eqn:Hc; try done.
  by rewrite (copy_literals_app _ _ x _ _ _ _ Hc).
Qed.

Lemma extended_app ip t base k k' :
  (∀ ip' t', k ip' t' = Val f → k' ip' t' = Val f) →
  extended src d ip t base k = Val f →
  extended (src ++ x) d ip t base k' = Val f.
Proof using Hsuff.
  intros Hk. unfold extended.
  destruct (skip_zeros _ src _ _) as [[ip1 t1]| |] eqn:Hs; try done. sbind.
  destruct (len src <=? ip1) eqn:E; cmp.
  { intros [= <-]. done. }
  destruct (decide (0 <= ip <= len src)) as [Hip|Hip].
  - rewrite (skip_zeros_app _ (length (src ++ x)) _ x _ _ _ _ Hs)
      by (rewrite ?length_app; unfold len in *; lia).
    sbind. rewrite len_app. pose proof (len_nonneg x).
    destruct (len src + len x <=? ip1) eqn:E'; cmp; [lia|].
    destruct (load src ip1) as [b| |] eqn:Hb; try done.
    rewrite (load_app _ x _ _ Hb). sbind. apply Hk.
  - exfalso. destruct (length src); cbn [skip_zeros] in Hs;
      (destruct (ip <? len src) eqn:E'; cmp;
       [|injection Hs as <- <-; lia]);
      unfold load in Hs; (destruct (ip <? 0) eqn:E0; cmp; [done | lia]).
Qed.

Lemma match_m3_tail_app ip mLen :
  match_m3_tail src d ip mLen = Val f →
  match_m3_tail (src ++ x) d ip mLen = Val f.
Proof using Hsuff.
  pose proof (len_nonneg x) as Hx. unfold match_m3_tail. rewrite len_app.
  destruct (len src <? ip + 2) eqn:E; cmp.
  { intros [= <-]. done. }
  destruct (len src + len x <? ip + 2) eqn:E'; cmp; [lia|].
  destruct (load src ip) as [b0| |] eqn:Hb0; try done.
  rewrite (load_app _ x _ _ Hb0). sbind.
  destruct (load src (ip + 1)) as [b1| |] eqn:Hb1; try done.
  rewrite (load_app _ x _ _ Hb1). sbind. done.
Qed.

Lemma match_m4_tail_app mOff ip mLen :
  match_m4_tail src d mOff ip mLen = Val f →
  match_m4_tail (src ++ x) d mOff ip mLen = Val f.
Proof using Hsuff.
  pose proof (len_nonneg x) as Hx. unfold match_m4_tail. rewrite len_app.
  destruct (len src <? ip + 2) eqn:E; cmp.
  { intros [= <-]. done. }
  destruct (len src + len x <? ip + 2) eqn:E'; cmp; [lia|].
  destruct (load src ip) as [b0| |] eqn:Hb0; try done.
  rewrite (load_app _ x _ _ Hb0). sbind.
  destruct (load src (ip + 1)) as [b1| |] eqn:Hb1; try done.
  rewrite (load_app _ x _ _ Hb1). sbind. done.
Qed.

(** The guard [if ip >= inLen { return op, ErrInputOverrun }] and the load
    that follows it, on the longer input. *)
Lemma guarded_load_app ip (k k' : byte → exec flow) :
  (∀ b, k b = Val f → k' b = Val f) →
  (if len src <=? ip then fail d ErrInputOverrun
   else b ← load src ip; k b) = Val f →
  (if len (src ++ x) <=? ip then fail d ErrInputOverrun
   else b ← load (src ++ x) ip; k' b) = Val f.
Proof using Hsuff.
  intros Hk. pose proof (len_nonneg x) as Hx. rewrite len_app.
  destruct (len src <=? ip) eqn:E; cmp.
  { intros [= <-]. done. }
  destruct (len src + len x <=? ip) eqn:E'; cmp; [lia|].
  destruct (load src ip) as [b| |] eqn:Hb; try done.
  rewrite (load_app _ x _ _ Hb). sbind. apply Hk.
Qed.

Lemma step_app :
  d_ip d <= len src → step src d = Val f → step (src ++ x) d = Val f.
Proof using Hsuff.
  intros Hip. pose proof (len_nonneg x) as Hx.
  unfold step. destruct (d_state d); try done.
  - unfold step_start. apply guarded_load_app. intros b.
    repeat branch; try done; apply literals_app.
  - unfold step_literal_run. apply guarded_load_app. intros b.
    repeat branch; try done; try apply literals_app.
    apply extended_app. intros. by apply literals_app.
  - unfold step_first_literal_run. apply guarded_load_app. intros b.
    destruct (16 <=? u8 b); [done|]. by apply guarded_load_app.
  - unfold step_match. apply guarded_load_app. intros b.
    repeat branch.
    + unfold match_m2.
      destruct (0x1c <=? Z.land (u8 b) 0x1f);
        [by destruct (d_lastMOff d =? 0)|].
      by apply guarded_load_app.
    + unfold match_m3. branch; [|apply match_m3_tail_app].
      apply extended_app. intros. by apply match_m3_tail_app.
    + unfold match_m4. branch; [|apply match_m4_tail_app].
      apply extended_app. intros. by apply match_m4_tail_app.
    + unfold match_m1. by apply guarded_load_app.
  - unfold step_match_done. rewrite len_app.
    destruct (d_ip d =? 0) eqn:E0; [done|]. simpl.
    destruct (len src <? d_ip d) eqn:E; cmp; [lia|].
    destruct (len src + len x <? d_ip d) eqn:E'; cmp; [lia|].
    destruct (load src (d_ip d - 1)) as [b| |] eqn:Hb; try done.
    rewrite (load_app _ x _ _ Hb). sbind.
    branch; [done|]. apply literals_app.
Qed.

End trailing_input.

Lemma run_app fuel src x dst0 d n err out :
  dinv src dst0 d → run fuel src d = Val (n, err, out) →
  err ≠ Some ErrInputOverrun →
  ∃ fuel', run fuel' (src ++ x) d = Val (n, err, out).
Proof.
  revert d. induction fuel as [|fuel IH]; intros d Hd; cbn [run];
    destruct (decide (d_state d = stateEOF)) as [He|He]; try done;
    try (intros Hr _; exists 0%nat; cbn [run];
         by destruct (decide (d_state d = stateEOF))).
  destruct (step_ok src dst0 d Hd He) as (f & Hstep & Hf).
  rewrite Hstep. sbind. destruct f as [d'|n' err' out'].
  - intros Hrun Herr. destruct Hf as [Hd' _].
    destruct (IH d' Hd' Hrun Herr) as [fuel' Hrun'].
    exists (S fuel'). cbn [run].
    destruct (decide (d_state d = stateEOF)); [done|].
    rewrite (step_app src x d (Next d')); [done | done | | done].
    destruct Hd as ((_ & ?) & _). done.
  - intros [= -> -> ->] Herr. exists 1%nat. cbn [run].
    destruct (decide (d_state d = stateEOF)); [done|].
    rewrite (step_app src x d (Ret n err out)); [done | | | done].
    + simpl. destruct err as [[]|]; done.
    + destruct Hd as ((_ & ?) & _). done.
Qed.

(** X10.  Bytes appended to a non-empty input change the outcome of
    [Decompress] only if it had run out of input: a result other than
    [ErrInputOverrun], in particular a success, is the same with any bytes
    added after the input. So nothing after the EOF marker is read. (The
    empty input is apart: it decodes to nothing without any marker.) *)
Theorem Decompress_ignores_trailing_input (src extra dst : list byte)
  (n : Z) (err : option error) (out : list byte) :
  src ≠ [] → Decompress src dst = Val (n, err, out) →
  err ≠ Some ErrInputOverrun →
  Decompress (src ++ extra) dst = Val (n, err, out).
Proof.
  intros Hne Hd Herr. unfold Decompress in Hd.
  destruct (len src =? 0) eqn:E; cmp.
  { destruct src; [done | unfold len in E; simpl in E; lia]. }
  assert (Hinit : dinv src dst (Dec 0 0 0 stateStart dst)).
  { unfold dinv. simpl. pose proof (len_nonneg src).
    pose proof (len_nonneg dst). lia. }
  destruct (run_app _ src extra dst _ n err out Hinit Hd Herr)
    as [fuel' Hrun].
  apply (Decompress_run _ _ fuel'); [|done]. by destruct src.
Qed.

Lemma Decompress_ignores_trailing_input_witness :
  let src := bytes [0x13; 0x41; 0x42; 0x11; 0; 0] in
  let extra := bytes [0x13; 0x43; 0x44; 0x11; 0; 0] in
  let out := bytes [0x41; 0x42; 0; 0] in
  (src ≠ [] ∧ Decompress src (zeros 4) = Val (2, None, out)
   ∧ None ≠ Some ErrInputOverrun)
  ∧ Decompress (src ++ extra) (zeros 4) = Val (2, None, out).
Proof.
  intros src extra out.
  assert (H1 : src ≠ []) by done.
  assert (H2 : Decompress src (zeros 4) = Val (2, None, out)) by reflexivity.
  assert (H3 : @None error ≠ Some ErrInputOverrun) by done.
  split; [by repeat split|].
  exact (Decompress_ignores_trailing_input src extra (zeros 4) 2 None out
           H1 H2 H3).
Defined.

(** ** The emitters against the decoder *)

Lemma emitLiterals_success lit dst isFirst n out :
  lit ≠ [] → emitLiterals lit dst isFirst = Val (n, None, out) →
  n = len (enc_literals lit isFirst)
  ∧ out = splice dst 0 (enc_literals lit isFirst) ∧ n <= len dst.
Proof.
  intros Hne Hr.
  destruct (decide (len (enc_literals lit isFirst) <= len dst)) as [H|H].
  - rewrite emitLiterals_spec in Hr by done. by injection Hr as <- <-.
  - destruct (emitLiterals_short lit dst isFirst Hne ltac:(lia))
      as [(Hp & _)|(n' & out' & Hr' & _)]; congruence.
Qed.

Lemma emitMatch_success dst offset mlen n out :
  3 <= mlen → 1 <= offset <= maxOffset →
  emitMatch dst offset mlen = Val (n, None, out) →
  n = len (enc_match offset mlen)
  ∧ out = splice dst 0 (enc_match offset mlen) ∧ n <= len dst.
Proof.
  intros Hl Ho Hr.
  destruct (decide (4 <= len dst)) as [H4|H4];
    [|rewrite emitMatch_refuses in Hr by lia; done].
  destruct (decide (len (enc_match offset mlen) <= len dst)) as [H|H].
  - rewrite emitMatch_spec in Hr by done. by injection Hr as <- <-.
  - rewrite emitMatch_short in Hr; [done | done | done | done |].
    rewrite <- enc_match_size by done. lia.
Qed.

Lemma holds_self cs : holds cs 0 cs.
Proof.
  split; [pose proof (len_nonneg cs); lia|]. simpl. by rewrite take_ge.
Qed.

(** What an LZ77 copy appends, byte by byte. *)
Lemma lz_copy_spec n out off :
  (0 < off <= length out)%nat →
  take (length out) (lz_copy n out off) = out
  ∧ ∀ i, (length out <= i < length out + n)%nat →
      lz_copy n out off !! i = lz_copy n out off !! (i - off)%nat.
Proof.
  revert out. induction n as [|n IH]; intros out Hoff; cbn [lz_copy].
  - split; [by rewrite take_ge|]. intros i Hi. lia.
  - destruct (lookup_lt_is_Some_2 out (length out - off)%nat ltac:(lia))
      as [b Hb].
    rewrite Hb.
    destruct (IH (out ++ [b])) as [Ht Hi]; [rewrite length_app; simpl; lia|].
    rewrite length_app in Ht, Hi. simpl in Ht, Hi.
    assert (Ht' : take (length out) (lz_copy n (out ++ [b]) off) = out).
    { replace (length out) with (length out `min` (length out + 1))%nat
        at 1 by lia.
      by rewrite <- take_take, Ht, take_app_length. }
    split; [done|]. intros i Hrange.
    destruct (decide (i = length out)) as [->|Hne]; [|apply Hi; lia].
    assert (H1 : lz_copy n (out ++ [b]) off !! length out = Some b).
    { rewrite <- (lookup_take_lt _ (length out + 1)) by lia.
      rewrite Ht. by apply list_lookup_middle. }
    assert (H2 : lz_copy n (out ++ [b]) off !! (length out - off)%nat
                 = Some b).
    { rewrite <- (lookup_take_lt _ (length out)) by lia. by rewrite Ht'. }
    congruence.
Qed.

Lemma decode_match_long cs d p out offset mlen :
  sim cs d p out → p ≠ PStart → 1 <= offset <= maxOffset →
  offset <= len out → 3 <= mlen →
  holds cs (d_ip d) (enc_match offset mlen) →
  len out + mlen <= len (d_dst d) →
  ∃ d', path cs d d'
    ∧ sim cs d' PMatch (lz_copy (Z.to_nat mlen) out (Z.to_nat offset))
    ∧ d_ip d' = d_ip d + len (enc_match offset mlen)
    ∧ length (d_dst d') = length (d_dst d).
Proof.
  intros (Hr & Hop & Hout) Hp Hoff Hoo Hlen Hh Hroom.
  pose proof (len_nonneg out).
  destruct (step_enc_match cs (with_state d stateMatch) offset mlen
              eq_refl Hlen Hoff Hh) as (Hstep & t & Hl0 & Ht & Hnr).
  simpl in Hstep, Hl0.
  pose proof (to_match cs d p t Hr Hp ltac:(lia) Hl0 Ht) as Hpath.
  rewrite lookbehind_spec in Hstep by (simpl; lia). simpl in Hstep.
  revert Hstep. branch; [lia|]. branch; [lia|]. intros Hstep.
  destruct (enc_match_last cs (d_ip d) offset mlen ltac:(lia) Hoff Hh)
    as (bl & Hbl & Hbz).
  assert (Hcl : length (lz_copy (Z.to_nat mlen) out (Z.to_nat offset))
                = (length out + Z.to_nat mlen)%nat).
  { apply lz_copy_length. unfold len in *. lia. }
  eexists. split.
  { eapply path_trans; [exact Hpath|]. apply path_one.
    - intros [_ (b & Hb & Hb64 & Hb1c)]. simpl in Hb.
      rewrite Hl0 in Hb. injection Hb as <-. tauto.
    - split; [done | exact Hstep]. }
  assert (Htake : take (Z.to_nat (len out)) (d_dst d) = out).
  { unfold len. by rewrite Nat2Z.id. }
  unfold copied. simpl. rewrite Hop, !Htake.
  split; [|split].
  - split; [|split].
    + simpl. eauto.
    + simpl. unfold len. rewrite Hcl. lia.
    + simpl. apply take_app_length.
  - done.
  - rewrite length_app, Hcl, length_drop. unfold len in *. lia.
Qed.

(** X11.  A literal run of any length written by [emitLiterals] as a first
    run and followed by the EOF marker is a stream [Decompress] decodes to
    that run: the three header formats of a first run (tag [len + 17], tag
    [len - 3], zero tag with extension bytes) are the ones the decoder
    reads at the start of a stream. *)
Theorem emitLiterals_decodes (lit buf dst' : list byte) (n : Z)
  (out : list byte) :
  lit ≠ [] → emitLiterals lit buf true = Val (n, None, out) →
  len lit <= len dst' →
  ∃ res,
    Decompress (take (Z.to_nat n) out ++ bytes [0x11; 0; 0]) dst'
    = Val (len lit, None, res)
    ∧ take (length lit) res = lit.
Proof.
  intros Hne Hr Hroom.
  destruct (emitLiterals_success _ _ _ _ _ Hne Hr) as (-> & -> & Hfit).
  replace (Z.to_nat (len (enc_literals lit true)))
    with (0 + length (enc_literals lit true))%nat by (unfold len; lia).
  rewrite splice_take by lia. simpl take.
  destruct (Decompress_encode [EvLiterals lit true] dst')
    as (res & Hd & Hres & _).
  - simpl. done.
  - simpl. done.
  - simpl in Hd, Hres. unfold encode in Hd. simpl in Hd.
    rewrite app_nil_r in Hd. exists res. done.
Qed.

Lemma emitLiterals_decodes_witness :
  let lit := bytes [0x41; 0x42; 0x43; 0x44; 0x45] in
  let out := bytes [2; 0x41; 0x42; 0x43; 0x44; 0x45; 0; 0] in
  (lit ≠ [] ∧ emitLiterals lit (zeros 8) true = Val (6, None, out)
   ∧ len lit <= len (zeros 5))
  ∧ ∃ res,
      Decompress (take (Z.to_nat 6) out ++ bytes [0x11; 0; 0]) (zeros 5)
      = Val (len lit, None, res)
      ∧ take (length lit) res = lit.
Proof.
  intros lit out.
  assert (H1 : lit ≠ []) by done.
  assert (H2 : emitLiterals lit (zeros 8) true = Val (6, None, out))
    by reflexivity.
  assert (H3 : len lit <= len (zeros 5)) by (vm_compute; congruence).
  split; [by repeat split|].
  exact (emitLiterals_decodes lit (zeros 8) (zeros 5) 6 out H1 H2 H3).
Defined.

(** X12.  A first literal run written by [emitLiterals] followed by a match
    written by [emitMatch] behind it and by the EOF marker is a stream
    [Decompress] decodes to the run followed by the copy: [mlen] bytes,
    each equal to the byte [offset] places before it. This holds for every
    offset up to [0xbfff] that stays within the run and every length from
    three up, so for each of the formats M2, M3 and M4 and for extended
    lengths of any size. *)
Theorem emitMatch_decodes (lit buf dst' : list byte) (offset mlen n1 n2 : Z)
  (b1 b2 : list byte) :
  lit ≠ [] → 1 <= offset <= len lit → offset <= 0xbfff → 3 <= mlen →
  emitLiterals lit buf true = Val (n1, None, b1) →
  on_tail b1 n1 (λ d, emitMatch d offset mlen) = Val (n2, None, b2) →
  len lit + mlen <= len dst' →
  ∃ res,
    Decompress (take (Z.to_nat (n1 + n2)) b2 ++ bytes [0x11; 0; 0]) dst'
    = Val (len lit + mlen, None, res)
    ∧ take (length lit) res = lit
    ∧ ∀ i, len lit <= i < len lit + mlen →
        res !! Z.to_nat i = res !! Z.to_nat (i - offset).
Proof.
  intros Hne Hoff Hmax Hlen Hr1 Hr2 Hroom.
  assert (Hoff' : 1 <= offset <= maxOffset) by (unfold maxOffset; lia).
  destruct (emitLiterals_success _ _ _ _ _ Hne Hr1) as (-> & -> & Hfit).
  set (E1 := enc_literals lit true) in *.
  set (E2 := enc_match offset mlen).
  pose proof (len_nonneg E1) as HE1. pose proof (len_nonneg E2) as HE2.
  rewrite on_tail_unfold in Hr2 by (done || lia).
  destruct (emitMatch (drop (length E1) buf) offset mlen)
    as [[[n2' err2] t2]| |] eqn:Hem; try done.
  sbind in Hr2. injection Hr2 as -> -> <-.
  destruct (emitMatch_success _ _ _ _ _ Hlen Hoff' Hem) as (-> & -> & Hfit2).
  fold E2 in Hfit2 |- *.
  assert (Hstream : take (Z.to_nat (len E1 + len E2))
                      (E1 ++ splice (drop (length E1) buf) 0 E2)
                    = E1 ++ E2).
  { rewrite take_app_ge by (unfold len; lia).
    replace (Z.to_nat (len E1 + len E2) - length E1)%nat
      with (0 + length E2)%nat by (unfold len; lia).
    rewrite splice_take by lia. done. }
  rewrite Hstream. clear Hstream.
  set (cs := (E1 ++ E2) ++ bytes [17; 0; 0]).
  assert (Hcs : holds cs 0 ((E1 ++ E2) ++ eof_marker)) by apply holds_self.
  apply holds_app in Hcs as [Hcs Heof].
  apply holds_app in Hcs as [H1 H2].
  set (d0 := Dec 0 0 0 stateStart dst').
  assert (Hsim0 : sim cs d0 PStart []).
  { split; [done|]. split; [done|]. done. }
  destruct (decode_literals cs d0 PStart [] lit true Hsim0)
    as (d1 & Hp1 & Hsim1 & Hip1 & Hlen1); [done | done | simpl; lia |].
  simpl in Hsim1, Hip1, Hlen1.
  destruct (decode_match_long cs d1 PLit lit offset mlen Hsim1
              ltac:(done) Hoff' ltac:(lia) Hlen)
    as (d2 & Hp2 & Hsim2 & Hip2 & Hlen2).
  { by rewrite Hip1. }
  { unfold len in *. rewrite Hlen1. lia. }
  destruct (decode_eof cs d2 PMatch _ Hsim2)
    as (d3 & Hp3 & Hs3 & Ho3 & Hd3 & _).
  { rewrite Hip2, Hip1. rewrite len_app in Heof. done. }
  destruct Hsim2 as (_ & Hop2 & Hout2).
  assert (Hcl : length (lz_copy (Z.to_nat mlen) lit (Z.to_nat offset))
                = (length lit + Z.to_nat mlen)%nat).
  { apply lz_copy_length. unfold len in *. lia. }
  destruct (lz_copy_spec (Z.to_nat mlen) lit (Z.to_nat offset))
    as [Hpre Hcopy]; [unfold len in *; lia|].
  exists (d_dst d3). split; [|split].
  - assert (Hpath : path cs d0 d3)
      by (eapply path_trans; [exact Hp1|]; by eapply path_trans).
    apply path_reach in Hpath.
    assert (Hrun : run 0 cs d3 = Val (d_op d3, None, d_dst d3)).
    { cbn [run]. by destruct (decide (d_state d3 = stateEOF)). }
    destruct (run_reach _ _ _ _ _ Hpath Hrun) as [fuel Hf].
    assert (Hcsne : cs ≠ []) by (subst cs; by destruct (E1 ++ E2)).
    rewrite (Decompress_run cs dst' fuel _ Hcsne Hf).
    replace (d_op d3) with (len lit + mlen); [done|].
    rewrite Ho3, Hop2. unfold len. rewrite Hcl. lia.
  - rewrite Hd3.
    replace (length lit)
      with (length lit `min`
            length (lz_copy (Z.to_nat mlen) lit (Z.to_nat offset)))%nat
      by lia.
    by rewrite <- take_take, Hout2.
  - intros i Hi. rewrite Hd3.
    set (L := lz_copy (Z.to_nat mlen) lit (Z.to_nat offset)) in *.
    assert (Hlook : ∀ j, (j < length L)%nat → d_dst d2 !! j = L !! j).
    { intros j Hj. rewrite <- Hout2. symmetry. by apply lookup_take_lt. }
    rewrite !Hlook by (rewrite Hcl; unfold len in *; lia).
    replace (Z.to_nat (i - offset))
      with (Z.to_nat i - Z.to_nat offset)%nat by lia.
    apply Hcopy. unfold len in *. lia.
Qed.

Lemma emitMatch_decodes_witness :
  let lit := bytes [0x41; 0x42; 0x43; 0x44] in
  let b1 := bytes [1; 0x41; 0x42; 0x43; 0x44; 0; 0; 0; 0; 0; 0; 0] in
  let b2 := bytes [1; 0x41; 0x42; 0x43; 0x44; 0x20; 0; 12; 0; 12; 0; 0] in
  (lit ≠ [] ∧ 1 <= 4 <= len lit ∧ 4 <= 0xbfff ∧ 3 <= 300
   ∧ emitLiterals lit (zeros 12) true = Val (5, None, b1)
   ∧ on_tail b1 5 (λ d, emitMatch d 4 300) = Val (5, None, b2)
   ∧ len lit + 300 <= len (zeros 304))
  ∧ ∃ res,
      Decompress (take (Z.to_nat (5 + 5)) b2 ++ bytes [0x11; 0; 0])
        (zeros 304)
      = Val (len lit + 300, None, res)
      ∧ take (length lit) res = lit
      ∧ ∀ i, len lit <= i < len lit + 300 →
          res !! Z.to_nat i = res !! Z.to_nat (i - 4).
Proof.
  intros lit b1 b2.
  assert (H1 : lit ≠ []) by done.
  assert (H2 : 1 <= 4 <= len lit) by (vm_compute; split; congruence).
  assert (H3 : 4 <= 0xbfff) by lia.
  assert (H4 : 3 <= 300) by lia.
  assert (H5 : emitLiterals lit (zeros 12) true = Val (5, None, b1))
    by reflexivity.
  assert (H6 : on_tail b1 5 (λ d, emitMatch d 4 300) = Val (5, None, b2))
    by reflexivity.
  assert (H7 : len lit + 300 <= len (zeros 304)) by (vm_compute; congruence).
  split; [by repeat split|].
  exact (emitMatch_decodes lit (zeros 12) (zeros 304) 4 300 5 5 b1 b2
           H1 H2 H3 H4 H5 H6 H7).
Defined.

(** ** The destination the caller passes *)

(** Two buffers that agree below the cursor, the second [k] bytes longer. *)
Definition same_prefix (k : nat) (op : Z) (dst dst' : list byte) : Prop :=
  length dst' = (length dst + k)%nat
  ∧ take (Z.to_nat op) dst = take (Z.to_nat op) dst'.

Lemma same_prefix_store k op dst dst' b dst1 :
  0 <= op → same_prefix k op dst dst' → store dst op b = Val dst1 →
  ∃ dst1', store dst' op b = Val dst1' ∧ same_prefix k (op + 1) dst1 dst1'.
Proof.
  intros Hop [Hl Ht]. unfold store.
  destruct ((0 <=? op) && (op <? len dst)) eqn:E; [|done]. cmp.
  intros [= <-].
  destruct ((0 <=? op) && (op <? len dst')) eqn:E';
    [|apply andb_false_iff in E' as [E'|E']; cmp; unfold len in *; lia].
  eexists. split; [done|]. split; [by rewrite !length_insert|].
  replace (Z.to_nat (op + 1)) with (S (Z.to_nat op)) by lia.
  rewrite !take_succ_insert by (unfold len in *; lia). by rewrite Ht.
Qed.

Lemma same_prefix_load k op dst dst' i b :
  i < op → same_prefix k op dst dst' → load dst i = Val b →
  load dst' i = Val b.
Proof.
  intros Hi [Hl Ht]. rewrite !load_Val. intros [H0 Hb]. split; [done|].
  rewrite <- (lookup_take_lt dst' (Z.to_nat op)) by lia.
  rewrite <- Ht. rewrite lookup_take_lt by lia. done.
Qed.

Lemma copy_literals_rel k n src ip op dst dst' ip1 op1 dst1 :
  0 <= op → same_prefix k op dst dst' →
  copy_literals n src ip op dst = Val (ip1, op1, dst1) →
  ∃ dst1', copy_literals n src ip op dst' = Val (ip1, op1, dst1')
    ∧ same_prefix k op1 dst1 dst1'.
Proof.
  revert ip op dst dst'. induction n as [|n IH]; intros ip op dst dst' Hop Hp;
    cbn [copy_literals].
  - intros [= <- <- <-]. eauto.
  - destruct (load src ip) as [b| |]; try done. sbind.
    destruct (store dst op b) as [dst2| |] eqn:Hst; try done. sbind.
    destruct (same_prefix_store _ _ _ _ _ _ Hop Hp Hst) as (dst2' & -> & Hp2).
    sbind. apply IH; [lia | done].
Qed.

Lemma copy_match_rel k n op mPos dst dst' op1 dst1 :
  0 <= op → mPos < op → same_prefix k op dst dst' →
  copy_match n op mPos dst = Val (op1, dst1) →
  ∃ dst1', copy_match n op mPos dst' = Val (op1, dst1')
    ∧ same_prefix k op1 dst1 dst1'.
Proof.
  revert op mPos dst dst'.
  induction n as [|n IH]; intros op mPos dst dst' Hop Hm Hp; cbn [copy_match].
  - intros [= <- <-]. eauto.
  - destruct (load dst mPos) as [b| |] eqn:Hb; try done. sbind.
    rewrite (same_prefix_load _ _ _ _ _ _ Hm Hp Hb). sbind.
    destruct (store dst op b) as [dst2| |] eqn:Hst; try done. sbind.
    destruct (same_prefix_store _ _ _ _ _ _ Hop Hp Hst) as (dst2' & -> & Hp2).
    sbind. apply IH; [lia | lia | done].
Qed.

(** The state [d] over the buffer [dst']. *)
Definition rebuf (d : dec) (dst' : list byte) : dec :=
  Dec (d_ip d) (d_op d) (d_lastMOff d) (d_state d) dst'.

(** Every outcome of a pass but [ErrOutputOverrun] on the shorter of two
    buffers. *)
Definition output_sufficed (k : nat) (f : flow) : Prop :=
  match f with
  | Ret _ (Some ErrOutputOverrun) _ => k = 0%nat
  | _ => True
  end.

Definition rel_flow (k : nat) (f f' : flow) : Prop :=
  match f, f' with
  | Next d1, Next d1' =>
      d_ip d1' = d_ip d1 ∧ d_op d1' = d_op d1
      ∧ d_lastMOff d1' = d_lastMOff d1 ∧ d_state d1' = d_state d1
      ∧ same_prefix k (d_op d1) (d_dst d1) (d_dst d1')
  | Ret n e out, Ret n' e' out' =>
      n' = n ∧ e' = e ∧ same_prefix k n out out'
  | _, _ => False
  end.

Definition tracks (k : nat) (m m' : exec flow) : Prop :=
  ∀ f, m = Val f → output_sufficed k f → ∃ f', m' = Val f' ∧ rel_flow k f f'.

Section other_buffer.
Context (src : list byte) (d : dec) (dst' : list byte) (k : nat).
Hypothesis Hpre : same_prefix k (d_op d) (d_dst d) dst'.
Hypothesis Hop : 0 <= d_op d.

Lemma fail_tracks e : tracks k (fail d e) (fail (rebuf d dst') e).
Proof. intros f [= <-] _. eexists. split; [done|]. done. Qed.

Lemma goto_tracks ip s : tracks k (goto d ip s) (goto (rebuf d dst') ip s).
Proof. intros f [= <-] _. eexists. split; [done|]. done. Qed.

Lemma literals_tracks ip t next :
  tracks k (literals src d ip t next)
    (literals src (rebuf d dst') ip t next).
Proof.
  pose proof Hpre as [Hl Ht]. unfold literals. simpl.
  destruct (len (d_dst d) <? d_op d + t) eqn:E; cmp.
  { intros f Hf Hk. destruct (len dst' <? d_op d + t) eqn:E'; cmp.
    - by apply fail_tracks.
    - injection Hf as <-. simpl in Hk. unfold len in *. lia. }
  destruct (len dst' <? d_op d + t) eqn:E'; cmp; [unfold len in *; lia|].
  destruct (len src <? ip + t); [apply fail_tracks|].
  intros f Hf _.
  destruct (copy_literals _ _ _ _ _) as [[[ip1 op1] dst1]| |] eqn:Hc;
    try done.
  sbind in Hf. injection Hf as <-.
  destruct (copy_literals_rel _ _ _ _ _ _ _ _ _ _ Hop Hpre Hc)
    as (dst1' & -> & Hp1).
  sbind. eexists. split; [done|]. done.
Qed.

Lemma lookbehind_tracks ip mOff mLen :
  0 < mOff →
  tracks k (lookbehind d ip mOff mLen)
    (lookbehind (rebuf d dst') ip mOff mLen).
Proof.
  intros Hm. pose proof Hpre as [Hl Ht]. unfold lookbehind. simpl.
  destruct (d_op d <? mOff) eqn:Eo; cmp; [apply fail_tracks|].
  destruct (len (d_dst d) <? d_op d + mLen) eqn:E; cmp.
  { intros f Hf Hk. destruct (len dst' <? d_op d + mLen) eqn:E'; cmp.
    - by apply fail_tracks.
    - injection Hf as <-. simpl in Hk. unfold len in *. lia. }
  destruct (len dst' <? d_op d + mLen) eqn:E'; cmp; [unfold len in *; lia|].
  intros f Hf _.
  destruct (copy_match _ _ _ _) as [[op1 dst1]| |] eqn:Hc; try done.
  sbind in Hf. injection Hf as <-.
  destruct (copy_match_rel k _ (d_op d) (d_op d - mOff) _ _ _ _ Hop
              ltac:(lia) Hpre Hc)
    as (dst1' & -> & Hp1).
  sbind. eexists. split; [done|]. done.
Qed.

Lemma bind_load_tracks i (k1 k2 : byte → exec flow) :
  (∀ b, tracks k (k1 b) (k2 b)) →
  tracks k (b ← load src i; k1 b) (b ← load src i; k2 b).
Proof.
  intros H. destruct (load src i) as [b| |]; try done. sbind. apply H.
Qed.

Lemma extended_tracks ip t base k1 k2 :
  (∀ ip' t', tracks k (k1 ip' t') (k2 ip' t')) →
  tracks k (extended src d ip t base k1)
    (extended src (rebuf d dst') ip t base k2).
Proof.
  intros Hk. unfold extended.
  destruct (skip_zeros _ _ _ _) as [[ip1 t1]| |]; try done. sbind.
  destruct (len src <=? ip1); [apply fail_tracks|].
  apply bind_load_tracks. intros b. apply Hk.
Qed.

Lemma shift_offset_pos a b c : 0 <= a → 0 <= b → 0 < c →
  0 < c + Z.shiftl a 6 + Z.shiftr b 2.
Proof.
  intros Ha Hb Hc.
  pose proof (proj2 (Z.shiftl_nonneg a 6) Ha).
  pose proof (proj2 (Z.shiftr_nonneg b 2) Hb). lia.
Qed.

Lemma step_tracks :
  0 <= d_lastMOff d → tracks k (step src d) (step src (rebuf d dst')).
Proof.
  intros Hlast. unfold step. simpl. destruct (d_state d).
  - unfold step_start. simpl. destruct (len src <=? d_ip d);
      [apply fail_tracks|].
    apply bind_load_tracks. intros b.
    destruct (17 <? u8 b); [|apply goto_tracks].
    destruct (u8 b - 17 <? 4); apply literals_tracks.
  - unfold step_literal_run. simpl. destruct (len src <=? d_ip d);
      [apply fail_tracks|].
    apply bind_load_tracks. intros b.
    destruct (16 <=? u8 b); [apply goto_tracks|].
    destruct (u8 b =? 0); [|apply literals_tracks].
    apply extended_tracks. intros. apply literals_tracks.
  - unfold step_first_literal_run. simpl. destruct (len src <=? d_ip d);
      [apply fail_tracks|].
    apply bind_load_tracks. intros b. pose proof (u8_range b).
    destruct (16 <=? u8 b); [apply goto_tracks|].
    destruct (len src <=? d_ip d + 1); [apply fail_tracks|].
    apply bind_load_tracks. intros b'. pose proof (u8_range b').
    apply lookbehind_tracks.
    apply shift_offset_pos; unfold m2MaxOffset; lia.
  - unfold step_match. simpl. destruct (len src <=? d_ip d);
      [apply fail_tracks|].
    apply bind_load_tracks. intros b. pose proof (u8_range b).
    destruct (64 <=? u8 b); [|destruct (32 <=? u8 b);
                               [|destruct (16 <=? u8 b)]].
    + unfold match_m2. simpl.
      destruct (0x1c <=? Z.land (u8 b) 0x1f).
      * destruct (d_lastMOff d =? 0) eqn:E0; cmp; [apply fail_tracks|].
        apply lookbehind_tracks. lia.
      * destruct (len src <=? d_ip d + 1); [apply fail_tracks|].
        apply bind_load_tracks. intros b'. pose proof (u8_range b').
        apply lookbehind_tracks. apply shift_offset_pos; try lia.
        apply Z.land_nonneg. lia.
    + assert (Htail : ∀ ip mLen,
                tracks k (match_m3_tail src d ip mLen)
                       (match_m3_tail src (rebuf d dst') ip mLen)).
      { intros. unfold match_m3_tail.
        destruct (len src <? ip + 2); [apply fail_tracks|].
        apply bind_load_tracks. intros b0. pose proof (u8_range b0).
        apply bind_load_tracks. intros b1. pose proof (u8_range b1).
        apply lookbehind_tracks. apply shift_offset_pos; lia. }
      unfold match_m3. destruct (Z.land (u8 b) 31 =? 0); [|apply Htail].
      by apply extended_tracks.
    + assert (Htail : ∀ ip mLen,
                tracks k (match_m4_tail src d
                          (Z.shiftl (Z.land (u8 b) 8) 11) ip mLen)
                       (match_m4_tail src (rebuf d dst')
                          (Z.shiftl (Z.land (u8 b) 8) 11) ip mLen)).
      { intros. unfold match_m4_tail.
        destruct (len src <? ip + 2); [apply fail_tracks|].
        apply bind_load_tracks. intros b0. pose proof (u8_range b0).
        apply bind_load_tracks. intros b1. pose proof (u8_range b1).
        destruct (_ =? 0); [apply goto_tracks|].
        apply lookbehind_tracks.
        assert (0 <= Z.shiftl (Z.land (u8 b) 8) 11)
          by (apply Z.shiftl_nonneg, Z.land_nonneg; lia).
        pose proof (proj2 (Z.shiftl_nonneg (u8 b0) 6) ltac:(lia)).
        pose proof (proj2 (Z.shiftr_nonneg (u8 b1) 2) ltac:(lia)).
        unfold m4MaxOffset. lia. }
      unfold match_m4. destruct (Z.land (u8 b) 7 =? 0); [|apply Htail].
      by apply extended_tracks.
    + unfold match_m1. destruct (len src <=? d_ip d + 1);
        [apply fail_tracks|].
      apply bind_load_tracks. intros b'. pose proof (u8_range b').
      apply lookbehind_tracks. apply shift_offset_pos; lia.
  - unfold step_match_done. simpl.
    destruct ((d_ip d =? 0) || (len src <? d_ip d)); [apply goto_tracks|].
    apply bind_load_tracks. intros b.
    destruct (Z.land (u8 b) 3 =? 0); [apply goto_tracks|].
    apply literals_tracks.
  - apply goto_tracks.
  - intros f [= <-] _. eexists. split; [done|]. simpl. done.
Qed.

End other_buffer.

Lemma run_tracks fuel src dst0 k d dst' n err out :
  dinv src dst0 d → same_prefix k (d_op d) (d_dst d) dst' →
  run fuel src d = Val (n, err, out) →
  (err = Some ErrOutputOverrun → k = 0%nat) →
  ∃ out', run fuel src (rebuf d dst') = Val (n, err, out')
    ∧ same_prefix k n out out'.
Proof.
  revert d dst'. induction fuel as [|fuel IH]; intros d dst' Hd Hp;
    cbn [run]; simpl;
    destruct (decide (d_state d = stateEOF)) as [He|He]; try done;
    try (intros [= <- <- <-] _; by eauto).
  destruct (step_ok src dst0 d Hd He) as (f & Hstep & Hf).
  pose proof Hd as ((_ & _) & (Hop & _) & Hlast & _).
  rewrite Hstep. sbind. intros Hrun Hk.
  destruct (step_tracks src d dst' k Hp Hop Hlast f Hstep)
    as (f' & -> & Hrel).
  { destruct f as [d1|n1 [[]|] out1]; simpl; try done.
    injection Hrun as _ <- _. by apply Hk. }
  sbind. destruct f as [d1|n1 e1 out1]; destruct f' as [d1'|n1' e1' out1'];
    simpl in Hrel; try done.
  - destruct Hrel as (Hi & Ho & Hl & Hs & Hp1). destruct Hf as [Hd1 _].
    destruct (IH d1 (d_dst d1') Hd1 Hp1 Hrun Hk) as (out' & Hrun' & Hp').
    exists out'. split; [|done]. rewrite <- Hrun'. f_equal.
    destruct d1'. unfold rebuf. simpl in *. congruence.
  - destruct Hrel as (-> & -> & Hp1). injection Hrun as <- <- <-. eauto.
Qed.

(** X13.  The outcome of [Decompress] depends on the destination through
    its length only, and on a longer destination it changes only if the
    shorter one had overflowed: the count, the error and the [n] bytes
    decoded are the same for any destination of the same length whatever it
    held before, and for any longer one unless the result was
    [ErrOutputOverrun]. *)
Theorem Decompress_buffer_independent (src dst dst' : list byte) (n : Z)
  (err : option error) (out : list byte) :
  len dst <= len dst' →
  Decompress src dst = Val (n, err, out) →
  (err = Some ErrOutputOverrun → len dst' = len dst) →
  ∃ out',
    Decompress src dst' = Val (n, err, out')
    ∧ take (Z.to_nat n) out' = take (Z.to_nat n) out.
Proof.
  intros Hlen Hd Hk. unfold len in Hlen, Hk. unfold Decompress in *.
  destruct (len src =? 0); [injection Hd as <- <- <-; by eauto|].
  assert (Hinit : dinv src dst (Dec 0 0 0 stateStart dst)).
  { unfold dinv. simpl. pose proof (len_nonneg src).
    pose proof (len_nonneg dst). lia. }
  assert (Hp : same_prefix (length dst' - length dst) 0 dst dst')
    by (split; [lia | done]).
  destruct (run_tracks _ src dst _ _ dst' n err out Hinit Hp Hd)
    as (out' & Hrun & _ & Ht).
  - intros He. specialize (Hk He). lia.
  - exists out'. split; [exact Hrun | done].
Qed.

Lemma Decompress_buffer_independent_witness :
  let src := bytes [0x13; 0x41; 0x42; 0x11; 0; 0] in
  let dst := bytes [1; 2; 3] in
  let dst' := bytes [9; 8; 7; 6; 5] in
  let out := bytes [0x41; 0x42; 3] in
  (len dst <= len dst'
   ∧ Decompress src dst = Val (2, None, out)
   ∧ (None = Some ErrOutputOverrun → len dst' = len dst))
  ∧ ∃ out',
      Decompress src dst' = Val (2, None, out')
      ∧ take (Z.to_nat 2) out' = take (Z.to_nat 2) out.
Proof.
  intros src dst dst' out.
  assert (H1 : len dst <= len dst') by (vm_compute; congruence).
  assert (H2 : Decompress src dst = Val (2, None, out)) by reflexivity.
  assert (H3 : @None error = Some ErrOutputOverrun → len dst' = len dst)
    by done.
  split; [by repeat split|].
  exact (Decompress_buffer_independent src dst dst' 2 None out H1 H2 H3).
Defined.

(** ** The destination [Compress] is given *)

(** Two states of the encoder that differ in the output only. *)
Definition same_ctl (e1 e2 : enc) : Prop :=
  e_ip e1 = e_ip e2 ∧ e_litStart e1 = e_litStart e2
  ∧ e_isFirstOutput e1 = e_isFirstOutput e2
  ∧ e_hashTable e1 = e_hashTable e2 ∧ e_log e1 = e_log e2.

Lemma with_pending_ctl src e1 e2 hi :
  same_ctl e1 e2 → with_pending src e1 hi = with_pending src e2 hi.
Proof.
  intros (_ & Hl & Hf & _ & Hlog). unfold with_pending.
  by rewrite Hl, Hf, Hlog.
Qed.

Lemma accept_same_ctl src e1 e2 tbl offset matchLen e1' e2' :
  same_ctl e1 e2 → 0 <= e_litStart e1 → e_litStart e1 <= e_ip e1 <= len src →
  accept src e1 tbl offset matchLen = Val (Continue e1') →
  accept src e2 tbl offset matchLen = Val (Continue e2') →
  same_ctl e1' e2'.
Proof.
  intros Hc Hpos Hip.
  pose proof (with_pending_ctl src e1 e2 (e_ip e1) Hc) as Hw.
  destruct e1 as [ip op1 ls fo tb ds1 lg].
  destruct e2 as [ip2 op2 ls2 fo2 tb2 ds2 lg2].
  destruct Hc as (Hi & Hl & Hf & Ht & Hlog). simpl in Hi, Hl, Hf, Ht, Hlog.
  subst ip2 ls2 fo2 tb2 lg2. simpl in Hpos, Hip, Hw.
  unfold accept. cbn [e_ip e_op].
  destruct (emit_pending_literals src (Enc ip op1 ls fo tb ds1 lg) ip)
    as [[[[n1 err1] dst1] log1]| |] eqn:E1; try done.
  destruct (emit_pending_literals src (Enc ip op2 ls fo tb ds2 lg) ip)
    as [[[[n2 err2] dst2] log2]| |] eqn:E2; try done.
  apply emit_pending_literals_log in E1 as ->; [|simpl; lia..].
  apply emit_pending_literals_log in E2 as ->; [|simpl; lia..].
  sbind. destruct err1; [done|]. destruct err2; [done|].
  destruct (on_tail dst1 _ _) as [[[m1 [|]] d1]| |]; try done.
  destruct (on_tail dst2 _ _) as [[[m2 [|]] d2]| |]; try done.
  sbind.
  destruct (refresh _ _ _ _ _) as [tbl'| |]; try done. sbind.
  intros [= <-] [= <-]. unfold same_ctl. simpl. by rewrite Hw.
Qed.

Lemma iter_same_ctl src e1 e2 e1' e2' :
  same_ctl e1 e2 → 0 <= e_litStart e1 → e_litStart e1 <= e_ip e1 <= len src →
  iter src e1 = Val (Continue e1') → iter src e2 = Val (Continue e2') →
  same_ctl e1' e2'.
Proof.
  intros Hc Hpos Hip.
  assert (Hacc := λ tbl o m, accept_same_ctl src e1 e2 tbl o m e1' e2'
                               Hc Hpos Hip).
  destruct e1 as [ip op1 ls fo tb ds1 lg].
  destruct e2 as [ip2 op2 ls2 fo2 tb2 ds2 lg2].
  destruct Hc as (Hi & Hl & Hf & Ht & Hlog). simpl in Hi, Hl, Hf, Ht, Hlog.
  subst ip2 ls2 fo2 tb2 lg2.
  unfold iter, pending_unencodable, short_tail, skip.
  cbn [e_ip e_op e_litStart e_isFirstOutput e_hashTable e_dst e_log].
  destruct (find_match _ _ _) as [[tbl found]| |]; try done. sbind.
  assert (Hskip :
            Val (Continue (Enc (ip + 1) op1 ls fo tbl ds1 lg))
            = Val (Continue e1') →
            Val (Continue (Enc (ip + 1) op2 ls fo tbl ds2 lg))
            = Val (Continue e2') →
            same_ctl e1' e2').
  { by intros [= <-] [= <-]. }
  destruct found as [[offset matchLen]|]; [|apply Hskip].
  destruct (_ && _ && _); [apply Hskip|].
  destruct (_ && _); [apply Hskip|].
  apply Hacc.
Qed.

Lemma einv_same_ctl src e1 e2 : same_ctl e1 e2 → einv src e1 → einv src e2.
Proof.
  intros (Hi & Hl & Hf & Ht & Hlog). unfold einv.
  by rewrite Hi, Hl, Hf, Ht, Hlog.
Qed.

Lemma main_loop_same_ctl fuel src e1 e2 e1' e2' :
  same_ctl e1 e2 → einv src e1 →
  main_loop fuel src e1 = Val (Continue e1') →
  main_loop fuel src e2 = Val (Continue e2') →
  same_ctl e1' e2'.
Proof.
  revert e1 e2. induction fuel as [|fuel IH]; intros e1 e2 Hc Hinv;
    cbn [main_loop]; pose proof Hc as (Hi & _); rewrite <- Hi.
  - destruct (e_ip e1 <? len src - minMatch); [done|].
    by intros [= <-] [= <-].
  - destruct (e_ip e1 <? len src - minMatch) eqn:E; cmp;
      [|by intros [= <-] [= <-]].
    destruct (iter src e1) as [[a|r1 l1]| |] eqn:E1; try done.
    destruct (iter src e2) as [[b|r2 l2]| |] eqn:E2; try done.
    sbind. pose proof Hinv as (Hpos & Hip & _).
    apply IH.
    + by apply (iter_same_ctl src e1 e2); try lia.
    + by destruct (iter_ctl _ _ _ Hinv E E1).
Qed.

Lemma einv_initial src dst : einv src (Enc 0 0 0 true initial_table dst []).
Proof.
  unfold einv. simpl. pose proof (initial_table_ok src).
  pose proof (len_nonneg src). split; [lia|]. split; [lia|]. done.
Qed.

Lemma main_loop_return src dst n err out log :
  main_loop (length src) src (Enc 0 0 0 true initial_table dst [])
  = Val (Return (n, err, out) log) →
  err = Some ErrOutputOverrun.
Proof.
  intros Hr.
  destruct (main_loop_any (length src) src dst
              (Enc 0 0 0 true initial_table dst []))
    as [Hp|[([[n' err'] out'] & l & Hr' & (He & _) & _)|(e & Hr' & _)]].
  - apply einv_initial.
  - unfold cinv, binv. simpl. pose proof (len_nonneg dst).
    repeat split; try done; try lia. apply Forall_nil_2.
  - simpl. unfold len. lia.
  - by rewrite Hp in Hr.
  - rewrite Hr' in Hr. by injection Hr as _ <- _ _.
  - by rewrite Hr' in Hr.
Qed.

Lemma compress_independent src dst1 dst2 n1 n2 out1 out2 :
  Compress src dst1 = Val (n1, None, out1) →
  Compress src dst2 = Val (n2, None, out2) →
  n1 = n2 ∧ take (Z.to_nat n1) out1 = take (Z.to_nat n2) out2.
Proof.
  intros H1 H2. destruct (decide (src = [])) as [->|Hne].
  { injection H1 as <- <-. injection H2 as <- <-. done. }
  unfold Compress in *.
  destruct (compress_logged_any src dst1 Hne)
    as [Hp|[([[n err] out] & log & Hr & (He & _) & _)
           |(log1 & Hr1 & _ & _ & _ & Hfit1 & _)]];
    [by rewrite Hp in H1
    |rewrite Hr in H1; sbind in H1; injection H1 as _ -> _; done|].
  destruct (compress_logged_any src dst2 Hne)
    as [Hp|[([[n err] out] & log & Hr & (He & _) & _)
           |(log2 & Hr2 & _ & _ & _ & Hfit2 & _)]];
    [by rewrite Hp in H2
    |rewrite Hr in H2; sbind in H2; injection H2 as _ -> _; done|].
  rewrite Hr1 in H1. rewrite Hr2 in H2. sbind in H1. sbind in H2.
  injection H1 as <- <-. injection H2 as <- <-.
  assert (Hlog : log1 = log2).
  { revert Hr1 Hr2. unfold compress_logged.
    destruct (len src =? 0); [intros; congruence|].
    destruct (len src <=? 3).
    { destruct (compressLiteralsOnly src dst1); try done.
      destruct (compressLiteralsOnly src dst2); try done.
      sbind. intros. congruence. }
    assert (Hinit := einv_initial src).
    destruct (main_loop _ _ (Enc 0 0 0 true initial_table dst1 []))
      as [[e1|[[k1 err1] o1] l1]| |] eqn:E1; try done; sbind.
    2:{ intros [= _ -> _]. by apply main_loop_return in E1. }
    destruct (main_loop _ _ (Enc 0 0 0 true initial_table dst2 []))
      as [[e2|[[k2 err2] o2] l2]| |] eqn:E2; try done; sbind.
    2:{ intros _ [= _ -> _]. by apply main_loop_return in E2. }
    assert (Hc : same_ctl e1 e2).
    { apply (main_loop_same_ctl (length src) src
               (Enc 0 0 0 true initial_table dst1 [])
               (Enc 0 0 0 true initial_table dst2 []) e1 e2);
        [done | apply Hinit | exact E1 | exact E2]. }
    pose proof (main_loop_ctl _ _ _ _ (Hinit dst1) E1) as [Hinv1 _].
    pose proof (einv_same_ctl _ _ _ Hc Hinv1) as Hinv2.
    pose proof Hinv1 as (Hpos1 & Hip1 & _).
    pose proof Hinv2 as (Hpos2 & Hip2 & _).
    unfold finish.
    destruct (emit_pending_literals src e1 (len src))
      as [[[[m1 err1] d1] lg1]| |] eqn:P1; try done.
    destruct (emit_pending_literals src e2 (len src))
      as [[[[m2 err2] d2] lg2]| |] eqn:P2; try done.
    apply emit_pending_literals_log in P1 as ->; [|lia..].
    apply emit_pending_literals_log in P2 as ->; [|lia..].
    rewrite (with_pending_ctl src e1 e2 (len src) Hc).
    sbind. destruct err1, err2; try (intros; congruence);
      destruct (emit_eof d1 _) as [?| |]; destruct (emit_eof d2 _) as [?| |];
      try done; sbind; intros; congruence. }
  subst log2. split; [done|].
  pose proof (len_nonneg (encode log1)).
  replace (Z.to_nat (len (encode log1) + 3))
    with (0 + length (encode log1 ++ eof_marker))%nat
    by (rewrite length_app; unfold len, eof_marker; simpl; lia).
  rewrite !splice_take by lia. done.
Qed.

(** ** Truncated streams *)

Lemma reach_dinv src dst0 d d' :
  dinv src dst0 d → reach src d d' → dinv src dst0 d'.
Proof.
  intros Hd Hr. induction Hr as [d|d d1 d2 [Hne Hs] _ IH]; [done|].
  apply IH. destruct (step_ok src dst0 d Hd Hne) as (f & Hf & Hg).
  rewrite Hs in Hf. injection Hf as <-. by destruct Hg.
Qed.

Lemma reach_app src x dst0 d d' :
  dinv src dst0 d → reach src d d' → reach (src ++ x) d d'.
Proof.
  intros Hd Hr. induction Hr as [d|d d1 d2 [Hne Hs] Hr IH]; [apply rtc_refl|].
  eapply rtc_l.
  - split; [done|]. apply step_app; [done | | done].
    destruct Hd as ((_ & ?) & _). done.
  - apply IH. apply (reach_dinv src dst0 d); [done|].
    by apply rtc_once.
Qed.

Lemma reach_eof_unique cs d a b :
  reach cs d a → reach cs d b →
  d_state a = stateEOF → d_state b = stateEOF → a = b.
Proof.
  intros Ha. revert b.
  induction Ha as [d|d d1 a Hs Ha IH]; intros b Hb Hea Heb.
  - apply rtc_inv in Hb as [->|(d1 & [Hne _] & _)]; done.
  - apply rtc_inv in Hb as [<-|(d1' & Hs' & Hb)].
    + by destruct Hs as [Hne _].
    + rewrite (dstep_det _ _ _ _ Hs' Hs) in Hb. by apply IH.
Qed.

(** X14.  Cutting the end off a stream [Compress] produced is detected: on
    every proper non-empty prefix of the [n] bytes written, [Decompress]
    returns [ErrInputOverrun], never a success and no other error, in any
    buffer that can hold the input. *)
Theorem Compress_truncated_fails (src dst dst' : list byte) (n m : Z)
  (packed : list byte) :
  Compress src dst = Val (n, None, packed) → 0 < m < n →
  len src <= len dst' →
  ∃ k out,
    Decompress (take (Z.to_nat m) packed) dst'
    = Val (k, Some ErrInputOverrun, out).
Proof.
  intros Hc Hm Hroom. destruct (decide (src = [])) as [->|Hne].
  { injection Hc as <- _. lia. }
  unfold Compress in Hc.
  destruct (compress_logged_any src dst Hne)
    as [Hp|[([[n' err] out'] & log & Hr & (He & _) & _)
           |(log & Hr & Hwf & Hexp & _ & Hfit & _)]];
    [by rewrite Hp in Hc
    |rewrite Hr in Hc; sbind in Hc; injection Hc as _ -> _; done|].
  rewrite Hr in Hc. sbind in Hc. injection Hc as <- <-.
  set (cs := encode log ++ eof_marker) in *.
  assert (Hn : len cs = len (encode log) + 3).
  { subst cs. rewrite len_app. done. }
  pose proof (len_nonneg (encode log)).
  assert (Hpre : take (Z.to_nat m) (splice dst 0 cs) = take (Z.to_nat m) cs).
  { unfold splice. simpl. rewrite take_app_le by (unfold len in *; lia).
    done. }
  rewrite Hpre. clear Hpre.
  set (pre := take (Z.to_nat m) cs).
  assert (Hcs : cs = pre ++ drop (Z.to_nat m) cs)
    by (subst pre; by rewrite take_drop).
  assert (Hlpre : len pre = m).
  { subst pre. unfold len. rewrite length_take. unfold len in *. lia. }
  assert (Hprene : pre ≠ []).
  { intros Hnil. rewrite Hnil in Hlpre. unfold len in Hlpre.
    simpl in Hlpre. lia. }
  set (d0 := Dec 0 0 0 stateStart dst').
  assert (Hinit : dinv pre dst' d0).
  { unfold dinv. simpl. pose proof (len_nonneg dst'). lia. }
  destruct (run_safe pre dst' (decompress_fuel pre) d0 Hinit)
    as ([[k err] out] & Hrun & Hkind & _).
  { unfold measure, decompress_fuel, len. simpl. lia. }
  assert (Hd : Decompress pre dst' = Val (k, err, out)).
  { unfold Decompress. destruct (len pre =? 0) eqn:E; cmp; [lia | done]. }
  rewrite Hd. exists k, out.
  assert (Hcase : err = Some ErrInputOverrun ∨ err ≠ Some ErrInputOverrun)
    by (destruct err as [[]|]; (by left) || (by right)).
  destruct Hcase as [->|Herr]; [done|].
  exfalso.
  destruct (run_app _ pre (drop (Z.to_nat m) cs) dst' _ k err out
              Hinit Hrun Herr) as [fuel' Hfull].
  rewrite <- Hcs in Hfull.
  apply Decompress_run in Hfull; [|subst cs; by destruct (encode log)].
  assert (Hsim0 : sim cs d0 PStart []) by (split; [|split]; done).
  assert (Hroom0 : len (expand [] log) <= len (d_dst d0))
    by (by rewrite Hexp).
  destruct (decode_log cs d0 PStart [] log Hsim0 Hwf (holds_self cs) Hroom0)
    as (dE & HpE & HsE & _ & _ & _ & HipE).
  simpl in HipE. fold cs in HipE.
  destruct (Decompress_encode log dst' Hwf ltac:(by rewrite Hexp))
    as (res & Hdec & _).
  fold cs in Hdec. rewrite Hdec in Hfull. injection Hfull as <- <- <-.
  destruct (run_success_eof pre _ d0 _ _ ltac:(done) Hrun)
    as (d1 & d2 & Hr1 & Hs2 & _ & He2 & _).
  assert (Hr2 : reach pre d0 d2) by (eapply rtc_r; done).
  pose proof (reach_dinv _ _ _ _ Hinit Hr2) as ((_ & Hip2) & _).
  pose proof (reach_app pre (drop (Z.to_nat m) cs) dst' _ _ Hinit Hr2) as Hr2'.
  rewrite <- Hcs in Hr2'.
  pose proof (reach_eof_unique cs d0 d2 dE Hr2' (path_reach _ _ _ HpE) He2 HsE).
  subst dE. lia.
Qed.

Lemma Compress_truncated_fails_witness :
  let src := bytes [0x41; 0x42] in
  let packed := bytes [0x13; 0x41; 0x42; 0x11; 0; 0] in
  (Compress src (zeros 6) = Val (6, None, packed) ∧ 0 < 4 < 6
   ∧ len src <= len (zeros 2))
  ∧ ∃ k out,
      Decompress (take (Z.to_nat 4) packed) (zeros 2)
      = Val (k, Some ErrInputOverrun, out).
Proof.
  intros src packed.
  assert (H1 : Compress src (zeros 6) = Val (6, None, packed))
    by reflexivity.
  assert (H2 : 0 < 4 < 6) by lia.
  assert (H3 : len src <= len (zeros 2)) by (vm_compute; congruence).
  split; [by repeat split|].
  exact (Compress_truncated_fails src (zeros 6) (zeros 2) 6 4 packed
           H1 H2 H3).
Defined.

(** ** The room [Compress] needs *)

(** Two states of the encoder with the same control and the same count of
    bytes written, over two destinations. *)
Definition paired (e1 e2 : enc) : Prop := same_ctl e1 e2 ∧ e_op e1 = e_op e2.

Lemma pending_bytes_ctl src e1 e2 hi :
  same_ctl e1 e2 → pending_bytes src e1 hi = pending_bytes src e2 hi.
Proof.
  intros (_ & Hl & Hf & _ & _). unfold pending_bytes. by rewrite Hl, Hf.
Qed.

Lemma same_ctl_refl e : same_ctl e e.
Proof. by repeat split. Qed.

(** A pass of the main loop that does not go on. *)
Definition stops (m : exec cflow) : Prop :=
  m = Panic ∨ ∃ r log, m = Val (Return r log).

Lemma iter_lockstep src dst1 dst2 e1 e2 e2' :
  paired e1 e2 → einv src e1 → cinv dst1 e1 → cinv dst2 e2 →
  e_ip e1 < len src - minMatch →
  iter src e2 = Val (Continue e2') →
  e_op e2 <= e_op e2' ∧ cinv dst2 e2'
  ∧ ((∃ e1', iter src e1 = Val (Continue e1') ∧ paired e1' e2'
        ∧ cinv dst1 e1')
     ∨ (stops (iter src e1) ∧ len dst1 < e_op e2' + 2)).
Proof.
  intros [Hc Hop] Hinv1 Hc1 Hc2 Hguard H2. unfold minMatch in Hguard.
  pose proof (einv_same_ctl _ _ _ Hc Hinv1) as Hinv2.
  pose proof (pending_bytes_ctl src e1 e2 (e_ip e1) Hc) as Hpb.
  pose proof Hinv1 as (Hpos & Hip & Htbl & _).
  assert (Hacc := λ tbl o m e1', accept_same_ctl src e1 e2 tbl o m e1' e2'
                                   Hc ltac:(lia) ltac:(lia)).
  assert (Hany1 := accept_any src dst1 e1).
  assert (Hany2 := accept_any src dst2 e2).
  destruct e1 as [ip op1 ls fo tb ds1 lg].
  destruct e2 as [ip2 op2 ls2 fo2 tb2 ds2 lg2].
  destruct Hc as (Hi & Hl & Hf & Ht & Hlog). simpl in Hi, Hl, Hf, Ht, Hlog, Hop.
  subst ip2 ls2 fo2 tb2 lg2 op2.
  simpl in Hpos, Hip, Htbl, Hguard.
  revert H2. unfold iter, pending_unencodable, short_tail, skip.
  cbn [e_ip e_op e_litStart e_isFirstOutput e_hashTable e_dst e_log].
  destruct (find_match_spec src tb ip)
    as (tbl' & found & -> & Htbl' & Hfound); [done | lia | lia |]. sbind.
  assert (Hskip :
            Val (Continue (Enc (ip + 1) op1 ls fo tbl' ds2 lg))
            = Val (Continue e2') →
            op1 <= e_op e2' ∧ cinv dst2 e2'
            ∧ ((∃ e1', Val (Continue (Enc (ip + 1) op1 ls fo tbl' ds1 lg))
                        = Val (Continue e1')
                  ∧ paired e1' e2' ∧ cinv dst1 e1')
               ∨ (stops (Val (Continue (Enc (ip + 1) op1 ls fo tbl' ds1 lg)))
                  ∧ len dst1 < e_op e2' + 2))).
  { intros [= <-]. simpl. split; [lia|]. split; [done|]. left.
    eexists. split; [done|]. split; [|done]. by repeat split. }
  destruct found as [[offset matchLen]|]; [|apply Hskip].
  destruct (_ && _ && _); [apply Hskip|].
  destruct (_ && _); [apply Hskip|].
  intros H2.
  destruct (enc_match_length offset matchLen) as [Hml _];
    [destruct Hfound as (_ & _ & ? & _); lia
    |by destruct Hfound as (? & _)|].
  pose proof (len_nonneg (pending_bytes src (Enc ip op1 ls fo tb ds2 lg) ip))
    as Hpn.
  destruct (Hany2 tbl' offset matchLen Hinv2 Hc2 Htbl' Hfound)
    as [[Hp _]|[(r & log & Hr & _)|(e' & Hr & Hc2' & Hop2)]];
    [by rewrite Hp in H2 | by rewrite Hr in H2 |].
  rewrite Hr in H2. injection H2 as <-. simpl in Hop2, Hpb.
  split; [lia|]. split; [done|].
  destruct (Hany1 tbl' offset matchLen Hinv1 Hc1 Htbl' Hfound)
    as [[Hp Hs]|[(r & log & Hr1 & _ & _ & Hs)|(e1' & Hr1 & Hc1' & Hop1)]].
  - right. simpl in Hs. split; [by left|]. rewrite Hpb in Hs. lia.
  - right. simpl in Hs. split; [right; eauto|]. rewrite Hpb in Hs. lia.
  - left. exists e1'. split; [done|]. split; [|done]. split.
    + by apply (Hacc tbl' offset matchLen).
    + simpl in Hop1. rewrite Hpb in Hop1. lia.
Qed.

Lemma main_loop_op_mono fuel src dst e e' :
  einv src e → cinv dst e → main_loop fuel src e = Val (Continue e') →
  e_op e <= e_op e'.
Proof.
  revert e. induction fuel as [|fuel IH]; intros e Hinv Hc; cbn [main_loop].
  - destruct (e_ip e <? len src - minMatch); [done|]. intros [= <-]. lia.
  - destruct (e_ip e <? len src - minMatch) eqn:E; cmp;
      [|intros [= <-]; lia].
    destruct (iter src e) as [[em|r l]| |] eqn:Ei; try done. sbind.
    intros Hm.
    destruct (iter_lockstep src dst dst e e em
                (conj (same_ctl_refl _) eq_refl) Hinv Hc Hc E Ei)
      as (Hmono & Hcm & _).
    assert (Hinvm : einv src em) by (by apply (iter_ctl src e (Continue em))).
    specialize (IH em Hinvm Hcm Hm). lia.
Qed.

Lemma main_loop_lockstep fuel src dst1 dst2 e1 e2 e2' :
  paired e1 e2 → einv src e1 → cinv dst1 e1 → cinv dst2 e2 →
  main_loop fuel src e2 = Val (Continue e2') →
  e_op e2 <= e_op e2'
  ∧ ((∃ e1', main_loop fuel src e1 = Val (Continue e1') ∧ paired e1' e2'
        ∧ einv src e1' ∧ cinv dst1 e1')
     ∨ (stops (main_loop fuel src e1) ∧ len dst1 < e_op e2' + 2)).
Proof.
  revert e1 e2. induction fuel as [|fuel IH];
    intros e1 e2 Hp Hinv1 Hc1 Hc2; cbn [main_loop];
    pose proof Hp as [(Hi & _) _]; rewrite <- Hi.
  - destruct (e_ip e1 <? len src - minMatch); [done|].
    intros [= <-]. split; [lia|]. left. eauto.
  - destruct (e_ip e1 <? len src - minMatch) eqn:E; cmp;
      [|intros [= <-]; split; [lia|]; left; by eauto].
    destruct (iter src e2) as [[e2m|r2 l2]| |] eqn:E2; try done. sbind.
    intros H2.
    destruct (iter_lockstep src dst1 dst2 e1 e2 e2m Hp Hinv1 Hc1 Hc2 E E2)
      as (Hmono & Hc2m & Hcase).
    pose proof (einv_same_ctl _ _ _ (proj1 Hp) Hinv1) as Hinv2.
    assert (Hinv2m : einv src e2m).
    { apply (iter_ctl src e2 (Continue e2m)); [done | | done].
      rewrite <- Hi. done. }
    destruct Hcase as [(e1m & Hr1 & Hpm & Hc1m)|[Hstop Hshort]].
    + rewrite Hr1. sbind.
      assert (Hinv1m : einv src e1m)
        by (by apply (iter_ctl src e1 (Continue e1m))).
      destruct (IH e1m e2m Hpm Hinv1m Hc1m Hc2m H2) as [Hm Hc].
      split; [lia | done].
    + pose proof (main_loop_op_mono _ _ _ _ _ Hinv2m Hc2m H2) as Hm.
      split; [lia|]. right. split; [|lia].
      destruct Hstop as [->|(r & l & ->)]; [by left|]. right. sbind. eauto.
Qed.

(** The end of [Compress]: it succeeds if and only if the pending literals
    and the EOF marker fit. *)
Lemma finish_room src dst0 e :
  einv src e → cinv dst0 e → 0 < len src →
  let need := e_op e + len (pending_bytes src e (len src)) + 3 in
  (need <= len dst0
   ∧ ∃ out, finish src e
            = Val ((need, None, out), with_pending src e (len src)))
  ∨ (len dst0 < need
     ∧ (finish src e = Panic
        ∨ ∃ n out log,
            finish src e = Val ((n, Some ErrOutputOverrun, out), log))).
Proof.
  intros Hinv (Hb & Hfit0 & Hlong) Hsrc need. subst need.
  pose proof Hinv as (Hpos & Hip & _).
  pose proof Hb as (Hdst & Hop & Hacc).
  pose proof (len_nonneg (encode (e_log e))).
  pose proof (len_nonneg (pending_bytes src e (len src))) as Hpn.
  assert (Hlen1 : len (encode (with_pending src e (len src)))
                  = e_op e + len (pending_bytes src e (len src))).
  { rewrite encode_with_pending, len_app. lia. }
  destruct (decide (e_op e + len (pending_bytes src e (len src)) <= len dst0))
    as [Hroom|Hroom].
  2:{ right. split; [lia|].
      destruct (emit_pending_literals_short src dst0 e (len src))
        as [Hp|(n & out & Hr & Hout)]; try done; try lia.
      - left. unfold finish. cbv zeta. by rewrite Hp.
      - right. unfold finish. cbv zeta. rewrite Hr. sbind. eauto. }
  destruct (decide (e_op e + len (pending_bytes src e (len src)) + 3
                    <= len dst0)) as [Hroom3|Hroom3].
  - left. split; [done|]. unfold finish. cbv zeta.
    rewrite (emit_pending_literals_ok src dst0 e (len src)) by (done || lia).
    sbind. rewrite emit_eof_next; [ | lia | lia ]. sbind. eauto.
  - right. split; [lia|]. right. unfold finish. cbv zeta.
    rewrite (emit_pending_literals_ok src dst0 e (len src)) by (done || lia).
    sbind. unfold emit_eof. rewrite splice0_length by lia.
    destruct (len dst0 <? e_op e + len (pending_bytes src e (len src)) + 3)
      eqn:Ec; cmp; [|lia].
    unfold overrun. sbind. eauto.
Qed.

Lemma cinv_initial dst : cinv dst (Enc 0 0 0 true initial_table dst []).
Proof.
  unfold cinv, binv. simpl. pose proof (len_nonneg dst).
  repeat split; try done; try lia. apply Forall_nil_2.
Qed.

(** A call that succeeded fixes what every other call does. *)
Lemma compress_room src dst1 dst2 n out2 :
  Compress src dst2 = Val (n, None, out2) →
  (n <= len dst1 ∧ ∃ out1, Compress src dst1 = Val (n, None, out1))
  ∨ (len dst1 < n
     ∧ (Compress src dst1 = Panic
        ∨ ∃ k out1, Compress src dst1 = Val (k, Some ErrOutputOverrun, out1))).
Proof.
  intros H2. pose proof (len_nonneg dst1) as Hd1.
  unfold Compress, compress_logged in *.
  destruct (len src =? 0) eqn:E0; cmp.
  { injection H2 as <- _. left. split; [lia|]. sbind. eauto. }
  destruct (len src <=? 3) eqn:E3; cmp.
  { pose proof (len_nonneg src).
    rewrite compressLiteralsOnly_short in H2 |- * by lia.
    destruct (len dst2 <? len src + 1); [done|].
    destruct (len dst2 <? len src + 4); [done|].
    sbind in H2. injection H2 as <- _.
    destruct (len dst1 <? len src + 1) eqn:Ea; cmp.
    { right. split; [lia|]. right. sbind. eauto. }
    destruct (len dst1 <? len src + 4) eqn:Eb; cmp.
    { right. split; [lia|]. right. sbind. eauto. }
    left. split; [lia|]. sbind. eauto. }
  set (i1 := Enc 0 0 0 true initial_table dst1 []).
  set (i2 := Enc 0 0 0 true initial_table dst2 []) in *.
  destruct (main_loop (length src) src i2) as [[e2|[[k2 err2] o2] l2]| |]
    eqn:E2; try done; sbind in H2.
  2:{ apply main_loop_return in E2. injection H2 as _ -> _. done. }
  destruct (finish src e2) as [[[[n2 err2'] o2] l2]| |] eqn:F2; try done.
  sbind in H2. injection H2 as -> -> ->.
  destruct (main_loop_lockstep (length src) src dst1 dst2 i1 i2 e2)
    as [_ Hcase]; try done.
  { apply einv_initial. } { apply cinv_initial. } { apply cinv_initial. }
  assert (Hs : 0 < len src) by lia.
  destruct (main_loop_any (length src) src dst2 i2)
    as [Hp|[(r & l & Hr & _)|(e2' & Hr & Hinv2 & Hc2 & _)]];
    [apply einv_initial | apply cinv_initial | simpl; unfold len; lia
    | by rewrite Hp in E2 | by rewrite Hr in E2 |].
  rewrite Hr in E2. injection E2 as ->.
  destruct (finish_room src dst2 e2 Hinv2 Hc2 Hs)
    as [(_ & ? & Hf)|(_ & [Hf|(? & ? & ? & Hf)])];
    rewrite Hf in F2; try done.
  injection F2 as <- _ _.
  pose proof (len_nonneg (pending_bytes src e2 (len src))) as Hpn.
  destruct Hcase as [(e1 & Hr1 & [Hc Hop] & Hinv1 & Hc1)|[Hstop Hshort]].
  - rewrite Hr1. sbind.
    rewrite <- (pending_bytes_ctl src e1 e2 (len src) Hc), <- Hop.
    destruct (finish_room src dst1 e1 Hinv1 Hc1 Hs)
      as [(Hfit & ? & Hf1)|(Hfit & [Hf1|(? & ? & ? & Hf1)])];
      rewrite Hf1; sbind.
    + left. split; [lia | eauto].
    + right. split; [lia|]. by left.
    + right. split; [lia|]. right. eauto.
  - right. split; [lia|].
    destruct Hstop as [->|([[k err] o] & l & Hr1)]; [by left|].
    rewrite Hr1. sbind. right.
    apply main_loop_return in Hr1 as ->. eauto.
Qed.

(** X15.  What [Compress] writes depends on the input only, and the room it
    needs is the size of what it writes. If one call on an input returns
    [n] without error, then a call on any destination of [n] bytes or more,
    whatever it holds, returns [n] without error as well and leaves the
    same [n] bytes, and a call on any shorter destination does not succeed:
    it returns [ErrOutputOverrun] or panics. So the guard of [emitMatch]
    that asks for four bytes never refuses a stream that fits. *)
Theorem Compress_exact_room (src dst1 dst2 : list byte) (n : Z)
  (out2 : list byte) :
  Compress src dst2 = Val (n, None, out2) →
  if n <=? len dst1 then
    ∃ out1,
      Compress src dst1 = Val (n, None, out1)
      ∧ take (Z.to_nat n) out1 = take (Z.to_nat n) out2
  else
    Compress src dst1 = Panic
    ∨ ∃ k out1, Compress src dst1 = Val (k, Some ErrOutputOverrun, out1).
Proof.
  intros H2.
  destruct (compress_room src dst1 dst2 n out2 H2)
    as [(Hfit & out1 & H1)|(Hshort & Hfail)].
  - destruct (n <=? len dst1) eqn:E; cmp; [|lia].
    exists out1. split; [done|].
    by destruct (compress_independent _ _ _ _ _ _ _ H1 H2).
  - destruct (n <=? len dst1) eqn:E; cmp; [lia | done].
Qed.

Lemma Compress_exact_room_witness :
  let src := bytes [0x41; 0x42] in
  let out2 := bytes [0x13; 0x41; 0x42; 0x11; 0; 0; 0; 0] in
  Compress src (zeros 8) = Val (6, None, out2)
  ∧ (Compress src (zeros 5) = Panic
     ∨ ∃ k out1,
         Compress src (zeros 5) = Val (k, Some ErrOutputOverrun, out1)).
Proof.
  intros src out2.
  assert (H : Compress src (zeros 8) = Val (6, None, out2)) by reflexivity.
  split; [exact H|].
  exact (Compress_exact_room src (zeros 5) (zeros 8) 6 out2 H).
Defined.

(** ** What has been decoded is final *)

Lemma run_eof fuel src d :
  d_state d = stateEOF → run fuel src d = Val (d_op d, None, d_dst d).
Proof.
  intros He. destruct fuel; cbn [run];
    by destruct (decide (d_state d = stateEOF)).
Qed.

Lemma run_monotone fuel src x dst0 k d dst' n1 err1 out1 :
  dinv src dst0 d → same_prefix k (d_op d) (d_dst d) dst' →
  run fuel src d = Val (n1, err1, out1) →
  ∀ fuel' n2 err2 out2,
    run fuel' (src ++ x) (rebuf d dst') = Val (n2, err2, out2) →
    n1 <= n2 ∧ take (Z.to_nat n1) out2 = take (Z.to_nat n1) out1.
Proof.
  assert (Heof : ∀ a b,
            same_prefix k (d_op a) (d_dst a) b → d_state a = stateEOF →
            Val (d_op a, None, d_dst a) = Val (n1, err1, out1) →
            ∀ fuel' n2 err2 out2,
              run fuel' (src ++ x) (rebuf a b) = Val (n2, err2, out2) →
              n1 <= n2 ∧ take (Z.to_nat n1) out2 = take (Z.to_nat n1) out1).
  { intros a b Hp He [= <- <- <-] fuel' n2 err2 out2.
    rewrite run_eof by done. intros [= <- <- <-].
    split; [simpl; lia|]. simpl. by destruct Hp. }
  revert d dst'. induction fuel as [|fuel IH]; intros d dst' Hd Hp;
    cbn [run]; destruct (decide (d_state d = stateEOF)) as [He|He];
    try done; try by apply Heof.
  destruct (step_ok src dst0 d Hd He) as (f & Hstep & Hf).
  pose proof Hd as ((_ & Hip) & (Hop & _) & Hlast & _).
  rewrite Hstep. sbind. destruct f as [d1|n err out].
  - intros Hrun fuel' n2 err2 out2.
    destruct fuel' as [|fuel']; cbn [run]; simpl;
      (destruct (decide (d_state d = stateEOF)); [done|]); [done|].
    pose proof (step_app src x d (Next d1) I Hip Hstep) as Hstep'.
    destruct (step_tracks (src ++ x) d dst' k Hp Hop Hlast _ Hstep' I)
      as (f' & -> & Hrel).
    sbind. destruct f' as [d1'|]; [|done].
    destruct Hrel as (Hi & Ho & Hl & Hs & Hp1). destruct Hf as [Hd1 _].
    intros Hrun2.
    apply (IH d1 (d_dst d1') Hd1 Hp1 Hrun fuel' n2 err2 out2).
    rewrite <- Hrun2. f_equal.
    destruct d1'. unfold rebuf. simpl in *. congruence.
  - intros [= <- <- <-] fuel' n2 err2 out2 Hrun2.
    destruct (step_window src d Hop _ Hstep) as [-> ->].
    apply run_window in Hrun2; [|done].
    destruct Hrun2 as (Hle & _ & Ht & _). simpl in Hle, Ht.
    split; [done|]. rewrite Ht. by destruct Hp.
Qed.

(** X16.  What [Decompress] has written is final. If a call returns the
    count [k], with or without error, then a call on that input with any
    bytes appended, in a destination at least as long, returns a count of
    [k] at least and has the same first [k] bytes in its buffer. So the
    bytes delivered with [ErrInputOverrun] or [ErrOutputOverrun] are the
    beginning of what the whole stream decodes to in a buffer that is large
    enough. *)
Theorem Decompress_monotone (src extra dst dst' : list byte) (k n : Z)
  (err err' : option error) (out out' : list byte) :
  len dst <= len dst' →
  Decompress src dst = Val (k, err, out) →
  Decompress (src ++ extra) dst' = Val (n, err', out') →
  k <= n ∧ take (Z.to_nat k) out' = take (Z.to_nat k) out.
Proof.
  intros Hlen H1 H2. unfold Decompress in *. rewrite len_app in H2.
  pose proof (len_nonneg extra). pose proof (len_nonneg src).
  destruct (len src =? 0) eqn:E; cmp.
  { injection H1 as <- _ _. split; [|done].
    destruct (len src + len extra =? 0); [by injection H2 as <- _ _|].
    apply run_window in H2; [|done]. by destruct H2 as [? _]. }
  destruct (len src + len extra =? 0) eqn:E'; cmp; [lia|].
  assert (Hinit : dinv src dst (Dec 0 0 0 stateStart dst)).
  { unfold dinv. simpl. pose proof (len_nonneg dst). lia. }
  assert (Hp : same_prefix (length dst' - length dst) 0 dst dst')
    by (split; [unfold len in *; lia | done]).
  exact (run_monotone _ src extra dst _ _ dst' k err out Hinit Hp H1
           _ n err' out' H2).
Qed.

Lemma Decompress_monotone_witness :
  let src := bytes [0x13; 0x41; 0x42] in
  let extra := bytes [0x40; 0; 0x11; 0; 0] in
  let out := bytes [0x41; 0x42; 0; 0] in
  let out' := bytes [0x41; 0x42; 0x42; 0x42; 0x42; 0] in
  (len (zeros 4) <= len (zeros 6)
   ∧ Decompress src (zeros 4) = Val (2, Some ErrInputOverrun, out)
   ∧ Decompress (src ++ extra) (zeros 6) = Val (5, None, out'))
  ∧ 2 <= 5 ∧ take (Z.to_nat 2) out' = take (Z.to_nat 2) out.
Proof.
  intros src extra out out'.
  assert (H1 : len (zeros 4) <= len (zeros 6)) by (vm_compute; congruence).
  assert (H2 : Decompress src (zeros 4) = Val (2, Some ErrInputOverrun, out))
    by reflexivity.
  assert (H3 : Decompress (src ++ extra) (zeros 6) = Val (5, None, out'))
    by reflexivity.
  split; [by repeat split|].
  exact (Decompress_monotone src extra (zeros 4) (zeros 6) 2 5 _ _ out out'
           H1 H2 H3).
Defined.
